(** * Tutorial snippets of the advancedcpp library, embedded and verified

    Each module embeds one self-contained example program of the
    repository: the C++ functions become functions on explicit state
    (console output, container contents, heap), threads become step
    relations over a shared state. *)

From Stdlib Require Import ZArith List Ascii String Lia Bool.
From Stdlib Require Import Floats.PrimFloat.
From Stdlib Require OrdersEx.
From stdpp Require Import gmap strings list fin_maps pretty sorting.

Open Scope string_scope.
Open Scope list_scope.
Open Scope stdpp_scope.
Open Scope Z_scope.

(** ** Shared conventions *)

(** [int] is a 32-bit two's complement integer.  C++ leaves signed
    overflow undefined; the embedding wraps, as the usual targets do. *)
Definition wrap_int (z : Z) : Z := (z + 2 ^ 31) mod 2 ^ 32 - 2 ^ 31.

Definition in_int_range (z : Z) : Prop := - 2 ^ 31 <= z < 2 ^ 31.

(** [std::endl] writes a newline (and flushes). *)
Definition endl : string := String "010"%char "".

(** [operator<<] on an [int]: decimal digits, a leading minus sign. *)
Definition show_int (z : Z) : string := pretty z.

Lemma wrap_int_id z : in_int_range z -> wrap_int z = z.
Proof.
  unfold in_int_range, wrap_int. intros H.
  rewrite Z.mod_small by lia. lia.
Qed.

(** ** code/map/Custom_Map_Operation_Using_a_Functor.cpp, first program *)

Module FunctorMap.

(** [MultiplyByTwo::operator()]. *)
Definition MultiplyByTwo (x : Z) : Z := wrap_int (x * 2).

(** [std::transform(first, last, d_first, op)] with [d_first == first]:
    the elements are overwritten one after the other, from index [i]
    on, [n] of them. *)
Fixpoint transform_from (op : Z -> Z) (i : nat) (n : nat) (vec : list Z) : list Z :=
  match n with
  | O => vec
  | S n' =>
      match vec !! i with
      | Some x => transform_from op (S i) n' (<[i := op x]> vec)
      | None => vec
      end
  end.

Definition transform (op : Z -> Z) (vec : list Z) : list Z :=
  transform_from op 0 (length vec) vec.

(** [for (int val : vec) std::cout << val << " ";] *)
Fixpoint print_vec (vec : list Z) (out : string) : string :=
  match vec with
  | [] => out
  | val :: rest => print_vec rest (out +:+ show_int val +:+ " ")
  end.

Definition sample_vec : list Z := [1; 2; 3; 4; 5].

(** [main]: returns what was written to [std::cout]. *)
Definition main : string :=
  let vec := sample_vec in
  let vec := transform MultiplyByTwo vec in
  print_vec vec "".

(** The block under "Output:" in the tutorial. *)
Definition documented_output : string := "2 4 6 8 10".

(** What the print loop writes for a vector: each element followed by
    a blank. *)
Fixpoint blank_separated (vec : list Z) : string :=
  match vec with
  | [] => ""
  | val :: rest => show_int val +:+ " " +:+ blank_separated rest
  end.

Lemma transform_from_app op (suf : list Z) : forall (pre : list Z),
  transform_from op (length pre) (length suf) (pre ++ suf) = pre ++ map op suf.
Proof.
  induction suf as [|x suf IH]; intros pre; simpl.
  - reflexivity.
  - rewrite list_lookup_middle by reflexivity.
    rewrite insert_app_r_alt by lia.
    replace (length pre - length pre)%nat with 0%nat by lia. simpl.
    specialize (IH (pre ++ [op x])).
    rewrite length_app in IH. simpl in IH.
    replace (length pre + 1)%nat with (S (length pre)) in IH by lia.
    rewrite <- !app_assoc in IH. exact IH.
Qed.

Lemma transform_map op (vec : list Z) : transform op vec = map op vec.
Proof. exact (transform_from_app op vec []). Qed.




Lemma string_app_assoc (a b c : string) : (a +:+ b) +:+ c = a +:+ (b +:+ c).
Proof.
  induction a as [|x a IH]; [done|].
  change (String x ((a +:+ b) +:+ c) = String x (a +:+ (b +:+ c))).
  by rewrite IH.
Qed.

Lemma print_vec_spec vec : forall out,
  print_vec vec out = out +:+ blank_separated vec.
Proof.
  induction vec as [|val vec IH]; intros out; simpl.
  - induction out as [|x out IHo]; [done|].
    change (String x out = String x (out +:+ "")). by rewrite <- IHo.
  - rewrite IH. by rewrite !string_app_assoc.
Qed.

(** X1: for every vector, [std::transform] onto the vector itself
    gives each position the image of the value that stood there before,
    and keeps the length; with the functor each element whose double
    fits an [int] is doubled, and the print loop writes the doubled
    values in order, each followed by a blank. *)
Theorem functor_map_doubles_every_vector (vec : list Z) :
  (forall op, transform op vec = map op vec)
  /\ length (transform MultiplyByTwo vec) = length vec
  /\ (Forall (fun x => - 2 ^ 30 <= x < 2 ^ 30) vec ->
        transform MultiplyByTwo vec = map (fun x => 2 * x) vec
        /\ print_vec (transform MultiplyByTwo vec) ""
           = blank_separated (map (fun x => 2 * x) vec)).
Proof.
  split; [intros op; apply transform_map|].
  split; [by rewrite transform_map, length_map|].
  intros Hrange.
  assert (Heq : transform MultiplyByTwo vec = map (fun x => 2 * x) vec).
  { rewrite transform_map. apply map_ext_in. intros x Hx.
    rewrite Forall_forall in Hrange. apply list_elem_of_In in Hx.
    specialize (Hrange x Hx). unfold MultiplyByTwo.
    rewrite wrap_int_id by (unfold in_int_range; lia). lia. }
  split; [exact Heq|]. rewrite Heq, print_vec_spec. done.
Qed.

Lemma functor_map_doubles_witness :
  transform MultiplyByTwo [7; -3; 0] = map (fun x => 2 * x) [7; -3; 0].
Proof.
  apply (proj2 (proj2 (functor_map_doubles_every_vector [7; -3; 0]))).
  repeat constructor; lia.
Defined.

End FunctorMap.

(** ** code/map/MapIteration.cpp *)

Module MapIteration.

(** [std::map<int, int>]: the entries in ascending key order, one entry
    per key. *)
Definition int_map : Type := list (Z * Z).

(** [std::map::insert]: an entry whose key is present already is left
    as it is. *)
Fixpoint map_insert (k v : Z) (m : int_map) : int_map :=
  match m with
  | [] => [(k, v)]
  | (k', v') :: rest =>
      if k <? k' then (k, v) :: m
      else if k =? k' then m
      else (k', v') :: map_insert k v rest
  end.

(** The initializer-list constructor inserts the pairs in turn. *)
Definition map_of_init (init : list (Z * Z)) : int_map :=
  fold_left (fun m kv => map_insert kv.1 kv.2 m) init [].

Fixpoint map_find (k : Z) (m : int_map) : option Z :=
  match m with
  | [] => None
  | (k', v') :: rest => if k =? k' then Some v' else map_find k rest
  end.

Definition keys (m : int_map) : list Z := map fst m.

(** [incrementValue]. *)
Definition incrementValue (x : Z) : Z := wrap_int (x + 1).

(** [for (auto& pair : myMap) pair.second = incrementValue(pair.second);] *)
Fixpoint update_loop (m : int_map) : int_map :=
  match m with
  | [] => []
  | (first, second) :: rest => (first, incrementValue second) :: update_loop rest
  end.

(** [for (const auto& pair : myMap)
       std::cout << pair.first << ": " << pair.second << std::endl;] *)
Fixpoint print_loop (m : int_map) (out : string) : string :=
  match m with
  | [] => out
  | (first, second) :: rest =>
      print_loop rest (out +:+ show_int first +:+ ": " +:+ show_int second +:+ endl)
  end.

Definition myMap : int_map := map_of_init [(1, 10); (2, 20); (3, 30)].

Definition main : string :=
  let myMap := update_loop myMap in
  print_loop myMap "".

(** The block under "Output:" in the tutorial, line by line. *)
Definition documented_output : string :=
  "1: 11" +:+ endl +:+ "2: 21" +:+ endl +:+ "3: 31" +:+ endl.

(** The value of the first pair with the key [k] in an initializer
    list. *)
Fixpoint first_value (k : Z) (init : list (Z * Z)) : option Z :=
  match init with
  | [] => None
  | (k', v') :: rest => if k =? k' then Some v' else first_value k rest
  end.

(** The keys grow strictly from each entry to the next. *)
Fixpoint ascending (m : int_map) : Prop :=
  match m with
  | [] => True
  | (k, _) :: rest => Forall (fun entry => k < entry.1) rest /\ ascending rest
  end.

Lemma update_loop_keys m : keys (update_loop m) = keys m.
Proof.
  unfold keys. induction m as [|[k v] m IH]; simpl; [reflexivity|].
  by rewrite IH.
Qed.

Lemma update_loop_length m : length (update_loop m) = length m.
Proof. induction m as [|[k v] m IH]; simpl; congruence. Qed.

Lemma update_loop_find m k :
  map_find k (update_loop m) = incrementValue <$> map_find k m.
Proof.
  induction m as [|[k' v] m IH]; simpl; [reflexivity|].
  destruct (k =? k'); [reflexivity | exact IH].
Qed.

(** C9: the update loop of the map-iteration program changes values
    only: for every map the keys and the number of entries stay as they
    were and the value under each key becomes incrementValue of the old
    one; on {{1,10},{2,20},{3,30}} every value v becomes v + 1 and the
    program prints "1: 11", "2: 21", "3: 31", one per line. *)
Theorem map_iteration_updates_values_only :
  (forall m : int_map,
      keys (update_loop m) = keys m
      /\ length (update_loop m) = length m
      /\ forall k, map_find k (update_loop m) = incrementValue <$> map_find k m)
  /\ myMap = [(1, 10); (2, 20); (3, 30)]
  /\ (forall k v, map_find k myMap = Some v ->
        map_find k (update_loop myMap) = Some (v + 1))
  /\ main = documented_output.
Proof.
  split.
  { intros m. split; [apply update_loop_keys|].
    split; [apply update_loop_length | apply update_loop_find]. }
  split; [reflexivity|]. split; [|vm_compute; reflexivity].
  intros k v Hk. rewrite update_loop_find, Hk. simpl. f_equal.
  unfold incrementValue. apply wrap_int_id.
  unfold in_int_range.
  change myMap with [(1, 10); (2, 20); (3, 30)] in Hk. simpl in Hk.
  repeat match type of Hk with
         | (if ?b then _ else _) = _ => destruct b
         end; simplify_eq; lia.
Qed.

(** The value part of C9 read at key 2. *)
Lemma map_iteration_witness :
  map_find 2 myMap = Some 20 /\ map_find 2 (update_loop myMap) = Some (20 + 1).
Proof.
  split; [reflexivity|].
  apply (proj1 (proj2 (proj2 map_iteration_updates_values_only)) 2 20).
  reflexivity.
Defined.

Lemma map_find_below k m :
  Forall (fun entry : Z * Z => k < entry.1) m -> map_find k m = None.
Proof.
  induction m as [|[k' v'] m IH]; intros Hall; simpl; [done|].
  apply Forall_cons in Hall as [Hk Hall]. simpl in Hk.
  destruct (Z.eqb_spec k k'); [lia | by apply IH].
Qed.

Lemma map_insert_keys k v m entry :
  entry ∈ map_insert k v m -> entry = (k, v) \/ entry ∈ m.
Proof.
  induction m as [|[k' v'] m IH]; simpl.
  - rewrite list_elem_of_singleton. by left.
  - destruct (k <? k'); [rewrite elem_of_cons; tauto|].
    destruct (k =? k'); [tauto|].
    rewrite !elem_of_cons. intros [->|Hin]; [tauto|].
    destruct (IH Hin); tauto.
Qed.

Lemma map_insert_ascending k v m :
  ascending m -> ascending (map_insert k v m).
Proof.
  induction m as [|[k' v'] m IH]; intros Hasc; simpl; [by split|].
  destruct Hasc as [Hall Hasc].
  destruct (Z.ltb_spec k k') as [Hlt|Hge].
  - split; [|by split]. constructor; [done|].
    eapply Forall_impl; [exact Hall|]. simpl. intros; lia.
  - destruct (Z.eqb_spec k k') as [->|Hne]; [by split|].
    split; [|by apply IH].
    rewrite Forall_forall. intros entry Hin.
    apply map_insert_keys in Hin as [->|Hin]; [simpl; lia|].
    rewrite Forall_forall in Hall. by apply Hall.
Qed.

Lemma map_insert_find k v m k' :
  ascending m ->
  map_find k' (map_insert k v m)
  = match map_find k' m with
    | Some v' => Some v'
    | None => if k' =? k then Some v else None
    end.
Proof.
  induction m as [|[k0 v0] m IH]; intros Hasc; simpl.
  - by destruct (k' =? k).
  - destruct Hasc as [Hall Hasc].
    destruct (Z.ltb_spec k k0) as [Hlt|Hge]; simpl.
    + destruct (Z.eqb_spec k' k) as [Heq|Hne].
      * subst k'. destruct (Z.eqb_spec k k0) as [|_]; [lia|].
        rewrite map_find_below; [done|].
        eapply Forall_impl; [exact Hall|]. simpl. intros; lia.
      * destruct (k' =? k0); [done|]. by destruct (map_find k' m).
    + destruct (Z.eqb_spec k k0) as [Heq|Hne]; simpl.
      * subst k0. destruct (Z.eqb_spec k' k) as [_|_]; [done|].
        by destruct (map_find k' m).
      * destruct (Z.eqb_spec k' k0) as [_|_]; [done|]. by apply IH.
Qed.

Lemma map_of_init_spec init : forall m,
  ascending m ->
  ascending (fold_left (fun m kv => map_insert kv.1 kv.2 m) init m)
  /\ forall k,
       map_find k (fold_left (fun m kv => map_insert kv.1 kv.2 m) init m)
       = match map_find k m with
         | Some v => Some v
         | None => first_value k init
         end.
Proof.
  induction init as [|[k0 v0] init IH]; intros m Hasc; simpl.
  - split; [done|]. intros k. by destruct (map_find k m).
  - destruct (IH (map_insert k0 v0 m) (map_insert_ascending k0 v0 m Hasc))
      as [Hsorted Hfind].
    split; [exact Hsorted|]. intros k. rewrite Hfind.
    rewrite map_insert_find by done.
    destruct (map_find k m); [done|]. by destruct (k =? k0).
Qed.

Lemma update_loop_ascending m : ascending m -> ascending (update_loop m).
Proof.
  induction m as [|[k v] m IH]; simpl; [done|].
  intros [Hall Hasc]. split; [|by apply IH].
  rewrite Forall_forall in *. intros entry Hin.
  assert (Hkey : entry.1 ∈ keys (update_loop m)).
  { unfold keys. apply list_elem_of_fmap. by exists entry. }
  rewrite update_loop_keys in Hkey. unfold keys in Hkey.
  apply list_elem_of_fmap in Hkey as (entry' & -> & Hin'). by apply Hall.
Qed.

(** X2: whatever initializer list the map is built from, its
    entries stand in strictly ascending key order, so that the print
    loop goes through the keys in that order; of several pairs with one
    key the first is kept; and after the update loop each key holds
    [incrementValue] of the value it was given. *)
Theorem map_iteration_sorted_first_pair_wins (init : list (Z * Z)) :
  ascending (map_of_init init)
  /\ ascending (update_loop (map_of_init init))
  /\ (forall k, map_find k (map_of_init init) = first_value k init)
  /\ (forall k, map_find k (update_loop (map_of_init init))
                = incrementValue <$> first_value k init).
Proof.
  destruct (map_of_init_spec init [] I) as [Hsorted Hfind].
  split; [exact Hsorted|].
  split; [by apply update_loop_ascending|].
  split; [intros k; exact (Hfind k)|].
  intros k. rewrite update_loop_find. f_equal. exact (Hfind k).
Qed.

End MapIteration.

(** ** The std::map-backed cache snippets *)

Module Cache.

(** [std::map<std::string, std::string>::operator[]]: the value under
    [key], an empty string being inserted under it first when the key is
    absent.  Returns the map after the call and the value referred to. *)
Definition subscript (cache : gmap string string) (key : string)
  : gmap string string * string :=
  match cache !! key with
  | Some value => (cache, value)
  | None => (<[key := ""]> cache, "")
  end.

(** [cache[key] = value;] *)
Definition store (cache : gmap string string) (key value : string)
  : gmap string string :=
  <[key := value]> (subscript cache key).1.

(** The unnamed snippet: no separator between the URL and the content. *)
Definition main_cache_snippet : string :=
  let cache : gmap string string := ∅ in
  let cache := store cache "http://example.com" "<html>hello</html>" in
  let url := "http://example.com" in
  let '(cache, content) := subscript cache url in
  "Cache for " +:+ url +:+ content +:+ endl.

(** The tutorial's "Caching Systems" example. *)
Definition main_caching_example : string :=
  let cache : gmap string string := ∅ in
  let cache := store cache "http://example.com" "<html>Example</html>" in
  let url := "http://example.com" in
  let '(cache, content) := subscript cache url in
  "Cache for " +:+ url +:+ ": " +:+ content +:+ endl.

Lemma store_lookup (cache : gmap string string) url content :
  store cache url content !! url = Some content.
Proof. unfold store. apply lookup_insert_eq. Qed.

Lemma store_lookup_ne (cache : gmap string string) url content key :
  key ≠ url ->
  store cache url content !! key = cache !! key.
Proof.
  intros Hne. unfold store, subscript.
  rewrite lookup_insert_ne by done.
  destruct (cache !! url); simpl; [done|].
  by rewrite lookup_insert_ne.
Qed.

(** C7: storing then looking up round-trips.  After [cache[url] =
    content] the lookup [cache[url]] yields exactly [content] and leaves
    the map as the store made it; the store touches no other key; both
    operations are functions of the map alone, and the two snippets
    print the content they stored. *)
Theorem cache_store_lookup_roundtrip :
  (forall (cache : gmap string string) (url content : string),
      subscript (store cache url content) url
      = (store cache url content, content))
  /\ (forall (cache : gmap string string) (url content key : string),
        key ≠ url -> store cache url content !! key = cache !! key)
  /\ main_cache_snippet
     = "Cache for http://example.com<html>hello</html>" +:+ endl
  /\ main_caching_example
     = "Cache for http://example.com: <html>Example</html>" +:+ endl.
Proof.
  split.
  { intros cache url content. unfold subscript at 1.
    by rewrite store_lookup. }
  split; [intros; by apply store_lookup_ne|].
  split; vm_compute; reflexivity.
Qed.

(** The frame part of C7 on a one-entry cache. *)
Lemma cache_roundtrip_witness :
  store {[ "a" := "x" ]} "b" "y" !! "a" = ({[ "a" := "x" ]} : gmap string string) !! "a".
Proof.
  apply (proj1 (proj2 cache_store_lookup_roundtrip)). discriminate.
Defined.

Lemma store_insert (cache : gmap string string) key value :
  store cache key value = <[key := value]> cache.
Proof.
  unfold store, subscript. destruct (cache !! key); simpl; [done|].
  by rewrite insert_insert_eq.
Qed.

(** X3: a lookup with [operator[]] of a URL that is not cached
    yields the empty string and leaves an empty entry behind: the cache
    grows by one, the same lookup then finds that entry, and the answer
    is the one an empty cached page gives.  A lookup of a cached URL
    returns its content and changes nothing. *)
Theorem cache_lookup_miss_inserts (cache : gmap string string) (url : string) :
  (cache !! url = None ->
     subscript cache url = (<[url := ""]> cache, "")
     /\ size (subscript cache url).1 = S (size cache)
     /\ subscript (subscript cache url).1 url = ((subscript cache url).1, "")
     /\ (subscript cache url).2 = (subscript (<[url := ""]> cache) url).2)
  /\ (forall content, cache !! url = Some content ->
        subscript cache url = (cache, content)).
Proof.
  split.
  - intros Hmiss.
    assert (Heq : subscript cache url = (<[url := ""]> cache, "")).
    { unfold subscript. by rewrite Hmiss. }
    rewrite Heq. cbn [fst snd].
    split; [done|]. split; [by apply map_size_insert_None|].
    split; unfold subscript; by rewrite lookup_insert_eq.
  - intros content Hhit. unfold subscript. by rewrite Hhit.
Qed.

Lemma cache_lookup_miss_witness :
  subscript (∅ : gmap string string) "http://example.com"
  = (<["http://example.com" := ""]> ∅, "").
Proof.
  apply (proj1 (cache_lookup_miss_inserts ∅ "http://example.com")).
  apply lookup_empty.
Defined.

(** X4: a store puts the URL among the keys and nothing else; of two
    stores under one URL the later one wins and the cache is no larger
    than after one; stores under different URLs can be made in either
    order. *)
Theorem cache_store_overwrites (cache : gmap string string)
    (url url' content content' : string) :
  dom (store cache url content) = {[ url ]} ∪ dom cache
  /\ store (store cache url content) url content' = store cache url content'
  /\ size (store (store cache url content) url content')
     = size (store cache url content)
  /\ (is_Some (cache !! url) -> size (store cache url content) = size cache)
  /\ (cache !! url = None -> size (store cache url content) = S (size cache))
  /\ (url ≠ url' ->
        store (store cache url content) url' content'
        = store (store cache url' content') url content).
Proof.
  rewrite !store_insert.
  split; [apply dom_insert_L|].
  split; [apply insert_insert_eq|].
  split.
  { rewrite insert_insert_eq.
    destruct (cache !! url) as [old|] eqn:Hurl.
    - by rewrite !map_size_insert_Some by (by rewrite Hurl).
    - by rewrite !map_size_insert_None by done. }
  split.
  { intros Hold. by apply map_size_insert_Some. }
  split; [apply map_size_insert_None|].
  intros Hne. by apply insert_insert_ne.
Qed.

Lemma cache_store_overwrites_witness :
  store (store ∅ "a" "x") "b" "y" = store (store ∅ "b" "y") "a" "x".
Proof.
  apply (cache_store_overwrites ∅ "a" "b" "x" "y"). discriminate.
Defined.

End Cache.

(** ** Design Pattern/Structural/Flyweight: the flyweight factory *)

Module Flyweight.

(** A [Character*]: an address, [nullptr] being 0. *)
Definition ptr : Type := N.
Definition nullptr : ptr := 0%N.

(** [ConcreteCharacter]: the intrinsic state. *)
Record ConcreteCharacter : Type := { character : ascii }.

(** The factory's only member, [characterPool], together with the
    [ConcreteCharacter] objects that [new] has created so far. *)
Record FlyweightFactory : Type := {
  characterPool : gmap ascii ptr;
  allocated : gmap ptr ConcreteCharacter
}.

(** [FlyweightFactory factory;] *)
Definition empty_factory : FlyweightFactory :=
  {| characterPool := ∅; allocated := ∅ |}.

(** [new]: an address that is neither null nor in use. *)
Definition new_address (objs : gmap ptr ConcreteCharacter) : ptr :=
  fresh ({[ nullptr ]} ∪ dom objs).

(** [std::map<char, Character*>::operator[]]: a null pointer is
    inserted under an absent key. *)
Definition subscript (pool : gmap ascii ptr) (c : ascii) : gmap ascii ptr * ptr :=
  match pool !! c with
  | Some p => (pool, p)
  | None => (<[c := nullptr]> pool, nullptr)
  end.

(** [FlyweightFactory::getCharacter]. *)
Definition getCharacter (c : ascii) (f : FlyweightFactory) : ptr * FlyweightFactory :=
  let f1 :=
    match characterPool f !! c with
    | None =>
        let p := new_address (allocated f) in
        {| characterPool := <[c := p]> (subscript (characterPool f) c).1;
           allocated := <[p := {| character := c |}]> (allocated f) |}
    | Some _ => f
    end in
  let '(pool, p) := subscript (characterPool f1) c in
  (p, {| characterPool := pool; allocated := allocated f1 |}).

(** [ConcreteCharacter::display] through a [Character*]; [None] when the
    pointer refers to no object. *)
Definition display (f : FlyweightFactory) (p : ptr) (x y : Z) : option string :=
  match allocated f !! p with
  | Some obj =>
      Some ("Character: " +:+ String (character obj) "" +:+ " at position ("
            +:+ show_int x +:+ ", " +:+ show_int y +:+ ")" +:+ endl)
  | None => None
  end.

(** [factory.getCharacter(c)->display(x, y);] on the factory and the
    output so far. *)
Definition get_and_display (c : ascii) (x y : Z) (st : FlyweightFactory * string)
  : option (FlyweightFactory * string) :=
  let '(f, out) := st in
  let '(p, f) := getCharacter c f in
  match display f p x y with
  | Some line => Some (f, out +:+ line)
  | None => None
  end.

Definition main : option string :=
  st ← get_and_display "A" 1 1 (empty_factory, "");
  st ← get_and_display "B" 2 1 st;
  st ← get_and_display "A" 3 1 st;
  st ← get_and_display "C" 1 2 st;
  st ← get_and_display "B" 2 2 st;
  Some st.2.

Definition documented_output : string :=
  "Character: A at position (1, 1)" +:+ endl +:+
  "Character: B at position (2, 1)" +:+ endl +:+
  "Character: A at position (3, 1)" +:+ endl +:+
  "Character: C at position (1, 2)" +:+ endl +:+
  "Character: B at position (2, 2)" +:+ endl.

(** The factories a program can build: [characterPool] is private, so
    [getCharacter] is the only operation that changes one. *)
Inductive reachable : FlyweightFactory -> Prop :=
| reachable_empty : reachable empty_factory
| reachable_get c f : reachable f -> reachable (getCharacter c f).2.

(** A run of requests, the pointers returned in request order. *)
Fixpoint getCharacters (cs : list ascii) (f : FlyweightFactory) : list ptr * FlyweightFactory :=
  match cs with
  | [] => ([], f)
  | c :: rest =>
      let '(p, f) := getCharacter c f in
      let '(ps, f) := getCharacters rest f in
      (p :: ps, f)
  end.

(** The pool invariant. *)
Record pool_inv (f : FlyweightFactory) : Prop := {
  pool_keyed : forall c p, characterPool f !! c = Some p ->
                 allocated f !! p = Some {| character := c |};
  pool_owns : forall p obj, allocated f !! p = Some obj ->
                 characterPool f !! character obj = Some p;
  pool_no_null : allocated f !! nullptr = None
}.

(** [delete p]: nothing happens for the null pointer; the object [p]
    refers to is destroyed; [None] when [p] refers to no object, as
    for a pointer deleted before. *)
Definition delete_object (p : ptr) (objs : gmap ptr ConcreteCharacter)
  : option (gmap ptr ConcreteCharacter) :=
  if decide (p = nullptr) then Some objs
  else match objs !! p with
       | Some _ => Some (delete p objs)
       | None => None
       end.

(** The loop of [~FlyweightFactory] over the pool entries, taken in the
    order [entries]: [delete entry.second] for each; what is left of the
    objects, [None] if some [delete] is not defined. *)
Fixpoint delete_entries (entries : list (ascii * ptr))
    (objs : gmap ptr ConcreteCharacter) : option (gmap ptr ConcreteCharacter) :=
  match entries with
  | [] => Some objs
  | entry :: rest =>
      match delete_object entry.2 objs with
      | Some objs => delete_entries rest objs
      | None => None
      end
  end.

(** The line [display] prints for the char [c] at [(x, y)]. *)
Definition display_line (c : ascii) (x y : Z) : string :=
  "Character: " +:+ String c "" +:+ " at position ("
  +:+ show_int x +:+ ", " +:+ show_int y +:+ ")" +:+ endl.

Lemma getCharacter_hit f c p :
  characterPool f !! c = Some p -> getCharacter c f = (p, f).
Proof.
  intros Hc. unfold getCharacter, subscript. rewrite Hc. rewrite Hc.
  by destruct f.
Qed.

Lemma getCharacter_miss f c :
  characterPool f !! c = None ->
  getCharacter c f
  = (new_address (allocated f),
     {| characterPool := <[c := new_address (allocated f)]> (characterPool f);
        allocated := <[new_address (allocated f) := {| character := c |}]> (allocated f) |}).
Proof.
  intros Hc. unfold getCharacter, subscript. rewrite Hc. simpl.
  rewrite lookup_insert_eq. by rewrite insert_insert_eq.
Qed.

Lemma new_address_fresh objs : objs !! new_address objs = None.
Proof.
  apply not_elem_of_dom. unfold new_address.
  pose proof (is_fresh ({[nullptr]} ∪ dom objs)) as Hf. set_solver.
Qed.

Lemma new_address_not_null objs : new_address objs ≠ nullptr.
Proof.
  unfold new_address.
  pose proof (is_fresh ({[nullptr]} ∪ dom objs)) as Hf. set_solver.
Qed.

Lemma getCharacter_inv c f : pool_inv f -> pool_inv (getCharacter c f).2.
Proof.
  intros [Hk Ho Hn].
  destruct (characterPool f !! c) as [p|] eqn:Hc.
  - rewrite (getCharacter_hit f c p Hc). by split.
  - rewrite (getCharacter_miss f c Hc). simpl.
    pose proof (new_address_fresh (allocated f)) as Hfresh.
    pose proof (new_address_not_null (allocated f)) as Hnn.
    split; simpl.
    + intros c' p'. rewrite lookup_insert. case_decide as Hd.
      * intros [= <-]. subst c'. by rewrite lookup_insert_eq.
      * intros Hp'. rewrite lookup_insert_ne; [by apply Hk|].
        intros <-. apply Hk in Hp'. congruence.
    + intros p' obj. rewrite lookup_insert. case_decide as Hd.
      * intros [= <-]. subst p'. simpl. by rewrite lookup_insert_eq.
      * intros Hp'. pose proof (Ho _ _ Hp') as Hpool.
        rewrite lookup_insert_ne; [done|].
        intros Heq. rewrite <- Heq in Hpool. congruence.
    + by rewrite lookup_insert_ne.
Qed.

Lemma empty_factory_inv : pool_inv empty_factory.
Proof. split; simpl; intros; by simplify_map_eq. Qed.

Lemma reachable_inv f : reachable f -> pool_inv f.
Proof.
  induction 1 as [|c f _ IH]; [apply empty_factory_inv|].
  by apply getCharacter_inv.
Qed.

Lemma getCharacter_pool_mono c' f c p :
  characterPool f !! c = Some p ->
  characterPool (getCharacter c' f).2 !! c = Some p.
Proof.
  intros Hc. destruct (characterPool f !! c') as [p'|] eqn:Hc'.
  - by rewrite (getCharacter_hit f c' p' Hc').
  - rewrite (getCharacter_miss f c' Hc'). simpl.
    rewrite lookup_insert_ne; [done|]. congruence.
Qed.

Lemma getCharacters_pool_mono cs : forall f c p,
  characterPool f !! c = Some p ->
  characterPool (getCharacters cs f).2 !! c = Some p.
Proof.
  induction cs as [|c' cs IH]; intros f c p Hc; simpl; [done|].
  destruct (getCharacter c' f) as [p' f'] eqn:Hg.
  destruct (getCharacters cs f') as [ps f''] eqn:Hgs. simpl.
  change f'' with (ps, f'').2. rewrite <- Hgs. apply IH.
  change f' with (p', f').2. rewrite <- Hg. by apply getCharacter_pool_mono.
Qed.

Lemma getCharacter_pool c f :
  characterPool (getCharacter c f).2 !! c = Some (getCharacter c f).1.
Proof.
  destruct (characterPool f !! c) as [p|] eqn:Hc.
  - by rewrite (getCharacter_hit f c p Hc).
  - rewrite (getCharacter_miss f c Hc). simpl. apply lookup_insert_eq.
Qed.

Lemma flyweight_main_output : main = Some documented_output.
Proof. vm_compute. reflexivity. Qed.

(** C6: for every factory a program can build and every char c, a
    request for c returns a non-null pointer to a ConcreteCharacter
    holding c; every later request for c, directly afterwards or after
    any other requests, returns that same pointer; an object is
    allocated on the first request for c only; and the pool holds one
    flyweight per char, each storing the char it is keyed by. *)
Theorem flyweight_shared_per_char (f : FlyweightFactory) (c : ascii) :
  reachable f ->
  let p1 := (getCharacter c f).1 in
  let f1 := (getCharacter c f).2 in
  p1 ≠ nullptr
  /\ allocated f1 !! p1 = Some {| character := c |}
  /\ getCharacter c f1 = (p1, f1)
  /\ (forall cs : list ascii,
        (getCharacter c (getCharacters cs f1).2).1 = p1)
  /\ (is_Some (characterPool f !! c) -> f1 = f)
  /\ (characterPool f !! c = None ->
        allocated f !! p1 = None
        /\ size (allocated f1) = S (size (allocated f)))
  /\ (forall c' p, characterPool f1 !! c' = Some p ->
        allocated f1 !! p = Some {| character := c' |})
  /\ (forall p q o1 o2, allocated f1 !! p = Some o1 ->
        allocated f1 !! q = Some o2 ->
        character o1 = character o2 -> p = q)
  /\ size (allocated f1) = size (characterPool f1).
Proof.
  intros Hreach p1 f1.
  assert (Hinv1 : pool_inv f1) by (apply getCharacter_inv, reachable_inv, Hreach).
  assert (Hinv : pool_inv f) by (apply reachable_inv, Hreach).
  assert (Hpool : characterPool f1 !! c = Some p1) by apply getCharacter_pool.
  destruct Hinv1 as [Hk1 Ho1 Hn1].
  assert (Hobj : allocated f1 !! p1 = Some {| character := c |}) by (by apply Hk1).
  split. { intros Heq. rewrite Heq in Hobj. congruence. }
  split; [exact Hobj|].
  split; [by apply getCharacter_hit|].
  split.
  { intros cs.
    pose proof (getCharacters_pool_mono cs f1 c p1 Hpool) as Hmono.
    by rewrite (getCharacter_hit _ c p1 Hmono). }
  split.
  { intros [p Hp]. subst f1. by rewrite (getCharacter_hit f c p Hp). }
  split.
  { intros Hnone. subst p1 f1. rewrite (getCharacter_miss f c Hnone). simpl.
    split; [apply new_address_fresh|].
    apply map_size_insert_None, new_address_fresh. }
  split; [exact Hk1|].
  split.
  { intros p q o1 o2 Hp Hq Heq.
    apply Ho1 in Hp. apply Ho1 in Hq. rewrite Heq in Hp. congruence. }
  clear Hpool Hobj. clearbody f1. clear p1 Hreach Hinv f c.
  destruct f1 as [pool objs]. simpl in *. clear Hn1.
  revert pool Hk1 Ho1.
  induction objs as [|p obj objs Hfresh IH] using map_ind; intros pool Hk Ho.
  - rewrite map_size_empty.
    destruct (decide (pool = ∅)) as [->|Hne]; [by rewrite map_size_empty|].
    apply map_choose in Hne as (c & p & Hcp).
    apply Hk in Hcp. by rewrite lookup_empty in Hcp.
  - rewrite map_size_insert_None by done.
    assert (Hpc : pool !! character obj = Some p).
    { apply Ho. apply lookup_insert_eq. }
    rewrite <- (insert_delete_id pool (character obj) p Hpc).
    rewrite map_size_insert_None by apply lookup_delete_eq.
    f_equal. apply IH.
    + intros c' p'. rewrite lookup_delete. case_decide as Hd; [done|].
      intros Hp'. pose proof (Hk _ _ Hp') as Hobj.
      rewrite lookup_insert in Hobj. case_decide as Hd'; [|done].
      subst p'. simplify_eq.
    + intros p' obj' Hp'.
      assert (Hne : p ≠ p') by (intros ->; congruence).
      pose proof (Ho p' obj') as Hpool.
      rewrite lookup_insert_ne in Hpool by done.
      specialize (Hpool Hp').
      rewrite lookup_delete_ne; [done|].
      intros Heq. rewrite Heq in Hpc. congruence.
Qed.

(** C6 read on the empty factory and the char 'A'. *)
Lemma flyweight_shared_witness :
  getCharacter "A" (getCharacter "A" empty_factory).2
  = getCharacter "A" empty_factory.
Proof.
  pose proof (flyweight_shared_per_char empty_factory "A" reachable_empty) as H.
  simpl in H. destruct H as (_ & _ & H & _).
  rewrite H. by destruct (getCharacter "A" empty_factory).
Defined.

Lemma getCharacters_reachable cs : forall f,
  reachable f -> reachable (getCharacters cs f).2.
Proof.
  induction cs as [|c cs IH]; intros f Hf; simpl; [done|].
  pose proof (reachable_get c f Hf) as Hstep.
  destruct (getCharacter c f) as [p f1]. simpl in Hstep.
  specialize (IH f1 Hstep). by destruct (getCharacters cs f1).
Qed.

Lemma getCharacter_dom c f :
  dom (characterPool (getCharacter c f).2) = {[ c ]} ∪ dom (characterPool f).
Proof.
  destruct (characterPool f !! c) as [p|] eqn:Hc.
  - rewrite (getCharacter_hit f c p Hc). simpl.
    symmetry. apply subseteq_union_1_L, singleton_subseteq_l.
    apply elem_of_dom. eauto.
  - rewrite (getCharacter_miss f c Hc). simpl. apply dom_insert_L.
Qed.

Lemma getCharacters_dom cs : forall f,
  dom (characterPool (getCharacters cs f).2)
  = list_to_set cs ∪ dom (characterPool f).
Proof.
  induction cs as [|c cs IH]; intros f; simpl.
  { by rewrite (left_id_L ∅ (∪)). }
  pose proof (getCharacter_dom c f) as Hdom.
  destruct (getCharacter c f) as [p f1]. simpl in Hdom.
  specialize (IH f1). destruct (getCharacters cs f1) as [ps f2]. simpl in *.
  rewrite IH, Hdom.
  by rewrite (assoc_L (∪)), (comm_L (∪) (list_to_set cs)).
Qed.

Lemma pool_inv_sizes f :
  pool_inv f -> size (allocated f) = size (characterPool f).
Proof.
  intros [Hk Ho _]. destruct f as [pool objs]. simpl in *.
  revert pool Hk Ho.
  induction objs as [|p obj objs Hfresh IH] using map_ind; intros pool Hk Ho.
  - rewrite map_size_empty.
    destruct (decide (pool = ∅)) as [->|Hne]; [by rewrite map_size_empty|].
    apply map_choose in Hne as (c & p & Hcp).
    apply Hk in Hcp. by rewrite lookup_empty in Hcp.
  - rewrite map_size_insert_None by done.
    assert (Hpc : pool !! character obj = Some p).
    { apply Ho. apply lookup_insert_eq. }
    rewrite <- (insert_delete_id pool (character obj) p Hpc).
    rewrite map_size_insert_None by apply lookup_delete_eq.
    f_equal. apply IH.
    + intros c' p'. rewrite lookup_delete. case_decide as Hd; [done|].
      intros Hp'. pose proof (Hk _ _ Hp') as Hobj.
      rewrite lookup_insert in Hobj. case_decide as Hd'; [|done].
      subst p'. simplify_eq.
    + intros p' obj' Hp'.
      assert (Hne : p ≠ p') by (intros ->; congruence).
      pose proof (Ho p' obj') as Hpool.
      rewrite lookup_insert_ne in Hpool by done.
      specialize (Hpool Hp').
      rewrite lookup_delete_ne; [done|].
      intros Heq. rewrite Heq in Hpc. congruence.
Qed.

Lemma getCharacters_lookup cs : forall f,
  length (getCharacters cs f).1 = length cs
  /\ forall i c, cs !! i = Some c ->
       exists p, (getCharacters cs f).1 !! i = Some p
                 /\ characterPool (getCharacters cs f).2 !! c = Some p.
Proof.
  induction cs as [|c cs IH]; intros f; simpl.
  - split; [done|]. intros i c Hi. by rewrite lookup_nil in Hi.
  - pose proof (getCharacter_pool c f) as Hpool.
    destruct (getCharacter c f) as [p f1]. simpl in Hpool.
    destruct (IH f1) as [Hlen Hrest].
    pose proof (getCharacters_pool_mono cs f1 c p Hpool) as Hmono.
    destruct (getCharacters cs f1) as [ps f2]. simpl in *.
    split; [by rewrite Hlen|].
    intros [|i] c' Hi; simpl in Hi.
    + injection Hi as <-. by exists p.
    + by apply Hrest.
Qed.

(** X5: after any run of requests on a new factory the pool has an
    entry for exactly the chars that were requested, and as many
    [ConcreteCharacter] objects exist as there are different chars among
    the requests, however often each was requested. *)
Theorem flyweight_one_object_per_distinct_char (cs : list ascii) :
  dom (characterPool (getCharacters cs empty_factory).2) = list_to_set cs
  /\ size (allocated (getCharacters cs empty_factory).2)
     = size (list_to_set cs : gset ascii)
  /\ length (getCharacters cs empty_factory).1 = length cs.
Proof.
  assert (Hdom : dom (characterPool (getCharacters cs empty_factory).2)
                 = list_to_set cs).
  { rewrite getCharacters_dom. simpl.
    by rewrite dom_empty_L, (right_id_L ∅ (∪)). }
  split; [exact Hdom|]. split; [|apply getCharacters_lookup].
  rewrite pool_inv_sizes
    by (apply reachable_inv, getCharacters_reachable, reachable_empty).
  by rewrite <- Hdom, size_dom.
Qed.

(** X6: in a run of requests to a factory, two requests are answered
    with the same pointer exactly when they ask for the same char. *)
Theorem flyweight_same_pointer_iff_same_char
    (f : FlyweightFactory) (cs : list ascii) (i j : nat) (ci cj : ascii)
    (pi pj : ptr) :
  reachable f ->
  cs !! i = Some ci -> cs !! j = Some cj ->
  (getCharacters cs f).1 !! i = Some pi ->
  (getCharacters cs f).1 !! j = Some pj ->
  (pi = pj <-> ci = cj).
Proof.
  intros Hf Hci Hcj Hpi Hpj.
  destruct (getCharacters_lookup cs f) as [_ Hlook].
  destruct (Hlook i ci Hci) as (pi' & Hpi' & Hpooli).
  destruct (Hlook j cj Hcj) as (pj' & Hpj' & Hpoolj).
  assert (pi' = pi) as -> by congruence.
  assert (pj' = pj) as -> by congruence.
  pose proof (reachable_inv _ (getCharacters_reachable cs f Hf)) as [Hk _ _].
  split.
  - intros <-. apply Hk in Hpooli. apply Hk in Hpoolj. congruence.
  - intros <-. congruence.
Qed.

Lemma flyweight_same_pointer_witness :
  (getCharacters ["A"; "B"; "A"]%char empty_factory).1 !! 0%nat
  = (getCharacters ["A"; "B"; "A"]%char empty_factory).1 !! 2%nat.
Proof.
  destruct ((getCharacters ["A"; "B"; "A"]%char empty_factory).1 !! 0%nat)
    as [p0|] eqn:H0; [|vm_compute in H0; discriminate].
  destruct ((getCharacters ["A"; "B"; "A"]%char empty_factory).1 !! 2%nat)
    as [p2|] eqn:H2; [|vm_compute in H2; discriminate].
  f_equal.
  apply (flyweight_same_pointer_iff_same_char empty_factory
           ["A"; "B"; "A"]%char 0 2 "A" "A" p0 p2 reachable_empty
           eq_refl eq_refl H0 H2).
  reflexivity.
Defined.

Lemma delete_entries_spec entries : forall objs,
  NoDup entries.*2 ->
  (nullptr ∉ entries.*2) ->
  (forall e, e ∈ entries -> is_Some (objs !! e.2)) ->
  exists objs', delete_entries entries objs = Some objs'
                /\ forall q, objs' !! q
                             = if decide (q ∈ entries.*2) then None else objs !! q.
Proof.
  induction entries as [|[c p] entries IH]; intros objs Hnd Hnull Hall.
  - exists objs. split; [done|]. intros q.
    destruct (decide (q ∈ [].*2)) as [Hin|]; [|done].
    by apply elem_of_nil in Hin.
  - rewrite fmap_cons in Hnd, Hnull. cbn [snd] in Hnd, Hnull.
    apply NoDup_cons in Hnd as [Hp Hnd].
    apply not_elem_of_cons in Hnull as [Hpn Hnull].
    cbn [delete_entries snd]. unfold delete_object.
    destruct (decide (p = nullptr)) as [->|_]; [done|].
    destruct (Hall (c, p)) as [obj Hobj]; [apply elem_of_cons; by left|].
    simpl in Hobj. rewrite Hobj.
    destruct (IH (delete p objs) Hnd Hnull) as (objs' & Hrun & Hlook).
    { intros e He. rewrite lookup_delete_ne.
      - apply Hall. apply elem_of_cons. by right.
      - intros ->. apply Hp. apply list_elem_of_fmap. by exists e. }
    exists objs'. split; [exact Hrun|]. intros q. rewrite Hlook.
    rewrite fmap_cons. cbn [snd].
    destruct (decide (q ∈ entries.*2)) as [Hin|Hnin].
    + rewrite decide_True; [done|]. apply elem_of_cons. by right.
    + destruct (decide (q = p)) as [->|Hne].
      * rewrite decide_True by (apply elem_of_cons; by left).
        apply lookup_delete_eq.
      * rewrite decide_False by (rewrite elem_of_cons; tauto).
        by apply lookup_delete_ne.
Qed.

(** X7: the destructor of a factory deletes every flyweight exactly
    once, in whatever order it goes through the pool: no [delete] meets
    a pointer that was deleted before, and no object is left. *)
Theorem flyweight_destructor_frees_all
    (f : FlyweightFactory) (entries : list (ascii * ptr)) :
  reachable f ->
  entries ≡ₚ map_to_list (characterPool f) ->
  delete_entries entries (allocated f) = Some ∅.
Proof.
  intros Hf Hperm. destruct (reachable_inv f Hf) as [Hk Ho Hn].
  assert (Hentry : forall c p, (c, p) ∈ entries <-> characterPool f !! c = Some p).
  { intros c p. rewrite Hperm. apply elem_of_map_to_list. }
  destruct (delete_entries_spec entries (allocated f)) as (objs' & Hrun & Hlook).
  - apply NoDup_fmap_2_strong.
    + intros [c p] [c' p'] Hin Hin' Heq. simpl in Heq. subst p'.
      apply Hentry, Hk in Hin. apply Hentry, Hk in Hin'.
      rewrite Hin in Hin'. by injection Hin' as ->.
    + rewrite Hperm. apply NoDup_map_to_list.
  - intros Hin. apply list_elem_of_fmap in Hin as ([c p] & Hp & Hin).
    simpl in Hp. subst p. apply Hentry, Hk in Hin. congruence.
  - intros [c p] Hin. simpl. apply Hentry, Hk in Hin. eauto.
  - rewrite Hrun. f_equal. apply map_eq. intros q.
    rewrite Hlook, lookup_empty.
    destruct (decide (q ∈ entries.*2)) as [|Hnin]; [done|].
    destruct (allocated f !! q) as [obj|] eqn:Hq; [|done].
    exfalso. apply Hnin. apply list_elem_of_fmap.
    exists (character obj, q). split; [done|]. by apply Hentry, Ho.
Qed.

Lemma flyweight_destructor_witness :
  delete_entries
    (map_to_list (characterPool (getCharacters ["A"; "B"; "A"]%char empty_factory).2))
    (allocated (getCharacters ["A"; "B"; "A"]%char empty_factory).2)
  = Some ∅.
Proof.
  apply flyweight_destructor_frees_all.
  - apply getCharacters_reachable, reachable_empty.
  - reflexivity.
Defined.

(** X8: a request followed by [display] always finds an object
    behind the pointer, and the line printed names the char that was
    asked for and the position that was passed. *)
Theorem flyweight_display_shows_requested_char
    (f : FlyweightFactory) (c : ascii) (x y : Z) (out : string) :
  reachable f ->
  get_and_display c x y (f, out)
  = Some ((getCharacter c f).2, out +:+ display_line c x y).
Proof.
  intros Hf. unfold get_and_display.
  pose proof (getCharacter_pool c f) as Hpool.
  pose proof (reachable_inv _ (reachable_get c f Hf)) as [Hk _ _].
  destruct (getCharacter c f) as [p f1]. simpl in *.
  apply Hk in Hpool. unfold display. by rewrite Hpool.
Qed.

Lemma flyweight_display_witness :
  get_and_display "A" 1 1 (empty_factory, "")
  = Some ((getCharacter "A" empty_factory).2, "" +:+ display_line "A" 1 1).
Proof.
  apply flyweight_display_shows_requested_char. apply reachable_empty.
Defined.

End Flyweight.

(** ** Design Pattern/Behavioral/Observer: the weather station *)

Module Observer.

(** An [Observer*]: the address of an observer object. *)
Definition ptr : Type := N.

(** [WeatherStation]. *)
Record WeatherStation : Type := {
  observers : list ptr;
  weatherData : string
}.

(** [WeatherStation weatherStation;] *)
Definition new_station : WeatherStation :=
  {| observers := []; weatherData := "" |}.

(** One call [observer->update(weatherData)]: the receiver and the
    argument. *)
Definition update_call : Type := (ptr * string)%type.

(** [attach]: [observers.push_back(observer)]. *)
Definition attach (observer : ptr) (ws : WeatherStation) : WeatherStation :=
  {| observers := observers ws ++ [observer]; weatherData := weatherData ws |}.

(** [std::remove(first, last, value)] followed by [erase] to the end:
    the elements different from [value], in their order. *)
Fixpoint remove_erase (value : ptr) (v : list ptr) : list ptr :=
  match v with
  | [] => []
  | x :: rest =>
      if N.eqb x value then remove_erase value rest
      else x :: remove_erase value rest
  end.

(** [detach]. *)
Definition detach (observer : ptr) (ws : WeatherStation) : WeatherStation :=
  {| observers := remove_erase observer (observers ws);
     weatherData := weatherData ws |}.

(** [notify]: the calls of [update] it makes, in order. *)
Fixpoint notify_loop (obs : list ptr) (data : string) : list update_call :=
  match obs with
  | [] => []
  | observer :: rest => (observer, data) :: notify_loop rest data
  end.

Definition notify (ws : WeatherStation) : list update_call :=
  notify_loop (observers ws) (weatherData ws).

(** [setWeatherData]: the station afterwards and the calls made. *)
Definition setWeatherData (data : string) (ws : WeatherStation)
  : WeatherStation * list update_call :=
  let ws := {| observers := observers ws; weatherData := data |} in
  (ws, notify ws).

(** The public operations of a station, and a program as a sequence of
    them. *)
Inductive operation : Type :=
| Attach (observer : ptr)
| Detach (observer : ptr)
| Notify
| SetWeatherData (data : string).

Definition perform (op : operation) (ws : WeatherStation)
  : WeatherStation * list update_call :=
  match op with
  | Attach o => (attach o ws, [])
  | Detach o => (detach o ws, [])
  | Notify => (ws, notify ws)
  | SetWeatherData data => setWeatherData data ws
  end.

Fixpoint run (ops : list operation) (ws : WeatherStation)
  : WeatherStation * list update_call :=
  match ops with
  | [] => (ws, [])
  | op :: rest =>
      let '(ws, calls) := perform op ws in
      let '(ws, calls') := run rest ws in
      (ws, calls ++ calls')
  end.

(** How many of the calls have [o] as receiver. *)
Definition updates_of (o : ptr) (calls : list update_call) : nat :=
  length (filter (fun call => call.1 = o) calls).

(** How many times [o] is in the observer list. *)
Definition attached_times (o : ptr) (ws : WeatherStation) : nat :=
  length (filter (fun x => x = o) (observers ws)).

(** [WeatherDisplay::update], the display's name being given. *)
Definition display_update (displayName weatherData : string) : string :=
  displayName +:+ " updated with weather data: " +:+ weatherData +:+ endl.

(** The client [main]: display1 and display2 are the observers at
    addresses 1 and 2. *)
Definition display1 : ptr := 1%N.
Definition display2 : ptr := 2%N.

Definition displayName (o : ptr) : string :=
  if N.eqb o display1 then "Display 1" else "Display 2".

Definition main_operations : list operation :=
  [ Attach display1; Attach display2;
    SetWeatherData "Temperature: 22°C, Humidity: 60%";
    Detach display1;
    SetWeatherData "Temperature: 24°C, Humidity: 55%" ].

Fixpoint print_calls (calls : list update_call) (out : string) : string :=
  match calls with
  | [] => out
  | (o, data) :: rest => print_calls rest (out +:+ display_update (displayName o) data)
  end.

Definition main : string :=
  print_calls (run main_operations new_station).2 "".

Definition documented_output : string :=
  "Display 1 updated with weather data: Temperature: 22°C, Humidity: 60%" +:+ endl +:+
  "Display 2 updated with weather data: Temperature: 22°C, Humidity: 60%" +:+ endl +:+
  "Display 2 updated with weather data: Temperature: 24°C, Humidity: 55%" +:+ endl.

(** No operation of the sequence attaches [o]. *)
Definition never_attaches (o : ptr) (ops : list operation) : Prop :=
  Forall (fun op => op ≠ Attach o) ops.

Lemma observer_main_output : main = documented_output.
Proof. vm_compute. reflexivity. Qed.

Lemma notify_loop_map obs data :
  notify_loop obs data = map (fun o => (o, data)) obs.
Proof. induction obs as [|o obs IH]; simpl; [done | by rewrite IH]. Qed.

Lemma updates_of_app o calls calls' :
  updates_of o (calls ++ calls') = (updates_of o calls + updates_of o calls')%nat.
Proof. unfold updates_of. by rewrite filter_app, length_app. Qed.

Lemma updates_of_notify_loop o obs data :
  updates_of o (notify_loop obs data) = length (filter (fun x => x = o) obs).
Proof.
  unfold updates_of. induction obs as [|x obs IH]; [done|].
  cbn [notify_loop]. rewrite !filter_cons. cbn [fst].
  destruct (decide (x = o)); cbn [length]; [f_equal|]; exact IH.
Qed.

Lemma count_absent (o : ptr) (obs : list ptr) :
  (o ∉ obs) -> length (filter (fun x => x = o) obs) = 0%nat.
Proof.
  induction obs as [|x obs IH]; intros Hnot; [done|].
  rewrite filter_cons. apply not_elem_of_cons in Hnot as [Hne Hnot].
  destruct (decide (x = o)); [congruence | by apply IH].
Qed.

Lemma count_nodup (o : ptr) (obs : list ptr) :
  NoDup obs -> o ∈ obs -> length (filter (fun x => x = o) obs) = 1%nat.
Proof.
  induction 1 as [|x obs Hx Hnd IH]; intros Hin; [by apply elem_of_nil in Hin|].
  rewrite filter_cons. destruct (decide (x = o)) as [->|Hne]; simpl.
  - by rewrite count_absent.
  - apply elem_of_cons in Hin as [->|Hin]; [done | by apply IH].
Qed.

Lemma elem_of_remove_erase x value obs :
  x ∈ remove_erase value obs <-> x ∈ obs /\ x ≠ value.
Proof.
  induction obs as [|y obs IH]; simpl.
  - split; [intros H; by apply elem_of_nil in H | intros [H _]; by apply elem_of_nil in H].
  - destruct (N.eqb_spec y value) as [->|Hne].
    + rewrite IH, elem_of_cons. intuition congruence.
    + rewrite !elem_of_cons, IH. intuition congruence.
Qed.

Lemma remove_erase_filter value obs :
  remove_erase value obs = filter (fun x => x ≠ value) obs.
Proof.
  induction obs as [|y obs IH]; simpl; [done|].
  rewrite filter_cons.
  destruct (N.eqb_spec y value) as [->|Hne].
  - destruct (decide (value ≠ value)); [done | exact IH].
  - destruct (decide (y ≠ value)); [by rewrite IH | done].
Qed.

Lemma run_without_attach o ops : forall ws,
  (o ∉ observers ws) ->
  never_attaches o ops ->
  (o ∉ observers (run ops ws).1) /\ updates_of o (run ops ws).2 = 0%nat.
Proof.
  induction ops as [|op ops IH]; intros ws Hnot Hops; simpl; [done|].
  apply Forall_cons in Hops as [Hop Hops].
  assert (Hstep : (o ∉ observers (perform op ws).1)
                  /\ updates_of o (perform op ws).2 = 0%nat).
  { destruct op as [o'|o'| |data]; simpl.
    - split; [|done]. rewrite elem_of_app, list_elem_of_singleton.
      intros [H| ->]; [done | by apply Hop].
    - split; [|done]. rewrite elem_of_remove_erase. tauto.
    - split; [done|]. unfold notify.
      by rewrite updates_of_notify_loop, count_absent.
    - split; [done|]. unfold notify. simpl.
      by rewrite updates_of_notify_loop, count_absent. }
  destruct (perform op ws) as [ws1 calls1]. simpl in Hstep.
  destruct Hstep as [Hnot1 Hcalls1].
  specialize (IH ws1 Hnot1 Hops).
  destruct (run ops ws1) as [ws2 calls2]. simpl in *.
  split; [tauto|]. rewrite updates_of_app. lia.
Qed.

Lemma run_attach_all os : forall ws,
  observers (run (map Attach os) ws).1 = observers ws ++ os.
Proof.
  induction os as [|o os IH]; intros ws; simpl; [by rewrite app_nil_r|].
  specialize (IH (attach o ws)).
  destruct (run (map Attach os) (attach o ws)) as [ws' calls]. simpl in *.
  rewrite IH. by rewrite <- app_assoc.
Qed.

(** C10, counterexample: [attach] keeps no set, so an observer attached
    twice is in the list twice and one [notify] updates it twice; and an
    observer attached again after its [detach] is updated again. *)
Lemma observer_attached_twice_updated_twice :
  display1 ∈ observers (attach display1 (attach display1 new_station))
  /\ notify (attach display1 (attach display1 new_station))
     = [(display1, ""); (display1, "")]
  /\ updates_of display1 (notify (attach display1 (attach display1 new_station))) = 2%nat
  /\ notify (attach display1 (detach display1 (attach display1 new_station)))
     = [(display1, "")].
Proof.
  split; [|split; [|split]]; try (vm_compute; reflexivity).
  simpl. set_solver.
Qed.

(** C10, as the code has it: every [notify], also the one inside
    [setWeatherData], calls [update] once per entry of the observer
    list, in list order, passing the current weather data; the list is
    the attach order with the detached observers taken out; an observer
    is updated as many times as it is in the list, which is exactly once
    when no observer is in it twice; and after [detach(o)] no [notify]
    calls [o->update] as long as [o] is not attached again. *)
Theorem observer_notify_and_detach :
  (forall ws, notify ws = map (fun o => (o, weatherData ws)) (observers ws))
  /\ (forall ws data,
        (setWeatherData data ws).2 = map (fun o => (o, data)) (observers ws)
        /\ weatherData (setWeatherData data ws).1 = data)
  /\ (forall os, observers (run (map Attach os) new_station).1 = os)
  /\ (forall ws o,
        observers (detach o ws) = filter (fun x => x ≠ o) (observers ws))
  /\ (forall ws o, updates_of o (notify ws) = attached_times o ws)
  /\ (forall ws o, NoDup (observers ws) -> o ∈ observers ws ->
        updates_of o (notify ws) = 1%nat)
  /\ (forall ws o ops, never_attaches o ops ->
        updates_of o (run ops (detach o ws)).2 = 0%nat)
  /\ main = documented_output.
Proof.
  split; [intros ws; apply notify_loop_map|].
  split.
  { intros ws data. split; [|done]. unfold setWeatherData, notify. simpl.
    apply notify_loop_map. }
  split; [intros os; by rewrite run_attach_all|].
  split; [intros ws o; apply remove_erase_filter|].
  split; [intros ws o; apply updates_of_notify_loop|].
  split.
  { intros ws o Hnd Hin. unfold notify.
    rewrite updates_of_notify_loop. by apply count_nodup. }
  split; [|apply observer_main_output].
  intros ws o ops Hops.
  apply run_without_attach; [|done].
  simpl. rewrite elem_of_remove_erase. tauto.
Qed.

(** C10 read on the client's station: display2 stays attached and is
    updated once; display1, detached, is not updated by what follows. *)
Lemma observer_notify_witness :
  updates_of display2
    (notify (detach display1 (attach display2 (attach display1 new_station)))) = 1%nat
  /\ updates_of display1
       (run [SetWeatherData "x"; Notify]
            (detach display1 (attach display2 (attach display1 new_station)))).2 = 0%nat.
Proof.
  destruct observer_notify_and_detach as (_ & _ & _ & _ & _ & Honce & Hdet & _).
  split.
  - apply Honce; vm_compute.
    + apply NoDup_cons. split; [apply not_elem_of_nil | apply NoDup_nil_2].
    + apply elem_of_cons; by left.
  - apply Hdet. unfold never_attaches. repeat constructor; discriminate.
Defined.

Lemma remove_erase_absent o obs : (o ∉ obs) -> remove_erase o obs = obs.
Proof.
  induction obs as [|x obs IH]; intros Hnot; simpl; [done|].
  apply not_elem_of_cons in Hnot as [Hne Hnot].
  destruct (N.eqb_spec x o) as [->|_]; [done|]. by rewrite IH.
Qed.

Lemma remove_erase_app o obs obs' :
  remove_erase o (obs ++ obs') = remove_erase o obs ++ remove_erase o obs'.
Proof.
  induction obs as [|x obs IH]; simpl; [done|].
  destruct (N.eqb x o); simpl; by rewrite IH.
Qed.

Lemma run_app ops : forall ops' ws,
  run (ops ++ ops') ws
  = ((run ops' (run ops ws).1).1, (run ops ws).2 ++ (run ops' (run ops ws).1).2).
Proof.
  induction ops as [|op ops IH]; intros ops' ws; simpl.
  - by destruct (run ops' ws).
  - destruct (perform op ws) as [ws1 calls1]. rewrite IH.
    destruct (run ops ws1) as [ws2 calls2]. simpl.
    destruct (run ops' ws2) as [ws3 calls3]. simpl. by rewrite app_assoc.
Qed.

(** X9: detaching an observer that is not attached changes nothing,
    so attaching an observer and detaching it again gives the station
    back as it was; detaching twice is the same as detaching once. *)
Theorem observer_detach_absent_is_noop (ws : WeatherStation) (o : ptr) :
  (o ∉ observers ws) ->
  detach o ws = ws
  /\ detach o (attach o ws) = ws
  /\ detach o (detach o (attach o ws)) = ws.
Proof.
  intros Hnot.
  assert (H1 : detach o ws = ws).
  { unfold detach. rewrite remove_erase_absent by done. by destruct ws. }
  assert (H2 : detach o (attach o ws) = ws).
  { unfold detach, attach. simpl. rewrite remove_erase_app. simpl.
    rewrite N.eqb_refl, app_nil_r, remove_erase_absent by done. by destruct ws. }
  split; [exact H1|]. split; [exact H2|]. by rewrite H2.
Qed.

Lemma observer_detach_absent_witness :
  detach display1 (attach display1 new_station) = new_station.
Proof.
  apply (observer_detach_absent_is_noop new_station display1).
  apply not_elem_of_nil.
Defined.

Lemma notify_loop_remove_erase o obs data :
  notify_loop (remove_erase o obs) data
  = filter (fun call : update_call => call.1 ≠ o) (notify_loop obs data).
Proof.
  induction obs as [|x obs IH]; [done|].
  cbn [remove_erase notify_loop]. rewrite filter_cons. cbn [fst].
  destruct (N.eqb_spec x o) as [->|Hne].
  - destruct (decide (o ≠ o)); [done | exact IH].
  - destruct (decide (x ≠ o)); [|done]. cbn [notify_loop]. f_equal. exact IH.
Qed.

(** X10: [detach(o)] takes exactly the calls to [o] out of what
    [notify] does: the other observers are still updated, as often as
    before and in the same order, and the weather data is untouched. *)
Theorem observer_detach_keeps_others (ws : WeatherStation) (o : ptr) :
  notify (detach o ws) = filter (fun call => call.1 ≠ o) (notify ws)
  /\ (forall o', o' ≠ o ->
        updates_of o' (notify (detach o ws)) = updates_of o' (notify ws))
  /\ weatherData (detach o ws) = weatherData ws.
Proof.
  assert (Hfilter : notify (detach o ws)
                    = filter (fun call => call.1 ≠ o) (notify ws)).
  { unfold notify, detach. simpl. apply notify_loop_remove_erase. }
  split; [exact Hfilter|]. split; [|done].
  intros o' Hne. unfold notify, detach. simpl.
  rewrite !updates_of_notify_loop, remove_erase_filter.
  induction (observers ws) as [|x obs IH]; [done|].
  rewrite !filter_cons.
  destruct (decide (x ≠ o)) as [Hx|Hx].
  - rewrite filter_cons. destruct (decide (x = o')); simpl; by rewrite IH.
  - destruct (decide (x = o')) as [->|]; [|exact IH].
    exfalso. apply Hx. done.
Qed.

Lemma observer_detach_keeps_others_witness :
  updates_of display2
    (notify (detach display1 (attach display2 (attach display1 new_station))))
  = updates_of display2 (notify (attach display2 (attach display1 new_station))).
Proof.
  apply (proj1 (proj2 (observer_detach_keeps_others
                         (attach display2 (attach display1 new_station))
                         display1))).
  discriminate.
Defined.

(** X11: a program run in two parts is the run of the whole: the calls
    of the second part are those it makes from the station the first
    part leaves.  And [update] is never passed anything but the data
    the station started with or the data of a [setWeatherData] of the
    run. *)
Theorem observer_run_composes (ops ops' : list operation) (ws : WeatherStation) :
  (run (ops ++ ops') ws).1 = (run ops' (run ops ws).1).1
  /\ (run (ops ++ ops') ws).2 = (run ops ws).2 ++ (run ops' (run ops ws).1).2
  /\ (forall call, call ∈ (run ops ws).2 ->
        call.2 = weatherData ws \/ SetWeatherData call.2 ∈ ops).
Proof.
  rewrite run_app. split; [done|]. split; [done|].
  clear ops'. revert ws.
  induction ops as [|op ops IH]; intros ws call; simpl.
  - intros Hin. by apply elem_of_nil in Hin.
  - assert (Hstep : (forall c, c ∈ (perform op ws).2 ->
                       c.2 = weatherData ws \/ SetWeatherData c.2 = op)
                    /\ (weatherData (perform op ws).1 = weatherData ws
                        \/ SetWeatherData (weatherData (perform op ws).1) = op)).
    { destruct op as [o|o| |data]; simpl.
      - split; [intros c Hc; by apply elem_of_nil in Hc | by left].
      - split; [intros c Hc; by apply elem_of_nil in Hc | by left].
      - split; [|by left]. intros c. unfold notify. rewrite notify_loop_map.
        intros Hc. apply list_elem_of_fmap in Hc as (x & -> & _). by left.
      - split; [|by right]. intros c. unfold notify. simpl.
        rewrite notify_loop_map.
        intros Hc. apply list_elem_of_fmap in Hc as (x & -> & _). by right. }
    destruct (perform op ws) as [ws1 calls1]. simpl in Hstep.
    destruct Hstep as [Hcalls Hdata].
    specialize (IH ws1 call).
    destruct (run ops ws1) as [ws2 calls2]. simpl in *.
    rewrite elem_of_app. intros [Hin|Hin].
    + destruct (Hcalls call Hin) as [?|Heq]; [by left|].
      right. rewrite Heq. apply elem_of_cons. by left.
    + destruct (IH Hin) as [Heq|Hset].
      * destruct Hdata as [Hd|Hd].
        -- left. congruence.
        -- right. rewrite Heq, Hd. apply elem_of_cons. by left.
      * right. apply elem_of_cons. by right.
Qed.

Lemma observer_run_composes_witness :
  (run [Attach display1; SetWeatherData "a"] new_station).2
  ++ (run [Notify] (run [Attach display1; SetWeatherData "a"] new_station).1).2
  = [(display1, "a"); (display1, "a")].
Proof.
  rewrite <- (proj1 (proj2 (observer_run_composes
                              [Attach display1; SetWeatherData "a"] [Notify]
                              new_station))).
  vm_compute. reflexivity.
Defined.

End Observer.

(** ** code/map/Custom_Map_Operation_Using_a_Functor.cpp, second
       program: the command-line calculator *)

Module Calculator.

(** The exceptions the program meets, all derived from
    [std::exception]; [what] is [e.what()]. *)
Inductive exception : Type :=
| invalid_argument (what_arg : string)
| out_of_range (what_arg : string).

Definition what (e : exception) : string :=
  match e with
  | invalid_argument what_arg => what_arg
  | out_of_range what_arg => what_arg
  end.

(** A call either returns a value or throws. *)
Inductive result (A : Type) : Type :=
| Returns (a : A)
| Throws (e : exception).
Arguments Returns {A} a.
Arguments Throws {A} e.

(** [calculate].  A [double] is a binary64 float; [num2 == 0] is the
    IEEE comparison, true of both zeros and false of NaN. *)
Definition calculate (num1 num2 : float) (op : string) : result float :=
  if String.eqb op "+" then Returns (num1 + num2)%float
  else if String.eqb op "-" then Returns (num1 - num2)%float
  else if String.eqb op "*" then Returns (num1 * num2)%float
  else if String.eqb op "/" then
    if PrimFloat.eqb num2 0%float
    then Throws (invalid_argument "Error: Division by zero is not allowed.")
    else Returns (num1 / num2)%float
  else Throws (invalid_argument "Error: Invalid operator.Support are +, -, *, /").

(** How a run of [main] ends. *)
Inductive termination : Type :=
| Exit (code : Z)
| UndefinedBehaviour.

(** What a run of [main] does: the text written to [std::cerr] and to
    [std::cout], the indices at which [argv] was read, in order, and how
    the run ends. *)
Record run : Type := {
  cerr : string;
  cout : string;
  accessed : list nat;
  status : termination
}.

(** The statements of the [try] block: each one completes, throws, or
    has no defined behaviour; the [argv] indices read are logged. *)
Inductive try_result (A : Type) : Type :=
| Done (a : A)
| Thrown (e : exception)
| Undefined.
Arguments Done {A} a.
Arguments Thrown {A} e.
Arguments Undefined {A}.

Definition try_block (A : Type) : Type := list nat -> list nat * try_result A.

#[local] Instance try_ret : MRet try_block := fun A a log => (log, Done a).

#[local] Instance try_bind : MBind try_block := fun A B k m log =>
  match m log with
  | (log, Done a) => k a log
  | (log, Thrown e) => (log, Thrown e)
  | (log, Undefined) => (log, Undefined)
  end.

(** [argv[i]] used as a C string.  [argv] holds [argc] strings and a
    null pointer after them; building a [std::string] from the null
    pointer, or reading past it, has no defined behaviour. *)
Definition argv_at (argv : list string) (i : nat) : try_block string :=
  fun log =>
    (log ++ [i], match argv !! i with Some arg => Done arg | None => Undefined end).

Definition call {A : Type} (r : result A) : try_block A :=
  fun log => (log, match r with Returns a => Done a | Throws e => Thrown e end).

Definition usage : string :=
  "Usage: calculator <num1> <operator> <num2>" +:+ endl.

Section Main.

(** [std::stod] and [operator<<] on a [double] belong to the C++
    library; [main] is embedded over any pair of them. *)
Variable stod : string -> result float.
Variable show_double : float -> string.

(** The body of the [try] block; its value is the text it writes to
    [std::cout]. *)
Definition try_body (argv : list string) : try_block string :=
  arg1 ← argv_at argv 1;
  num1 ← call (stod arg1);
  op ← argv_at argv 2;
  arg3 ← argv_at argv 3;
  num2 ← call (stod arg3);
  result ← call (calculate num1 num2 op);
  mret ("Result: " +:+ show_double result +:+ endl).

(** [main], [argc] being the length of [argv]. *)
Definition main (argv : list string) : run :=
  let argc := length argv in
  let err := if decide (argc ≠ 4%nat) then usage else "" in
  match try_body argv [] with
  | (log, Done text) =>
      {| cerr := err; cout := text; accessed := log; status := Exit 0 |}
  | (log, Thrown e) =>
      {| cerr := err +:+ what e +:+ endl; cout := ""; accessed := log;
         status := Exit 0 |}
  | (log, Undefined) =>
      {| cerr := err; cout := ""; accessed := log; status := UndefinedBehaviour |}
  end.

End Main.

(** [std::stod] on the strings the examples below pass to it: "6", "3"
    and "0" are numbers, "abc" is none, for which [std::stod] throws
    [std::invalid_argument] (libstdc++ makes "stod" its message).  The
    table treats every other string like "abc"; no example uses one. *)
Definition stod_examples (str : string) : result float :=
  if String.eqb str "6" then Returns 6%float
  else if String.eqb str "3" then Returns 3%float
  else if String.eqb str "0" then Returns 0%float
  else Throws (invalid_argument "stod").

(** [operator<<] on the doubles the examples print. *)
Definition show_double_examples (d : float) : string :=
  if PrimFloat.eqb d 2%float then "2" else "?".

Definition operators : list string := ["+"; "-"; "*"; "/"].

(** C2: [calculate] throws exactly on a division by zero and on an
    unknown operator, [std::invalid_argument] both times, and returns
    the arithmetic result otherwise. *)
Theorem calculate_raises_iff (num1 num2 : float) :
  (PrimFloat.eqb num2 0%float = true ->
     calculate num1 num2 "/"
     = Throws (invalid_argument "Error: Division by zero is not allowed."))
  /\ (PrimFloat.eqb num2 0%float = false ->
        calculate num1 num2 "/" = Returns (num1 / num2)%float)
  /\ calculate num1 num2 "+" = Returns (num1 + num2)%float
  /\ calculate num1 num2 "-" = Returns (num1 - num2)%float
  /\ calculate num1 num2 "*" = Returns (num1 * num2)%float
  /\ (forall op, (op ∉ operators) ->
        calculate num1 num2 op
        = Throws (invalid_argument "Error: Invalid operator.Support are +, -, *, /"))
  /\ (forall op,
        (exists e, calculate num1 num2 op = Throws e)
        <-> (op = "/" /\ PrimFloat.eqb num2 0%float = true) \/ (op ∉ operators))
  /\ (forall op e, calculate num1 num2 op = Throws e ->
        exists what_arg, e = invalid_argument what_arg).
Proof.
  assert (Hother : forall op, (op ∉ operators) ->
            calculate num1 num2 op
            = Throws (invalid_argument "Error: Invalid operator.Support are +, -, *, /")).
  { intros op Hop. unfold operators in Hop.
    rewrite !not_elem_of_cons in Hop. destruct Hop as (H1 & H2 & H3 & H4 & _).
    unfold calculate.
    destruct (String.eqb_spec op "+"); [done|].
    destruct (String.eqb_spec op "-"); [done|].
    destruct (String.eqb_spec op "*"); [done|].
    destruct (String.eqb_spec op "/"); [done|]. reflexivity. }
  split; [intros Hz; unfold calculate; simpl; by rewrite Hz|].
  split; [intros Hz; unfold calculate; simpl; by rewrite Hz|].
  do 3 (split; [reflexivity|]).
  split; [exact Hother|].
  split.
  - intros op. split.
    + intros [e He]. unfold calculate in He.
      destruct (String.eqb_spec op "+"); [done|].
      destruct (String.eqb_spec op "-"); [done|].
      destruct (String.eqb_spec op "*"); [done|].
      destruct (String.eqb_spec op "/") as [->|Hdiv].
      * left. split; [done|]. by destruct (PrimFloat.eqb num2 0%float).
      * right. unfold operators. rewrite !not_elem_of_cons.
        repeat split; try done. apply not_elem_of_nil.
    + intros [[-> Hz]|Hop].
      * eexists. unfold calculate. simpl. by rewrite Hz.
      * eexists. by apply Hother.
  - intros op e He. unfold calculate in He.
    repeat match type of He with
           | (if ?b then _ else _) = _ => destruct b
           end; simplify_eq; eauto.
Qed.

(** C2 read at 6 / 0, 6 / 3 and the operator "%". *)
Lemma calculate_witness :
  calculate 6%float 0%float "/"
  = Throws (invalid_argument "Error: Division by zero is not allowed.")
  /\ calculate 6%float 3%float "/" = Returns 2%float
  /\ calculate 6%float 3%float "%"
     = Throws (invalid_argument "Error: Invalid operator.Support are +, -, *, /").
Proof.
  split; [|split].
  - apply (proj1 (calculate_raises_iff 6%float 0%float)). reflexivity.
  - apply (proj1 (proj2 (calculate_raises_iff 6%float 3%float))). reflexivity.
  - destruct (calculate_raises_iff 6%float 3%float) as (_ & _ & _ & _ & _ & H & _).
    apply H. unfold operators. rewrite !not_elem_of_cons.
    repeat split; try discriminate. apply not_elem_of_nil.
Defined.

Lemma main_unfold stod show_double argv :
  main stod show_double argv
  = let err := if decide (length argv ≠ 4%nat) then usage else "" in
    match argv !! 1%nat with
    | None => {| cerr := err; cout := ""; accessed := [1%nat];
                 status := UndefinedBehaviour |}
    | Some arg1 =>
        match stod arg1 with
        | Throws e => {| cerr := err +:+ what e +:+ endl; cout := "";
                         accessed := [1%nat]; status := Exit 0 |}
        | Returns num1 =>
            match argv !! 2%nat with
            | None => {| cerr := err; cout := ""; accessed := [1%nat; 2%nat];
                         status := UndefinedBehaviour |}
            | Some op =>
                match argv !! 3%nat with
                | None => {| cerr := err; cout := "";
                             accessed := [1%nat; 2%nat; 3%nat];
                             status := UndefinedBehaviour |}
                | Some arg3 =>
                    match stod arg3 with
                    | Throws e => {| cerr := err +:+ what e +:+ endl; cout := "";
                                     accessed := [1%nat; 2%nat; 3%nat];
                                     status := Exit 0 |}
                    | Returns num2 =>
                        match calculate num1 num2 op with
                        | Throws e =>
                            {| cerr := err +:+ what e +:+ endl; cout := "";
                               accessed := [1%nat; 2%nat; 3%nat]; status := Exit 0 |}
                        | Returns result =>
                            {| cerr := err;
                               cout := "Result: " +:+ show_double result +:+ endl;
                               accessed := [1%nat; 2%nat; 3%nat]; status := Exit 0 |}
                        end
                    end
                end
            end
        end
    end.
Proof.
  unfold main, try_body, mbind, try_bind, mret, try_ret, argv_at, call. simpl.
  destruct (argv !! 1%nat) as [arg1|]; [|done].
  destruct (stod arg1) as [num1|e]; [|done].
  destruct (argv !! 2%nat) as [op|]; [|done].
  destruct (argv !! 3%nat) as [arg3|]; [|done].
  destruct (stod arg3) as [num2|e]; [|done].
  by destruct (calculate num1 num2 op).
Qed.

(** C3, counterexample: run without arguments, [argv[1]] is the null
    pointer that ends [argv] and nothing after it is read; run with the
    one argument "abc", [std::stod] throws on [argv[1]], the handler
    prints the message and [main] returns 0 without reading [argv[2]]
    or [argv[3]]. *)
Lemma calculator_stops_before_later_arguments :
  accessed (main stod_examples show_double_examples ["calculator"]) = [1%nat]
  /\ status (main stod_examples show_double_examples ["calculator"])
     = UndefinedBehaviour
  /\ accessed (main stod_examples show_double_examples ["calculator"; "abc"])
     = [1%nat]
  /\ status (main stod_examples show_double_examples ["calculator"; "abc"]) = Exit 0
  /\ cerr (main stod_examples show_double_examples ["calculator"; "abc"])
     = usage +:+ "stod" +:+ endl.
Proof. repeat split; vm_compute; reflexivity. Qed.

(** C3, as the code has it: with [argc != 4] the usage line is written
    to [std::cerr] and [main] goes on into the [try] block all the same.
    [argv[1]] is always read; [argv[2]] and [argv[3]] are read as long as
    what comes before them in the block completes (the pointer read was
    an argument and [std::stod] did not throw).  The check therefore
    prevents no invalid access: with fewer than four entries the run
    either ends in a caught [std::stod] exception or reads an [argv]
    entry that is no argument. *)
Theorem calculator_usage_check_falls_through
    (stod : string -> result float) (show_double : float -> string)
    (argv : list string) :
  length argv ≠ 4%nat ->
  let r := main stod show_double argv in
  (exists rest, cerr r = usage +:+ rest)
  /\ accessed r = (try_body stod show_double argv []).1
  /\ (exists more, accessed r = 1%nat :: more)
  /\ (accessed r = [1%nat] \/ accessed r = [1%nat; 2%nat]
      \/ accessed r = [1%nat; 2%nat; 3%nat])
  /\ (forall arg1 num1, argv !! 1%nat = Some arg1 -> stod arg1 = Returns num1 ->
        In 2%nat (accessed r)
        /\ (is_Some (argv !! 2%nat) -> In 3%nat (accessed r)))
  /\ ((length argv < 4)%nat ->
        (status r = UndefinedBehaviour
         /\ exists i, last (accessed r) = Some i /\ argv !! i = None
                      /\ (length argv <= i)%nat)
        \/ (exists arg1 e, argv !! 1%nat = Some arg1 /\ stod arg1 = Throws e
                           /\ status r = Exit 0
                           /\ cerr r = usage +:+ what e +:+ endl)).
Proof.
  intros Hargc r.
  assert (Hlog : accessed r = (try_body stod show_double argv []).1).
  { subst r. unfold main.
    by destruct (try_body stod show_double argv []) as [log [text|e|]]. }
  split; [|split; [exact Hlog|]]; clear Hlog; subst r;
    rewrite main_unfold; cbn zeta;
    destruct (decide (length argv ≠ 4%nat)) as [_|]; try done.
  - destruct (argv !! 1%nat) as [arg1|]; [|by eexists].
    destruct (stod arg1) as [num1|e]; [|by eexists].
    destruct (argv !! 2%nat) as [op|]; [|by eexists].
    destruct (argv !! 3%nat) as [arg3|]; [|by eexists].
    destruct (stod arg3) as [num2|e]; [|by eexists].
    destruct (calculate num1 num2 op); simpl; eexists;
      try reflexivity.
  - destruct (argv !! 1%nat) as [arg1|] eqn:H1.
    2:{ simpl. split; [by eexists|]. split; [by left|].
        split; [intros ? ? [=]|]. intros _. left. split; [done|].
        exists 1%nat. split; [done|]. split; [done|].
        by apply lookup_ge_None in H1. }
    destruct (stod arg1) as [num1|e] eqn:Hs1.
    2:{ simpl. split; [by eexists|]. split; [by left|].
        split; [intros ? ? [= <-]; congruence|]. intros _. right.
        by exists arg1, e. }
    destruct (argv !! 2%nat) as [op|] eqn:H2.
    2:{ simpl. split; [by eexists|]. split; [right; by left|].
        split.
        - intros _ _ _ _. split; [tauto|]. intros [? [=]].
        - intros _. left. split; [done|].
          exists 2%nat. split; [done|]. split; [done|].
          by apply lookup_ge_None in H2. }
    destruct (argv !! 3%nat) as [arg3|] eqn:H3.
    2:{ simpl. split; [by eexists|]. split; [tauto|].
        split; [intros _ _ _ _; simpl; tauto|].
        intros _. left. split; [done|].
        exists 3%nat. split; [done|]. split; [done|].
        by apply lookup_ge_None in H3. }
    assert (Hlen : (4 <= length argv)%nat).
    { apply lookup_lt_Some in H3. lia. }
    destruct (stod arg3) as [num2|e]; [destruct (calculate num1 num2 op)|];
      simpl; (split; [by eexists|]); (split; [tauto|]);
      (split; [intros _ _ _ _; simpl; tauto | intros; lia]).
Qed.

(** C3 read on the command line [calculator 6 /]: three entries, the
    usage line is printed and the run goes on to read [argv[3]], the
    null pointer. *)
Lemma calculator_fall_through_witness :
  length ["calculator"; "6"; "/"] ≠ 4%nat
  /\ (exists rest,
        cerr (main stod_examples show_double_examples ["calculator"; "6"; "/"])
        = usage +:+ rest)
  /\ accessed (main stod_examples show_double_examples ["calculator"; "6"; "/"])
     = [1%nat; 2%nat; 3%nat]
  /\ status (main stod_examples show_double_examples ["calculator"; "6"; "/"])
     = UndefinedBehaviour.
Proof.
  assert (Hargc : length ["calculator"; "6"; "/"] ≠ 4%nat) by (simpl; lia).
  split; [exact Hargc|].
  split; [|split; vm_compute; reflexivity].
  exact (proj1 (calculator_usage_check_falls_through
                  stod_examples show_double_examples
                  ["calculator"; "6"; "/"] Hargc)).
Defined.

(** A well-formed command line, for comparison. *)
Example calculator_six_by_three :
  main stod_examples show_double_examples ["calculator"; "6"; "/"; "3"]
  = {| cerr := ""; cout := "Result: 2" +:+ endl;
       accessed := [1%nat; 2%nat; 3%nat]; status := Exit 0 |}.
Proof. vm_compute. reflexivity. Qed.

(** X12: [main] never reports a failure through its exit status:
    whenever it returns, it returns 0, also after an exception.  A
    division by zero on a well-formed command line prints the error
    message to [std::cerr], prints no result, and exits with 0. *)
Theorem calculator_exit_status_is_always_zero
    (stod : string -> result float) (show_double : float -> string) :
  (forall argv code,
     status (main stod show_double argv) = Exit code -> code = 0)
  /\ (forall program arg1 arg3 num1 num2,
        stod arg1 = Returns num1 -> stod arg3 = Returns num2 ->
        PrimFloat.eqb num2 0%float = true ->
        main stod show_double [program; arg1; "/"; arg3]
        = {| cerr := "Error: Division by zero is not allowed." +:+ endl;
             cout := ""; accessed := [1%nat; 2%nat; 3%nat]; status := Exit 0 |}).
Proof.
  split.
  - intros argv code. rewrite main_unfold. cbn zeta.
    repeat match goal with
           | |- context [match ?x with _ => _ end] => destruct x
           end; simpl; congruence.
  - intros program arg1 arg3 num1 num2 H1 H3 Hzero.
    rewrite main_unfold. simpl. rewrite H1, H3.
    unfold calculate. simpl. by rewrite Hzero.
Qed.

Lemma calculator_exit_status_witness :
  main stod_examples show_double_examples ["calculator"; "6"; "/"; "0"]
  = {| cerr := "Error: Division by zero is not allowed." +:+ endl;
       cout := ""; accessed := [1%nat; 2%nat; 3%nat]; status := Exit 0 |}.
Proof.
  apply (proj2 (calculator_exit_status_is_always_zero
                  stod_examples show_double_examples)
           "calculator" "6" "0" 6%float 0%float); reflexivity.
Defined.


(** X14: arguments after the third are never looked at: with more
    than three arguments [main] does what it does on the first three,
    after the usage line. *)
Theorem calculator_ignores_further_arguments
    (stod : string -> result float) (show_double : float -> string)
    (argv : list string) :
  (4 < length argv)%nat ->
  cerr (main stod show_double argv)
  = usage +:+ cerr (main stod show_double (take 4 argv))
  /\ cout (main stod show_double argv) = cout (main stod show_double (take 4 argv))
  /\ accessed (main stod show_double argv)
     = accessed (main stod show_double (take 4 argv))
  /\ status (main stod show_double argv) = Exit 0.
Proof.
  intros Hlen.
  destruct argv as [|program [|arg1 [|op [|arg3 [|arg4 rest]]]]];
    simpl in Hlen; try lia.
  rewrite !main_unfold. simpl.
  destruct (stod arg1) as [num1|e1]; simpl; [|done].
  destruct (stod arg3) as [num2|e3]; simpl; [|done].
  by destruct (calculate num1 num2 op).
Qed.

Lemma calculator_ignores_further_witness :
  cout (main stod_examples show_double_examples
          ["calculator"; "6"; "/"; "3"; "and"; "more"])
  = cout (main stod_examples show_double_examples
            (take 4 ["calculator"; "6"; "/"; "3"; "and"; "more"])).
Proof.
  apply (calculator_ignores_further_arguments stod_examples show_double_examples
           ["calculator"; "6"; "/"; "3"; "and"; "more"]).
  simpl. lia.
Defined.

End Calculator.

(** ** code/threading/thread_pool.cpp *)

Module ThreadPool.

(** What a thread does in one step of [worker]. *)
Inductive action : Type :=
| SleepFor (seconds : Z)
| Print (text : string).

(** The two statements of the body of [while (true)] in [worker]. *)
Inductive worker_pc : Type :=
| AtSleep
| AtPrint.

(** One statement of [ThreadPool::worker]: the action performed and
    the statement that follows; after the print the loop starts over. *)
Definition worker (pc : worker_pc) : action * worker_pc :=
  match pc with
  | AtSleep => (SleepFor 1, AtPrint)
  | AtPrint => (Print ("Worker thread is working!" +:+ endl), AtSleep)
  end.

(** [ThreadPool]: its only member is [workers], one running thread per
    entry, each at some statement of [worker]. *)
Record ThreadPool : Type := {
  workers : list worker_pc
}.

(** The constructor: [numThread] times [workers.emplace_back(...)], each
    new thread starting at the top of [worker]. *)
Fixpoint spawn (numThread : nat) (pool : ThreadPool) : ThreadPool :=
  match numThread with
  | O => pool
  | S n => spawn n {| workers := workers pool ++ [AtSleep] |}
  end.

Definition new_pool (numThread : nat) : ThreadPool :=
  spawn numThread {| workers := [] |}.

(** One step of the pool: some worker thread [i] runs its next
    statement. *)
Inductive step : ThreadPool -> nat * action -> ThreadPool -> Prop :=
| step_worker pool i pc :
    workers pool !! i = Some pc ->
    step pool (i, (worker pc).1)
         {| workers := <[i := (worker pc).2]> (workers pool) |}.

(** Executions, with the actions performed, oldest first. *)
Inductive exec : ThreadPool -> list (nat * action) -> ThreadPool -> Prop :=
| exec_nil pool : exec pool [] pool
| exec_step pool trace pool' event pool'' :
    exec pool trace pool' ->
    step pool' event pool'' ->
    exec pool (trace ++ [event]) pool''.

(** The actions of worker [i] in a trace. *)
Definition actions_of (i : nat) (trace : list (nat * action)) : list action :=
  snd <$> filter (fun event => event.1 = i) trace.

(** The first [n] actions of a thread running [worker] from statement
    [pc]. *)
Fixpoint worker_actions (n : nat) (pc : worker_pc) : list action :=
  match n with
  | O => []
  | S n' => (worker pc).1 :: worker_actions n' (worker pc).2
  end.

Definition message : string := "Worker thread is working!" +:+ endl.

(** The statement a thread is at after [n] steps from [pc]. *)
Fixpoint pc_after (n : nat) (pc : worker_pc) : worker_pc :=
  match n with
  | O => pc
  | S n' => pc_after n' (worker pc).2
  end.

(** What every execution from [ThreadPool(numThread)] maintains. *)
Definition pool_inv (numThread : nat) (trace : list (nat * action))
    (pool : ThreadPool) : Prop :=
  length (workers pool) = numThread
  /\ (forall i a, (i, a) ∈ trace -> (i < numThread)%nat)
  /\ (forall i, (i < numThread)%nat ->
        workers pool !! i
        = Some (pc_after (length (actions_of i trace)) AtSleep)
        /\ actions_of i trace
           = worker_actions (length (actions_of i trace)) AtSleep).

(** How [main] ends: it returns, or [std::terminate] is called. *)
Inductive termination : Type :=
| Exit (code : Z)
| Terminate.

(** A [std::thread] object: the thread of execution it stands for,
    given by its index among the workers, or none. *)
Record thread_object : Type := {
  owns : option nat
}.

(** [std::thread::joinable]. *)
Definition joinable (t : thread_object) : bool :=
  match owns t with
  | Some _ => true
  | None => false
  end.

(** [std::thread(&ThreadPool::worker, this)] for the [i]-th worker: the
    new object stands for the thread it starts. *)
Definition thread_new (i : nat) : thread_object := {| owns := Some i |}.

(** The move constructor: the new object takes the thread of execution
    over, the old one is left standing for none. *)
Definition thread_move (t : thread_object) : thread_object * thread_object :=
  ({| owns := owns t |}, {| owns := None |}).

(** [~thread()]: [std::terminate] is called when the object is
    joinable; [true] when the destructor returns. *)
Definition thread_destroy (t : thread_object) : bool := negb (joinable t).

(** The elements of a vector destroyed one after the other; [false]
    when one of the destructors calls [std::terminate]. *)
Fixpoint destroy_all (elements : list thread_object) : bool :=
  match elements with
  | [] => true
  | t :: rest => if thread_destroy t then destroy_all rest else false
  end.

(** [workers.emplace_back(&ThreadPool::worker, this)] for the [i]-th
    worker.  When the vector is full, its elements are moved to new
    storage and the objects moved from are destroyed.  [None] when
    [std::terminate] is called. *)
Definition emplace_back (full : bool) (i : nat) (elements : list thread_object)
  : option (list thread_object) :=
  if full then
    let moved := map thread_move elements in
    if destroy_all (map snd moved)
    then Some (map fst moved ++ [thread_new i])
    else None
  else Some (elements ++ [thread_new i]).

(** The loop of the constructor from round [i] on, [n] rounds; whether
    the vector is full in a round is the library's choice of capacity,
    [full]. *)
Fixpoint construct (full : nat -> bool) (i n : nat) (elements : list thread_object)
  : option (list thread_object) :=
  match n with
  | O => Some elements
  | S n' =>
      match emplace_back (full i) i elements with
      | Some elements' => construct full (S i) n' elements'
      | None => None
      end
  end.

(** [~ThreadPool()], which the class leaves to the compiler: the member
    [workers] is destroyed, and with it its elements. *)
Definition destroy_pool (elements : list thread_object) : bool :=
  destroy_all elements.

(** [main] with [ThreadPool pool(numThread)]: the pool is constructed,
    [main] sleeps while the workers run, and [return 0] destroys [pool]
    before the program can exit.  Nothing in [main] or [worker] joins,
    detaches or moves a thread. *)
Definition main (full : nat -> bool) (numThread : nat) : termination :=
  match construct full 0 numThread [] with
  | None => Terminate
  | Some elements => if destroy_pool elements then Exit 0 else Terminate
  end.

Lemma spawn_workers n : forall pool,
  workers (spawn n pool) = workers pool ++ replicate n AtSleep.
Proof.
  induction n as [|n IH]; intros pool; simpl; [by rewrite app_nil_r|].
  rewrite IH. simpl. by rewrite <- app_assoc.
Qed.

Lemma new_pool_workers n : workers (new_pool n) = replicate n AtSleep.
Proof. unfold new_pool. by rewrite spawn_workers. Qed.

Lemma worker_actions_snoc n : forall pc,
  worker_actions (S n) pc = worker_actions n pc ++ [(worker (pc_after n pc)).1].
Proof.
  induction n as [|n IH]; intros pc; [done|].
  change (worker_actions (S (S n)) pc)
    with ((worker pc).1 :: worker_actions (S n) (worker pc).2).
  rewrite IH. reflexivity.
Qed.

Lemma pc_after_S n : forall pc, pc_after (S n) pc = (worker (pc_after n pc)).2.
Proof. induction n as [|n IH]; intros pc; [done|]. simpl in *. apply IH. Qed.

Lemma worker_action_cases pc :
  (worker pc).1 = SleepFor 1 \/ (worker pc).1 = Print message.
Proof. destruct pc; [by left | by right]. Qed.

Lemma actions_of_snoc i trace j a :
  actions_of i (trace ++ [(j, a)])
  = actions_of i trace ++ (if decide (j = i) then [a] else []).
Proof.
  unfold actions_of. rewrite filter_app, fmap_app. f_equal.
  rewrite filter_cons, filter_nil. simpl. by destruct (decide (j = i)).
Qed.

Lemma exec_inv numThread start trace pool :
  exec start trace pool -> start = new_pool numThread ->
  pool_inv numThread trace pool.
Proof.
  induction 1 as [pool|pool trace pool' event pool'' Hexec IH Hstep];
    intros Hstart.
  - subst pool. unfold pool_inv. rewrite new_pool_workers.
    split; [apply length_replicate|].
    split; [intros i a Hin; by apply elem_of_nil in Hin|].
    intros i Hi. split; [|done]. simpl. by apply lookup_replicate_2.
  - destruct (IH Hstart) as (Hlen & Hids & Hworkers).
    destruct Hstep as [pool' i pc Hpc].
    assert (Hi : (i < numThread)%nat).
    { apply lookup_lt_Some in Hpc. lia. }
    split; [simpl; by rewrite length_insert|].
    split.
    { intros j a. rewrite elem_of_app, list_elem_of_singleton.
      intros [Hin|[= -> _]]; [by eapply Hids | done]. }
    intros j Hj. destruct (Hworkers j Hj) as [Hpcj Hactsj].
    rewrite actions_of_snoc. simpl.
    destruct (decide (i = j)) as [->|Hne].
    + rewrite length_app. simpl.
      replace (length (actions_of j trace) + 1)%nat
        with (S (length (actions_of j trace))) by lia.
      rewrite list_lookup_insert_eq by lia.
      rewrite Hpc in Hpcj. injection Hpcj as ->.
      split; [by rewrite pc_after_S|].
      rewrite worker_actions_snoc. by rewrite <- Hactsj.
    + rewrite app_nil_r. by rewrite list_lookup_insert_ne.
Qed.

Lemma worker_actions_only n : forall pc a,
  a ∈ worker_actions n pc -> a = SleepFor 1 \/ a = Print message.
Proof.
  induction n as [|n IH]; intros pc a; simpl.
  - intros Hin. by apply elem_of_nil in Hin.
  - rewrite elem_of_cons. intros [->|Hin]; [apply worker_action_cases|].
    by eapply IH.
Qed.

(** C1: in every execution of [ThreadPool(numThread)], whatever the
    interleaving, each action is a worker thread sleeping for one second
    or printing "Worker thread is working!"; each worker's actions are
    sleep, print, sleep, print and so on; no worker ever leaves its
    loop; and the pool, whose only member is the list of workers, holds
    no task and takes none. *)
Theorem thread_pool_only_sleeps_and_prints
    (numThread : nat) (trace : list (nat * action)) (pool : ThreadPool) :
  exec (new_pool numThread) trace pool ->
  (forall i a, (i, a) ∈ trace ->
     (i < numThread)%nat /\ (a = SleepFor 1 \/ a = Print message))
  /\ (forall i, actions_of i trace
                = worker_actions (length (actions_of i trace)) AtSleep)
  /\ (forall k pc, worker_actions (2 * k) pc
                   = concat (replicate k [(worker pc).1; (worker (worker pc).2).1])
                     /\ worker_actions 2 AtSleep = [SleepFor 1; Print message])
  /\ length (workers pool) = numThread
  /\ (forall i, (i < numThread)%nat ->
        exists a pool', step pool (i, a) pool'
                        /\ (a = SleepFor 1 \/ a = Print message))
  /\ (forall event pool', step pool event pool' ->
        exists i pc, workers pool !! i = Some pc
                     /\ event = (i, (worker pc).1)
                     /\ workers pool' = <[i := (worker pc).2]> (workers pool))
  /\ pool = {| workers := workers pool |}.
Proof.
  intros Hexec.
  destruct (exec_inv numThread _ _ _ Hexec eq_refl) as (Hlen & Hids & Hworkers).
  assert (Hacts : forall i, actions_of i trace
                  = worker_actions (length (actions_of i trace)) AtSleep).
  { intros i. destruct (decide (i < numThread)%nat) as [Hi|Hi].
    - by apply Hworkers.
    - assert (Hnil : actions_of i trace = []).
      { unfold actions_of.
        destruct (filter (λ event, event.1 = i) trace) as [|[j a] rest] eqn:Hf;
          [done|].
        assert (Hin : (j, a) ∈ filter (λ event : nat * action, event.1 = i) trace)
          by (rewrite Hf; apply elem_of_cons; by left).
        apply list_elem_of_filter in Hin as [Hj Hin]. simpl in Hj. subst j.
        apply Hids in Hin. lia. }
      by rewrite Hnil. }
  split.
  { intros i a Hin. split; [by eapply Hids|].
    assert (Ha : a ∈ actions_of i trace).
    { unfold actions_of. apply list_elem_of_fmap. exists (i, a).
      split; [done|]. by apply list_elem_of_filter. }
    rewrite Hacts in Ha. by eapply worker_actions_only. }
  split; [exact Hacts|].
  split.
  { intros k pc. split; [|reflexivity].
    revert pc. induction k as [|k IH]; intros pc; [done|].
    replace (2 * S k)%nat with (S (S (2 * k))) by lia.
    simpl replicate. simpl concat.
    change (worker_actions (S (S (2 * k))) pc)
      with ((worker pc).1 :: (worker (worker pc).2).1
              :: worker_actions (2 * k) (worker (worker pc).2).2).
    f_equal. f_equal. rewrite IH. by destruct pc. }
  split; [exact Hlen|].
  split.
  { intros i Hi. destruct (Hworkers i Hi) as [Hpc _].
    eexists _, _. split; [by apply step_worker|]. apply worker_action_cases. }
  split; [|by destruct pool].
  intros event pool' Hstep. destruct Hstep as [pool0 i pc Hpc].
  by exists i, pc.
Qed.

(** C1 read on [ThreadPool(4)] after worker 2 slept and printed and
    worker 0 slept. *)
Lemma thread_pool_witness :
  exists pool,
    exec (new_pool 4)
         [(2%nat, SleepFor 1); (2%nat, Print message); (0%nat, SleepFor 1)] pool
    /\ length (workers pool) = 4%nat.
Proof.
  assert (Hexec : exec (new_pool 4)
            ([] ++ [(2%nat, SleepFor 1)] ++ [(2%nat, Print message)]
                ++ [(0%nat, SleepFor 1)])
            {| workers := [AtPrint; AtSleep; AtSleep; AtSleep] |}).
  { rewrite !app_assoc.
    eapply exec_step
      with (pool' := {| workers := [AtSleep; AtSleep; AtSleep; AtSleep] |}).
    - eapply exec_step
        with (pool' := {| workers := [AtSleep; AtSleep; AtPrint; AtSleep] |}).
      + eapply exec_step
          with (pool' := {| workers := [AtSleep; AtSleep; AtSleep; AtSleep] |}).
        * apply exec_nil.
        * exact (step_worker {| workers := [AtSleep; AtSleep; AtSleep; AtSleep] |}
                   2 AtSleep eq_refl).
      + exact (step_worker {| workers := [AtSleep; AtSleep; AtPrint; AtSleep] |}
                 2 AtPrint eq_refl).
    - exact (step_worker {| workers := [AtSleep; AtSleep; AtSleep; AtSleep] |}
               0 AtSleep eq_refl). }
  eexists. split; [exact Hexec|].
  exact (proj1 (proj2 (proj2 (proj2
           (thread_pool_only_sleeps_and_prints 4 _ _ Hexec))))).
Defined.

Lemma destroy_moved_from elements :
  destroy_all (map snd (map thread_move elements)) = true.
Proof. induction elements as [|t elements IH]; [done|exact IH]. Qed.

Lemma moved_to_owns elements :
  owns <$> map fst (map thread_move elements) = owns <$> elements.
Proof.
  induction elements as [|t elements IH]; [done|].
  change (owns t :: (owns <$> map fst (map thread_move elements))
          = owns t :: (owns <$> elements)).
  by rewrite IH.
Qed.

Lemma emplace_back_owns full i elements :
  exists elements',
    emplace_back full i elements = Some elements'
    /\ owns <$> elements' = (owns <$> elements) ++ [Some i].
Proof.
  unfold emplace_back. destruct full; cbv zeta.
  - rewrite destroy_moved_from. eexists. split; [done|].
    by rewrite fmap_app, moved_to_owns.
  - eexists. split; [done|]. by rewrite fmap_app.
Qed.

Lemma construct_owns full n : forall i elements,
  exists elements',
    construct full i n elements = Some elements'
    /\ owns <$> elements' = (owns <$> elements) ++ (Some <$> seq i n).
Proof.
  induction n as [|n IH]; intros i elements; simpl.
  - exists elements. by rewrite app_nil_r.
  - destruct (emplace_back_owns (full i) i elements) as (elements1 & -> & Howns1).
    destruct (IH (S i) elements1) as (elements2 & -> & Howns2).
    exists elements2. split; [done|].
    by rewrite Howns2, Howns1, <- app_assoc.
Qed.

Lemma destroy_all_joinable elements :
  destroy_all elements = true <-> Forall (fun t => owns t = None) elements.
Proof.
  induction elements as [|t elements IH]; simpl.
  - split; [constructor|done].
  - unfold thread_destroy, joinable. rewrite Forall_cons.
    destruct (owns t); simpl; [|rewrite IH]; intuition congruence.
Qed.

(** X15: the constructor completes whatever the capacity of the vector
    does, reallocations included, and leaves one joinable thread object
    per worker, the i-th standing for worker i; however far the workers
    have come, each of them is still owned by its object when [main]
    returns.  So a pool with at least one thread is destroyed while its
    threads are joinable and the program ends in [std::terminate], not
    with the exit status 0; only a pool without threads lets [main]
    return. *)
Theorem thread_pool_main_terminates_abnormally
    (full : nat -> bool) (numThread : nat) :
  (exists elements,
     construct full 0 numThread [] = Some elements
     /\ elements = thread_new <$> seq 0 numThread
     /\ Forall (fun t => joinable t = true) elements
     /\ (forall trace pool i,
           exec (new_pool numThread) trace pool ->
           is_Some (workers pool !! i) <-> elements !! i = Some (thread_new i)))
  /\ main full numThread
     = (if decide (numThread = 0%nat) then Exit 0 else Terminate).
Proof.
  destruct (construct_owns full numThread 0 []) as (elements & Hrun & Howns).
  simpl in Howns.
  assert (Helements : elements = thread_new <$> seq 0 numThread).
  { clear Hrun. revert Howns. generalize (seq 0 numThread). intros l.
    revert elements. induction l as [|i l IH]; intros [|[o] elements]; simpl;
      try done.
    intros [= -> Hrest]. f_equal. by apply IH. }
  split.
  - exists elements. split; [done|]. split; [done|]. split.
    + rewrite Helements. apply Forall_fmap, Forall_forall. by intros i _.
    + intros trace pool i Hexec.
      destruct (exec_inv numThread _ _ _ Hexec eq_refl) as (Hlen & _ & _).
      rewrite Helements, list_lookup_fmap. split.
      * intros Hsome. apply lookup_lt_is_Some in Hsome.
        rewrite lookup_seq_lt by lia. done.
      * intros Hsome. apply lookup_lt_is_Some. rewrite Hlen.
        destruct (seq 0 numThread !! i) as [j|] eqn:Hseq; [|done].
        apply lookup_seq in Hseq. lia.
  - unfold main, destroy_pool. rewrite Hrun.
    destruct (decide (numThread = 0%nat)) as [->|Hn].
    + by subst elements.
    + destruct (destroy_all elements) eqn:Hdestroy; [|done].
      apply destroy_all_joinable in Hdestroy. subst elements.
      destruct numThread as [|n]; [done|]. simpl in Hdestroy.
      by apply Forall_cons in Hdestroy as [? _].
Qed.

(** X15 read on the program as it stands, [ThreadPool pool(4)], with a
    vector that doubles its capacity. *)
Lemma thread_pool_main_witness :
  main (fun i => bool_decide (i ∈ [0; 1; 2]%nat)) 4 = Terminate.
Proof.
  exact (proj2 (thread_pool_main_terminates_abnormally
                  (fun i => bool_decide (i ∈ [0; 1; 2]%nat)) 4)).
Defined.

End ThreadPool.

(** ** code/thread/number_sequence.cpp *)

Module NumberSequence.

(** The thread running [printOddNumber] and the one running
    [printEvenNumbers]. *)
Inductive tid : Type :=
| Thread1
| Thread2.

(** The statements of the loop both functions share.  [cv.wait(lock,
    pred)] is [while (!pred()) cv.wait(lock)]: [WaitTest] evaluates the
    predicate with the mutex held; [Blocked] is the thread inside
    [cv.wait(lock)], the mutex released; [Relock] is the woken thread
    taking the mutex again. *)
Inductive pc : Type :=
| LoopTest
| Lock
| WaitTest
| Blocked
| Relock
| Print
| Increment
| Notify
| Unlock
| Advance
| Finished.

(** A thread: the statement it is at and its loop variable. *)
Record thread : Type := {
  at_pc : pc;
  i : Z
}.

(** The globals [counter] and [mtx] (its owner, if locked), the two
    threads, and what was written to [std::cout].  The condition
    variable has no state of its own: the threads waiting on it are
    those at [Blocked]. *)
Record state : Type := {
  counter : Z;
  mtx : option tid;
  t1 : thread;
  t2 : thread;
  cout : string
}.

#[local] Instance tid_eq_dec : EqDecision tid.
Proof. solve_decision. Defined.
#[local] Instance pc_eq_dec : EqDecision pc.
Proof. solve_decision. Defined.
#[local] Instance thread_eq_dec : EqDecision thread.
Proof. solve_decision. Defined.
#[local] Instance state_eq_dec : EqDecision state.
Proof. solve_decision. Defined.

(** [int counter = 1;], both threads before their first loop test. *)
Definition init : state :=
  {| counter := 1; mtx := None;
     t1 := {| at_pc := LoopTest; i := 1 |};
     t2 := {| at_pc := LoopTest; i := 2 |};
     cout := "" |}.

Definition other (t : tid) : tid :=
  match t with Thread1 => Thread2 | Thread2 => Thread1 end.

Definition label (t : tid) : string :=
  match t with Thread1 => "Thread 1: " | Thread2 => "Thread 2: " end.

Definition thread_of (t : tid) (s : state) : thread :=
  match t with Thread1 => t1 s | Thread2 => t2 s end.

Definition with_thread (t : tid) (th : thread) (s : state) : state :=
  match t with
  | Thread1 => {| counter := counter s; mtx := mtx s; t1 := th; t2 := t2 s;
                  cout := cout s |}
  | Thread2 => {| counter := counter s; mtx := mtx s; t1 := t1 s; t2 := th;
                  cout := cout s |}
  end.

Definition goto (t : tid) (p : pc) (s : state) : state :=
  with_thread t {| at_pc := p; i := i (thread_of t s) |} s.

Definition set_mtx (owner : option tid) (s : state) : state :=
  {| counter := counter s; mtx := owner; t1 := t1 s; t2 := t2 s; cout := cout s |}.

Definition set_counter (c : Z) (s : state) : state :=
  {| counter := c; mtx := mtx s; t1 := t1 s; t2 := t2 s; cout := cout s |}.

Definition write (text : string) (s : state) : state :=
  {| counter := counter s; mtx := mtx s; t1 := t1 s; t2 := t2 s;
     cout := cout s +:+ text |}.

(** [cv.notify_one()] called by the other thread: [waiter] is unblocked
    if it is waiting, nothing happens otherwise. *)
Definition notify_one (waiter : tid) (s : state) : state :=
  match at_pc (thread_of waiter s) with
  | Blocked => goto waiter Relock s
  | _ => s
  end.

(** Thread [t] runs its current statement: the states that can result,
    none when the thread cannot move.  With [spurious] a blocked thread
    may also wake up without a notification. *)
Definition statement (spurious : bool) (t : tid) (s : state) : list state :=
  let th := thread_of t s in
  match at_pc th with
  | LoopTest =>
      if i th <=? 20 then [goto t Lock s] else [goto t Finished s]
  | Lock | Relock =>
      match mtx s with
      | None => [goto t WaitTest (set_mtx (Some t) s)]
      | Some _ => []
      end
  | WaitTest =>
      if counter s =? i th then [goto t Print s]
      else [goto t Blocked (set_mtx None s)]
  | Blocked =>
      if spurious then [goto t Relock s] else []
  | Print =>
      [goto t Increment (write (label t +:+ show_int (i th) +:+ endl) s)]
  | Increment =>
      [goto t Notify (set_counter (wrap_int (counter s + 1)) s)]
  | Notify =>
      [goto t Unlock (notify_one (other t) s)]
  | Unlock =>
      [goto t Advance (set_mtx None s)]
  | Advance =>
      [with_thread t {| at_pc := LoopTest; i := wrap_int (i th + 2) |} s]
  | Finished => []
  end.

(** [printOddNumber] is the loop run by thread 1 from [i = 1],
    [printEvenNumbers] the loop run by thread 2 from [i = 2]. *)
Definition printOddNumber (spurious : bool) : state -> list state :=
  statement spurious Thread1.
Definition printEvenNumbers (spurious : bool) : state -> list state :=
  statement spurious Thread2.

(** All successors of a state. *)
Definition next (spurious : bool) (s : state) : list state :=
  printOddNumber spurious s ++ printEvenNumbers spurious s.

(** The states of the executions from [init]. *)
Inductive reachable (spurious : bool) : state -> Prop :=
| reachable_init : reachable spurious init
| reachable_step s s' :
    reachable spurious s -> In s' (next spurious s) -> reachable spurious s'.

(** Executions of exactly [n] steps. *)
Inductive steps (spurious : bool) : nat -> state -> state -> Prop :=
| steps_O s : steps spurious 0 s s
| steps_S n s s' s'' :
    In s' (next spurious s) -> steps spurious n s' s'' ->
    steps spurious (S n) s s''.

(** Both threads have left their loops: [main]'s two [join]s return. *)
Definition finished (s : state) : Prop :=
  at_pc (t1 s) = Finished /\ at_pc (t2 s) = Finished.

(** The line for the number [n]: odd numbers by thread 1, even numbers
    by thread 2. *)
Definition line (n : Z) : string :=
  label (if Z.odd n then Thread1 else Thread2) +:+ show_int n +:+ endl.

(** The lines for 1, ..., [n]. *)
Fixpoint lines_upto (n : nat) : string :=
  match n with
  | O => ""
  | S n' => lines_upto n' +:+ line (Z.of_nat n)
  end.

(** The number of lines in a text. *)
Fixpoint count_lines (text : string) : nat :=
  match text with
  | EmptyString => O
  | String c rest =>
      if Ascii.eqb c "010" then S (count_lines rest) else count_lines rest
  end.

(** How many threads have printed a line and not yet incremented
    [counter] for it. *)
Definition pending (s : state) : Z :=
  (if decide (at_pc (t1 s) = Increment) then 1 else 0)
  + (if decide (at_pc (t2 s) = Increment) then 1 else 0).

(** The block under "Output:" in the tutorial. *)
Definition documented_output : string :=
  "Thread 1: 1" +:+ endl +:+ "Thread 2: 2" +:+ endl +:+
  "Thread 1: 3" +:+ endl +:+ "Thread 2: 4" +:+ endl +:+
  "Thread 1: 5" +:+ endl +:+ "Thread 2: 6" +:+ endl +:+
  "Thread 1: 7" +:+ endl +:+ "Thread 2: 8" +:+ endl +:+
  "Thread 1: 9" +:+ endl +:+ "Thread 2: 10" +:+ endl +:+
  "Thread 1: 11" +:+ endl +:+ "Thread 2: 12" +:+ endl +:+
  "Thread 1: 13" +:+ endl +:+ "Thread 2: 14" +:+ endl +:+
  "Thread 1: 15" +:+ endl +:+ "Thread 2: 16" +:+ endl +:+
  "Thread 1: 17" +:+ endl +:+ "Thread 2: 18" +:+ endl +:+
  "Thread 1: 19" +:+ endl +:+ "Thread 2: 20" +:+ endl.

(** *** Exhaustive exploration of the reachable states *)

Definition seen_before (s : state) (seen : list state) : bool :=
  existsb (fun s' => bool_decide (s = s')) seen.

(** The states of [candidates] not yet in [seen] are added to it and
    collected as the new frontier. *)
Fixpoint add_new (candidates new seen : list state) : list state * list state :=
  match candidates with
  | [] => (new, seen)
  | s :: rest =>
      if seen_before s seen then add_new rest new seen
      else add_new rest (s :: new) (s :: seen)
  end.

Fixpoint explore (fuel : nat) (spurious : bool) (frontier seen : list state)
  : list state :=
  match fuel with
  | O => seen
  | S fuel' =>
      match add_new (flat_map (next spurious) frontier) [] seen with
      | ([], seen) => seen
      | (new, seen) => explore fuel' spurious new seen
      end
  end.

Definition explored (spurious : bool) : list state :=
  explore 1000 spurious [init] [init].

(** A list of states is closed when it holds the successors of its
    members. *)
Definition closed (spurious : bool) (states : list state) : bool :=
  forallb (fun s => forallb (fun s' => seen_before s' states) (next spurious s))
          states.

(** *** A measure that every step without spurious wake-up decreases *)

(** The iterations a thread with loop variable [x] still has to run. *)
Definition rem_iterations (x : Z) : Z :=
  if x <=? 20 then (20 - x) / 2 + 1 else 0.

Definition rank (th : thread) (c : Z) : Z :=
  match at_pc th with
  | Finished => 0
  | LoopTest => 12 * rem_iterations (i th) + 11
  | Lock => 12 * rem_iterations (i th) + 10
  | WaitTest => 12 * rem_iterations (i th) + (if c =? i th then 6 else 9)
  | Blocked => 12 * rem_iterations (i th) + 8
  | Relock => 12 * rem_iterations (i th) + 7
  | Print => 12 * rem_iterations (i th) + 5
  | Increment => 12 * rem_iterations (i th) + 4
  | Notify => 12 * rem_iterations (i th) + 3
  | Unlock => 12 * rem_iterations (i th) + 2
  | Advance => 12 * rem_iterations (i th) + 1
  end.

Definition measure (s : state) : Z :=
  rank (t1 s) (counter s) + rank (t2 s) (counter s).

Definition decreasing (states : list state) : bool :=
  forallb (fun s =>
             forallb (fun s' => (0 <=? measure s') && (measure s' <? measure s))
                     (next false s))
          states.


(** *** The properties checked on every explored state *)

Definition finished_b (s : state) : bool :=
  bool_decide (at_pc (t1 s) = Finished) && bool_decide (at_pc (t2 s) = Finished).

Definition output_ok (s : state) : bool :=
  String.eqb (cout s) (lines_upto (count_lines (cout s)))
  && (count_lines (cout s) <=? 20)%nat
  && (counter s + pending s =? 1 + Z.of_nat (count_lines (cout s))).

Definition turn_ok (t : tid) (s : state) : bool :=
  Bool.eqb (Z.odd (i (thread_of t s))) (bool_decide (t = Thread1))
  && match at_pc (thread_of t s) with
     | Print => (counter s =? i (thread_of t s)) && bool_decide (mtx s = Some t)
     | _ => true
     end.

Definition final_ok (s : state) : bool :=
  if finished_b s
  then String.eqb (cout s) documented_output && (counter s =? 21)
  else match next false s with [] => false | _ => true end.

Definition state_ok (s : state) : bool :=
  output_ok s && turn_ok Thread1 s && turn_ok Thread2 s && final_ok s.

(** A complete schedule: the first thread that can move does. *)
Fixpoint schedule (fuel : nat) (s : state) : nat * state :=
  match fuel with
  | O => (O, s)
  | S fuel' =>
      match next false s with
      | [] => (O, s)
      | s' :: _ => let '(n, s'') := schedule fuel' s' in (S n, s'')
      end
  end.

(** The statements a thread runs with the mutex held. *)
Definition holds_mutex (p : pc) : bool :=
  match p with
  | WaitTest | Print | Increment | Notify | Unlock => true
  | _ => false
  end.

(** The mutex is owned by the thread that is between taking it and
    giving it back, and by nobody if there is none. *)
Definition exclusion_ok (s : state) : bool :=
  match mtx s with
  | None => negb (holds_mutex (at_pc (t1 s))) && negb (holds_mutex (at_pc (t2 s)))
  | Some Thread1 => holds_mutex (at_pc (t1 s)) && negb (holds_mutex (at_pc (t2 s)))
  | Some Thread2 => negb (holds_mutex (at_pc (t1 s))) && holds_mutex (at_pc (t2 s))
  end.

(** A thread blocked in [cv.wait] waits for a number that has not been
    passed; the other thread is still running, and when the number has
    come the other thread is at its [notify_one]. *)
Definition blocked_ok (t : tid) (s : state) : bool :=
  match at_pc (thread_of t s) with
  | Blocked =>
      (counter s <=? i (thread_of t s))
      && negb (bool_decide (at_pc (thread_of (other t) s) = Blocked))
      && negb (bool_decide (at_pc (thread_of (other t) s) = Finished))
      && ((counter s <? i (thread_of t s))
          || bool_decide (at_pc (thread_of (other t) s) = Notify))
  | _ => true
  end.

Lemma seen_before_In s seen : seen_before s seen = true <-> In s seen.
Proof.
  unfold seen_before. rewrite existsb_exists. split.
  - intros (s' & Hin & Heq). apply bool_decide_eq_true in Heq. by subst.
  - intros Hin. exists s. split; [done|]. by apply bool_decide_eq_true.
Qed.

Lemma closed_In spurious states s s' :
  closed spurious states = true ->
  In s states -> In s' (next spurious s) -> In s' states.
Proof.
  unfold closed. rewrite forallb_forall. intros Hclosed Hs Hs'.
  specialize (Hclosed s Hs). rewrite forallb_forall in Hclosed.
  apply seen_before_In. by apply Hclosed.
Qed.

Lemma explored_closed spurious :
  closed spurious (explored spurious) = true
  /\ seen_before init (explored spurious) = true.
Proof. destruct spurious; split; vm_compute; reflexivity. Qed.

Lemma reachable_explored spurious s :
  reachable spurious s -> In s (explored spurious).
Proof.
  destruct (explored_closed spurious) as [Hclosed Hinit].
  induction 1 as [|s s' _ IH Hnext].
  - by apply seen_before_In.
  - by eapply closed_In.
Qed.

Lemma explored_ok : forallb state_ok (explored true) = true.
Proof. vm_compute. reflexivity. Qed.

Lemma explored_decreasing : decreasing (explored false) = true.
Proof. vm_compute. reflexivity. Qed.

Lemma explored_can_finish :
  forallb (fun s => finished_b (schedule 300 s).2) (explored true) = true.
Proof. vm_compute. reflexivity. Qed.

Lemma reachable_ok s : reachable true s -> state_ok s = true.
Proof.
  intros Hs. apply reachable_explored in Hs.
  pose proof explored_ok as Hok. rewrite forallb_forall in Hok. by apply Hok.
Qed.

Lemma statement_spurious t s s' :
  In s' (statement false t s) -> In s' (statement true t s).
Proof. unfold statement. by destruct (at_pc (thread_of t s)). Qed.

Lemma next_spurious s s' : In s' (next false s) -> In s' (next true s).
Proof.
  unfold next, printOddNumber, printEvenNumbers. rewrite !in_app_iff.
  intros [H|H]; [left | right]; by apply statement_spurious.
Qed.

Lemma reachable_spurious s : reachable false s -> reachable true s.
Proof.
  induction 1 as [|s s' _ IH Hnext]; [apply reachable_init|].
  eapply reachable_step; [exact IH | by apply next_spurious].
Qed.

Lemma step_decreases s s' :
  reachable false s -> In s' (next false s) ->
  0 <= measure s' < measure s.
Proof.
  intros Hs Hnext. apply reachable_explored in Hs.
  pose proof explored_decreasing as Hdec. unfold decreasing in Hdec.
  rewrite forallb_forall in Hdec. specialize (Hdec s Hs).
  rewrite forallb_forall in Hdec. specialize (Hdec s' Hnext).
  apply andb_prop in Hdec as [H0 H1]. lia.
Qed.

Lemma steps_measure n : forall s s',
  reachable false s -> steps false n s s' ->
  Z.of_nat n <= measure s - measure s' /\ 0 <= measure s'
  \/ (n = 0%nat /\ s' = s).
Proof.
  induction n as [|n IH]; intros s s' Hs Hsteps.
  - inversion Hsteps; subst. by right.
  - inversion Hsteps as [|n' s0 s1 s2 Hnext Hrest]; subst. left.
    pose proof (step_decreases s s1 Hs Hnext) as Hdec.
    assert (Hs1 : reachable false s1) by (eapply reachable_step; eauto).
    destruct (IH s1 s' Hs1 Hrest) as [[Hle H0]|[-> ->]]; lia.
Qed.

Lemma schedule_steps fuel : forall s,
  steps false (schedule fuel s).1 s (schedule fuel s).2.
Proof.
  induction fuel as [|fuel IH]; intros s; simpl; [apply steps_O|].
  destruct (next false s) as [|s' rest] eqn:Hnext; [apply steps_O|].
  specialize (IH s'). destruct (schedule fuel s') as [n s'']. simpl in *.
  eapply steps_S; [|exact IH]. rewrite Hnext. by left.
Qed.

Lemma steps_reachable n : forall s s',
  reachable true s -> steps false n s s' -> reachable true s'.
Proof.
  induction n as [|n IH]; intros s s' Hs Hsteps.
  - inversion Hsteps; by subst.
  - inversion Hsteps as [|n' s0 s1 s2 Hnext Hrest]; subst.
    apply (IH s1); [|done].
    eapply reachable_step; [exact Hs | by apply next_spurious].
Qed.

Lemma lines_upto_documented : documented_output = lines_upto 20.
Proof. vm_compute. reflexivity. Qed.

(** C5: in every execution, spurious wake-ups included, the output is
    at each moment the first lines of "Thread 1: 1", "Thread 2: 2", ...,
    "Thread 2: 20"; it is thread 1's loop variable that is odd and
    thread 2's that is even, and a thread prints only while it holds
    the mutex and [counter == i]; [counter] is one more than the number
    of lines printed, less the increment still pending after a print; a
    state from which no thread can move has both threads finished, all
    twenty lines printed and [counter == 21].  Without spurious
    wake-ups no execution has more than 262 steps, so every execution
    ends, with exactly the documented output; with them, every state
    reached can still be run to that end. *)
Theorem number_sequence_prints_in_order :
  documented_output = lines_upto 20
  /\ (forall n, line n
        = (if Z.odd n then "Thread 1: " else "Thread 2: ") +:+ show_int n +:+ endl)
  /\ (forall s, reachable true s ->
        cout s = lines_upto (count_lines (cout s))
        /\ (count_lines (cout s) <= 20)%nat
        /\ counter s + pending s = 1 + Z.of_nat (count_lines (cout s))
        /\ (forall t, Z.odd (i (thread_of t s)) = bool_decide (t = Thread1))
        /\ (forall t, at_pc (thread_of t s) = Print ->
              counter s = i (thread_of t s) /\ mtx s = Some t)
        /\ (finished s -> cout s = documented_output /\ counter s = 21)
        /\ (finished s \/ next false s <> []))
  /\ (forall n s, steps false n init s -> (n <= 262)%nat)
  /\ (forall s, reachable false s -> next false s = [] ->
        finished s /\ cout s = documented_output /\ counter s = 21)
  /\ (forall s, reachable true s ->
        exists n s', steps false n s s' /\ finished s'
                     /\ cout s' = documented_output).
Proof.
  split; [apply lines_upto_documented|].
  split; [intros n; unfold line; by destruct (Z.odd n)|].
  assert (Hinv : forall s, reachable true s ->
        cout s = lines_upto (count_lines (cout s))
        /\ (count_lines (cout s) <= 20)%nat
        /\ counter s + pending s = 1 + Z.of_nat (count_lines (cout s))
        /\ (forall t, Z.odd (i (thread_of t s)) = bool_decide (t = Thread1))
        /\ (forall t, at_pc (thread_of t s) = Print ->
              counter s = i (thread_of t s) /\ mtx s = Some t)
        /\ (finished s -> cout s = documented_output /\ counter s = 21)
        /\ (finished s \/ next false s <> [])).
  { intros s Hs. pose proof (reachable_ok s Hs) as Hok.
    unfold state_ok in Hok.
    apply andb_prop in Hok as [Hok Hfinal].
    apply andb_prop in Hok as [Hok Hturn2].
    apply andb_prop in Hok as [Hout Hturn1].
    unfold output_ok in Hout.
    apply andb_prop in Hout as [Hout Hcounter].
    apply andb_prop in Hout as [Hout Hcount].
    apply String.eqb_eq in Hout. apply Nat.leb_le in Hcount.
    apply Z.eqb_eq in Hcounter.
    assert (Hturn : forall t, turn_ok t s = true) by (by intros []).
    clear Hturn1 Hturn2.
    split; [exact Hout|]. split; [exact Hcount|]. split; [exact Hcounter|].
    split.
    { intros t. specialize (Hturn t). unfold turn_ok in Hturn.
      apply andb_prop in Hturn as [Hodd _]. by apply Bool.eqb_prop in Hodd. }
    split.
    { intros t Hpc. specialize (Hturn t). unfold turn_ok in Hturn.
      apply andb_prop in Hturn as [_ Hprint]. rewrite Hpc in Hprint.
      apply andb_prop in Hprint as [Hc Hm].
      apply Z.eqb_eq in Hc. by apply bool_decide_eq_true in Hm. }
    unfold final_ok, finished_b in Hfinal.
    destruct (bool_decide (at_pc (t1 s) = Finished)) eqn:H1;
      [destruct (bool_decide (at_pc (t2 s) = Finished)) eqn:H2|]; simpl in Hfinal.
    - apply andb_prop in Hfinal as [Hdoc Hc].
      apply String.eqb_eq in Hdoc. apply Z.eqb_eq in Hc.
      apply bool_decide_eq_true in H1, H2.
      split; [done|]. by left.
    - apply bool_decide_eq_false in H2.
      split; [by intros [_ ?]|]. right. by destruct (next false s).
    - apply bool_decide_eq_false in H1.
      split; [by intros [? _]|]. right. by destruct (next false s). }
  split; [exact Hinv|].
  split.
  { intros n s Hsteps.
    destruct (steps_measure n init s (reachable_init false) Hsteps)
      as [[Hle H0]|[-> _]]; [|lia].
    change (measure init) with 262 in Hle. lia. }
  split.
  { intros s Hs Hstuck.
    destruct (Hinv s (reachable_spurious s Hs)) as (_ & _ & _ & _ & _ & Hfin & Hprog).
    destruct Hprog as [Hf|Hne]; [|done].
    split; [done|]. by apply Hfin. }
  intros s Hs.
  exists (schedule 300 s).1, (schedule 300 s).2.
  split; [apply schedule_steps|].
  assert (Hfin : finished (schedule 300 s).2).
  { pose proof explored_can_finish as Hcan. rewrite forallb_forall in Hcan.
    specialize (Hcan s (reachable_explored true s Hs)).
    unfold finished_b in Hcan. apply andb_prop in Hcan as [H1 H2].
    apply bool_decide_eq_true in H1, H2. by split. }
  split; [exact Hfin|].
  assert (Hreach : reachable true (schedule 300 s).2).
  { eapply steps_reachable; [exact Hs | apply schedule_steps]. }
  by apply (Hinv _ Hreach).
Qed.

(** C5 read on the state in which thread 1 has taken the mutex first. *)
Lemma number_sequence_witness :
  cout (goto Thread1 WaitTest (set_mtx (Some Thread1) (goto Thread1 Lock init)))
  = lines_upto
      (count_lines
         (cout (goto Thread1 WaitTest (set_mtx (Some Thread1) (goto Thread1 Lock init))))).
Proof.
  apply (proj1 (proj2 (proj2 number_sequence_prints_in_order))).
  eapply reachable_step; [eapply reachable_step; [apply reachable_init|]|].
  - left. reflexivity.
  - left. reflexivity.
Defined.

Lemma explored_exclusion :
  forallb (fun s => exclusion_ok s && blocked_ok Thread1 s && blocked_ok Thread2 s)
          (explored true) = true.
Proof. vm_compute. reflexivity. Qed.

Lemma reachable_exclusion s :
  reachable true s ->
  exclusion_ok s = true /\ forall t, blocked_ok t s = true.
Proof.
  intros Hs. apply reachable_explored in Hs.
  pose proof explored_exclusion as Hok. rewrite forallb_forall in Hok.
  specialize (Hok s Hs).
  apply andb_prop in Hok as [Hok H2]. apply andb_prop in Hok as [Hex H1].
  split; [done|]. by intros [].
Qed.

(** X16: mutual exclusion.  In every execution, spurious wake-ups
    included, the mutex is owned by a thread exactly while that thread
    is between taking it and giving it back at the end of the loop body
    (or giving it up inside [cv.wait]), and the two threads are never
    there at once. *)
Theorem number_sequence_mutual_exclusion (s : state) :
  reachable true s ->
  (forall t, mtx s = Some t <-> holds_mutex (at_pc (thread_of t s)) = true)
  /\ ~ (holds_mutex (at_pc (t1 s)) = true /\ holds_mutex (at_pc (t2 s)) = true).
Proof.
  intros Hs. destruct (reachable_exclusion s Hs) as [Hex _].
  unfold exclusion_ok in Hex.
  destruct (mtx s) as [[|]|]; apply andb_prop in Hex as [H1 H2];
    try apply negb_true_iff in H1; try apply negb_true_iff in H2.
  - split; [|intros [_ ?]; congruence].
    intros [|]; simpl; split; try done; intros; congruence.
  - split; [|intros [? _]; congruence].
    intros [|]; simpl; split; try done; intros; congruence.
  - split; [|intros [? _]; congruence].
    intros [|]; simpl; split; try done; intros; congruence.
Qed.

Lemma number_sequence_exclusion_witness :
  mtx (goto Thread1 WaitTest (set_mtx (Some Thread1) (goto Thread1 Lock init)))
  = Some Thread1
  <-> holds_mutex
        (at_pc (thread_of Thread1
                  (goto Thread1 WaitTest
                     (set_mtx (Some Thread1) (goto Thread1 Lock init)))))
      = true.
Proof.
  apply (proj1 (number_sequence_mutual_exclusion
                  (goto Thread1 WaitTest
                     (set_mtx (Some Thread1) (goto Thread1 Lock init)))
                  (reachable_step true _ _
                     (reachable_step true _ _ (reachable_init true)
                        (or_introl eq_refl))
                     (or_introl eq_refl)))).
Defined.

(** X17: no wake-up is lost.  In every execution a thread blocked in
    [cv.wait] waits for a number [counter] has not passed; the other
    thread is then neither blocked nor finished; and once [counter] has
    reached the number, the other thread is at the [notify_one] that
    wakes the blocked one. *)
Theorem number_sequence_no_lost_wakeup (s : state) (t : tid) :
  reachable true s ->
  at_pc (thread_of t s) = Blocked ->
  counter s <= i (thread_of t s)
  /\ at_pc (thread_of (other t) s) <> Blocked
  /\ at_pc (thread_of (other t) s) <> Finished
  /\ (counter s = i (thread_of t s) -> at_pc (thread_of (other t) s) = Notify).
Proof.
  intros Hs Hblocked. destruct (reachable_exclusion s Hs) as [_ Hb].
  specialize (Hb t). unfold blocked_ok in Hb. rewrite Hblocked in Hb.
  apply andb_prop in Hb as [Hb Hnotify]. apply andb_prop in Hb as [Hb Hfin].
  apply andb_prop in Hb as [Hle Hblk].
  apply Z.leb_le in Hle.
  apply negb_true_iff, bool_decide_eq_false in Hblk.
  apply negb_true_iff, bool_decide_eq_false in Hfin.
  split; [done|]. split; [done|]. split; [done|].
  intros Heq. apply orb_prop in Hnotify as [Hlt|Hn].
  - apply Z.ltb_lt in Hlt. lia.
  - by apply bool_decide_eq_true in Hn.
Qed.

Lemma number_sequence_wakeup_witness :
  counter (goto Thread2 Blocked
             (set_mtx None
                (goto Thread2 WaitTest
                   (set_mtx (Some Thread2) (goto Thread2 Lock init)))))
  <= i (thread_of Thread2
          (goto Thread2 Blocked
             (set_mtx None
                (goto Thread2 WaitTest
                   (set_mtx (Some Thread2) (goto Thread2 Lock init)))))).
Proof.
  apply (number_sequence_no_lost_wakeup _ Thread2); [|reflexivity].
  eapply reachable_step; [eapply reachable_step; [eapply reachable_step|]|].
  - apply reachable_init.
  - apply in_or_app. right. vm_compute. left. reflexivity.
  - apply in_or_app. right. vm_compute. left. reflexivity.
  - apply in_or_app. right. vm_compute. left. reflexivity.
Defined.

End NumberSequence.

(** ** code/thread/number_order.md, second document: the FTP client *)

Module Ftp.

(** The exceptions the string functions throw. *)
Inductive exception : Type :=
| invalid_argument (what_arg : string)
| out_of_range (what_arg : string).

(** A call either returns a value or throws. *)
Inductive result (A : Type) : Type :=
| Returns (a : A)
| Throws (e : exception).
Arguments Returns {A} a.
Arguments Throws {A} e.

(** *** The string and conversion functions the client calls *)

(** [size_t]: 64 bits, unsigned, wrapping. *)
Definition size_t (z : Z) : Z := z mod 2 ^ 64.

(** [std::string::npos]. *)
Definition npos : Z := 2 ^ 64 - 1.

Definition size (str : string) : Z := Z.of_nat (String.length str).

(** [str.find(c)]: the index of the first [c], [npos] if there is
    none. *)
Fixpoint find_from (c : ascii) (str : string) (index : Z) : Z :=
  match str with
  | EmptyString => npos
  | String c' rest =>
      if Ascii.eqb c' c then index else find_from c rest (index + 1)
  end.

Definition find (c : ascii) (str : string) : Z := find_from c str 0.

(** [str.substr(pos, count)] throws when [pos > size()] and stops at
    the end of the string. *)
Definition substr (str : string) (pos count : Z) : result string :=
  if size str <? pos then Throws (out_of_range "basic_string::substr")
  else Returns (String.substring (Z.to_nat pos)
                                 (Z.to_nat (Z.min count (size str - pos))) str).

(** [std::string(buffer)] for a [char] array: the bytes before the
    first NUL. *)
Fixpoint c_string (bytes : string) : string :=
  match bytes with
  | EmptyString => EmptyString
  | String c rest =>
      if Ascii.eqb c "000" then EmptyString else String c (c_string rest)
  end.

(** [isspace] in the C locale. *)
Definition isspace (c : ascii) : bool :=
  let n := nat_of_ascii c in
  Nat.eqb n 32 || (Nat.leb 9 n && Nat.leb n 13).

Fixpoint skip_space (str : string) : string :=
  match str with
  | EmptyString => EmptyString
  | String c rest => if isspace c then skip_space rest else str
  end.

Definition digit_value (c : ascii) : option Z :=
  let n := Z.of_nat (nat_of_ascii c) in
  if (48 <=? n) && (n <=? 57) then Some (n - 48) else None.

(** The decimal digits at the front of [str]: their value on top of
    [acc], how many there are, and what follows them. *)
Fixpoint scan_digits (str : string) (acc : Z) (count : nat) : Z * nat * string :=
  match str with
  | EmptyString => (acc, count, EmptyString)
  | String c rest =>
      match digit_value c with
      | Some d => scan_digits rest (10 * acc + d) (S count)
      | None => (acc, count, str)
      end
  end.

(** What [strtol] in base 10 and the conversion [%d] accept: white
    space, an optional sign, and at least one digit. *)
Definition scan_integer (str : string) : option (Z * string) :=
  let str := skip_space str in
  let '(negative, str) :=
    match str with
    | String c rest =>
        if Ascii.eqb c "-" then (true, rest)
        else if Ascii.eqb c "+" then (false, rest)
        else (false, str)
    | EmptyString => (false, str)
    end in
  match scan_digits str 0 0 with
  | (_, O, _) => None
  | (value, _, rest) => Some (if negative then - value else value, rest)
  end.

(** [std::stoi]. *)
Definition stoi (str : string) : result Z :=
  match scan_integer str with
  | None => Throws (invalid_argument "stoi")
  | Some (value, _) =>
      if (- 2 ^ 31 <=? value) && (value <? 2 ^ 31) then Returns value
      else Throws (out_of_range "stoi")
  end.

(** [std::to_string] on an [int]. *)
Definition to_string (value : Z) : string := pretty value.

(** [strtol] on a number beyond [long]: the result is [LONG_MAX] or
    [LONG_MIN]. *)
Definition saturate_long (value : Z) : Z :=
  Z.max (- 2 ^ 63) (Z.min (2 ^ 63 - 1) value).

(** [sscanf(input, "%d,%d,...,%d", ...)] with [n] conversions: the
    values assigned, in order; the scan stops at the first conversion
    or comma that does not match.  C leaves a number that does not fit
    an [int] undefined; the embedding does what the usual library does:
    the number is converted as by [strtol], saturating at the ends of
    [long], and the [long] is then cut down to an [int]. *)
Fixpoint sscanf_ints (n : nat) (input : string) : list Z :=
  match n with
  | O => []
  | S n' =>
      match scan_integer input with
      | None => []
      | Some (value, rest) =>
          wrap_int (saturate_long value) ::
            match n', rest with
            | S _, String c rest' =>
                if Ascii.eqb c "," then sscanf_ints n' rest' else []
            | _, _ => []
            end
      end
  end.

(** *** Sockets, files and the console *)

(** What one call of [recv] finds: bytes sent by the peer (none when
    the peer has closed the connection), or an error. *)
Inductive recv_result : Type :=
| RecvData (bytes : string)
| RecvError.

(** A socket descriptor: the control connection, the data connection,
    or the [-1] of a failed [create_control_socket]. *)
Inductive socket : Type :=
| Control
| Data
| NoSocket.

Inductive connect_outcome : Type :=
| Connected
| SocketFailed
| ConnectFailed.

(** What the client cannot control: whether a connection to an address
    can be made, whether the local file can be opened, and what an
    uninitialised [int] holds. *)
Record environment : Type := {
  connect_to : string -> Z -> connect_outcome;
  fopen_succeeds : bool;
  indeterminate : nat -> Z
}.

(** The state the client acts on: what the next calls of [recv] on the
    two connections and of [send] will yield, the commands sent, the
    local file once opened, and the console. *)
Record world : Type := {
  control_in : list recv_result;
  data_in : list recv_result;
  send_results : list bool;
  sent : list string;
  file : option string;
  cout : string;
  cerr : string
}.

Definition write_cout (text : string) (w : world) : world :=
  {| control_in := control_in w; data_in := data_in w;
     send_results := send_results w; sent := sent w; file := file w;
     cout := cout w +:+ text; cerr := cerr w |}.

Definition write_cerr (text : string) (w : world) : world :=
  {| control_in := control_in w; data_in := data_in w;
     send_results := send_results w; sent := sent w; file := file w;
     cout := cout w; cerr := cerr w +:+ text |}.

Definition pending (sockfd : socket) (w : world) : list recv_result :=
  match sockfd with
  | Control => control_in w
  | Data => data_in w
  | NoSocket => []
  end.

Definition set_pending (sockfd : socket) (l : list recv_result) (w : world) : world :=
  match sockfd with
  | Control =>
      {| control_in := l; data_in := data_in w;
         send_results := send_results w; sent := sent w; file := file w;
         cout := cout w; cerr := cerr w |}
  | Data =>
      {| control_in := control_in w; data_in := l;
         send_results := send_results w; sent := sent w; file := file w;
         cout := cout w; cerr := cerr w |}
  | NoSocket => w
  end.

(** [recv(sockfd, buffer, len, 0)]: the return value, the bytes put in
    the buffer, and the world afterwards.  At most [len] bytes are
    taken, the rest stays pending; a connection on which nothing more
    is pending has been closed by the peer (0); the descriptor [-1] is
    an error.  A connection on which the peer stays silent, where the
    call does not return, is not among the worlds described. *)
Definition recv (sockfd : socket) (len : nat) (w : world) : Z * string * world :=
  match sockfd with
  | NoSocket => (-1, "", w)
  | _ =>
      match pending sockfd w with
      | [] => (0, "", w)
      | RecvError :: rest => (-1, "", set_pending sockfd rest w)
      | RecvData bytes :: rest =>
          if (String.length bytes <=? len)%nat
          then (size bytes, bytes, set_pending sockfd rest w)
          else (Z.of_nat len, String.substring 0 len bytes,
                set_pending sockfd
                  (RecvData (String.substring len (String.length bytes - len) bytes)
                     :: rest) w)
      end
  end.

(** [send(sockfd, data, length, 0)]: negative when it fails.  The
    worlds described are those in which the call returns; a [send] on
    a connection the peer has closed, which raises SIGPIPE and ends the
    process, is not among them. *)
Definition send (sockfd : socket) (data : string) (w : world) : Z * world :=
  let '(ok, results) :=
    match send_results w with
    | [] => (true, [])
    | ok :: results => (ok, results)
    end in
  let ok := match sockfd with NoSocket => false | _ => ok end in
  (if ok then size data else -1,
   {| control_in := control_in w; data_in := data_in w;
      send_results := results;
      sent := if ok then sent w ++ [data] else sent w;
      file := file w; cout := cout w; cerr := cerr w |}).

(** [fwrite(buffer, sizeof(char), n, file)]. *)
Definition fwrite (bytes : string) (w : world) : world :=
  {| control_in := control_in w; data_in := data_in w;
     send_results := send_results w; sent := sent w;
     file := (fun contents => contents +:+ bytes) <$> file w;
     cout := cout w; cerr := cerr w |}.

(** [fopen(local_file, "wb")] when it succeeds: the file is empty. *)
Definition fopen_wb (w : world) : world :=
  {| control_in := control_in w; data_in := data_in w;
     send_results := send_results w; sent := sent w;
     file := Some "";
     cout := cout w; cerr := cerr w |}.

(** *** The client's functions *)

Section Client.

Variable env : environment.

(** [create_control_socket]; [fresh] is the descriptor [socket] hands
    out when it succeeds. *)
Definition create_control_socket (fresh : socket) (server_ip : string) (port : Z)
    (w : world) : socket * world :=
  match connect_to env server_ip port with
  | SocketFailed => (NoSocket, write_cerr ("Socket creation failed!" +:+ endl) w)
  | ConnectFailed => (NoSocket, write_cerr ("Connection failed!" +:+ endl) w)
  | Connected => (fresh, w)
  end.

(** [send_ftp_command]. *)
Definition send_ftp_command (sockfd : socket) (command : string) (w : world) : world :=
  let cmd := command +:+ String "013" (String "010" "") in
  let '(n, w) := send sockfd cmd w in
  if n <? 0 then write_cerr ("Failed to send command!" +:+ endl) w else w.

(** [receive_ftp_response]. *)
Definition receive_ftp_response (sockfd : socket) (w : world) : string * world :=
  let '(bytes_received, buffer, w) := recv sockfd 4095 w in
  if bytes_received <? 0
  then ("", write_cerr ("Failed to receive response!" +:+ endl) w)
  else (c_string buffer, w).

(** The six [int]s of [enter_passive_mode] after the [sscanf]: those it
    assigned, the others still holding what they held when declared
    without an initialiser. *)
Definition scanned (assigned : list Z) (k : nat) : Z :=
  match assigned !! k with
  | Some value => value
  | None => wrap_int (indeterminate env k)
  end.

(** The address [enter_passive_mode] builds from its six [int]s. *)
Definition data_ip_of (n : nat -> Z) : string :=
  to_string (n 0%nat) +:+ "." +:+ to_string (n 1%nat) +:+ "."
  +:+ to_string (n 2%nat) +:+ "." +:+ to_string (n 3%nat).

Definition data_port_of (n : nat -> Z) : Z :=
  wrap_int (wrap_int (n 4%nat * 256) + n 5%nat).

(** [enter_passive_mode]. *)
Definition enter_passive_mode (sockfd : socket) (w : world) : result string * world :=
  let w := send_ftp_command sockfd "PASV" w in
  let '(response, w) := receive_ftp_response sockfd w in
  let w := write_cout ("Response: " +:+ response +:+ endl) w in
  let start_pos := size_t (find "(" response + 1) in
  let end_pos := find ")" response in
  match substr response start_pos (size_t (end_pos - start_pos)) with
  | Throws e => (Throws e, w)
  | Returns passive_info =>
      let assigned := sscanf_ints 6 passive_info in
      let data_ip := data_ip_of (scanned assigned) in
      let data_port := data_port_of (scanned assigned) in
      let w := write_cout ("Data Connection IP: " +:+ data_ip +:+ ", Port: "
                           +:+ to_string data_port +:+ endl) w in
      (Returns (data_ip +:+ ":" +:+ to_string data_port), w)
  end.

(** The [while] loop of [ftp_download_file]; [fuel] bounds the number
    of iterations. *)
Fixpoint receive_loop (fuel : nat) (data_sockfd : socket) (w : world) : world :=
  match fuel with
  | O => w
  | S fuel' =>
      let '(bytes_received, buffer, w) := recv data_sockfd 1024 w in
      if 0 <? bytes_received
      then receive_loop fuel' data_sockfd (fwrite buffer w)
      else w
  end.

(** The bytes still to come on the data connection, one more per
    pending result: more iterations than that the loop cannot make. *)
Fixpoint pending_size (l : list recv_result) : nat :=
  match l with
  | [] => O
  | RecvData bytes :: rest => S (String.length bytes + pending_size rest)
  | RecvError :: rest => S (pending_size rest)
  end.

(** The chunks of a transfer put together. *)
Fixpoint join (chunks : list string) : string :=
  match chunks with
  | [] => ""
  | chunk :: rest => chunk +:+ join rest
  end.

(** A result of [recv] that is not positive: an error, or the peer
    having closed the connection. *)
Definition ends_transfer (r : recv_result) : Prop :=
  r = RecvError \/ r = RecvData "".

(** [ftp_download_file]. *)
Definition ftp_download_file (sockfd : socket) (remote_file local_file : string)
    (w : world) : result unit * world :=
  match enter_passive_mode sockfd w with
  | (Throws e, w) => (Throws e, w)
  | (Returns data_address, w) =>
      match substr data_address 0 (find ":" data_address) with
      | Throws e => (Throws e, w)
      | Returns data_ip =>
          match substr data_address (size_t (find ":" data_address + 1)) npos with
          | Throws e => (Throws e, w)
          | Returns port_text =>
              match stoi port_text with
              | Throws e => (Throws e, w)
              | Returns data_port =>
                  let '(data_sockfd, w) :=
                    create_control_socket Data data_ip data_port w in
                  let w := send_ftp_command sockfd ("RETR " +:+ remote_file) w in
                  let '(response, w) := receive_ftp_response sockfd w in
                  let w := write_cout ("Response: " +:+ response +:+ endl) w in
                  if fopen_succeeds env then
                    let w := fopen_wb w in
                    let w := receive_loop (S (pending_size (data_in w))) data_sockfd w in
                    (Returns (),
                     write_cout ("File downloaded successfully." +:+ endl) w)
                  else
                    (Returns (), write_cerr ("Failed to open file!" +:+ endl) w)
              end
          end
      end
  end.

End Client.

(** [c] is not in [str]. *)
Fixpoint misses (c : ascii) (str : string) : bool :=
  match str with
  | EmptyString => true
  | String c' rest => negb (Ascii.eqb c' c) && misses c rest
  end.

(** Operations on the control connection and on the console leave the
    data connection and the local file alone. *)
Definition same_transfer (w w' : world) : Prop :=
  data_in w' = data_in w /\ file w' = file w.

Definition success_line : string := "File downloaded successfully." +:+ endl.

(** A server that accepts every connection, a local file that opens. *)
Definition example_environment : environment :=
  {| connect_to := fun _ _ => Connected;
     fopen_succeeds := true;
     indeterminate := fun k => Z.of_nat k + 7 |}.

(** The reply of the tutorial to [PASV], a reply to [RETR], and a
    transfer broken off by an error after two chunks. *)
Definition example_world : world :=
  {| control_in := [RecvData "227 Entering Passive Mode (192,168,1,1,19,200)";
                    RecvData "150 Opening data connection."];
     data_in := [RecvData "hello "; RecvData "world"; RecvError; RecvData "!"];
     send_results := []; sent := []; file := None; cout := ""; cerr := "" |}.

(** [ftp_login]. *)
Definition ftp_login (sockfd : socket) (username password : string) (w : world)
  : world :=
  let w := send_ftp_command sockfd ("USER " +:+ username) w in
  let '(response, w) := receive_ftp_response sockfd w in
  let w := write_cout ("Response: " +:+ response +:+ endl) w in
  let w := send_ftp_command sockfd ("PASS " +:+ password) w in
  let '(response, w) := receive_ftp_response sockfd w in
  write_cout ("Response: " +:+ response +:+ endl) w.

(** [main] of the client: the value it returns, or the exception that
    leaves it. *)
Definition main (env : environment) (w : world) : result Z * world :=
  let server_ip := "ftp.example.com" in
  let username := "user" in
  let password := "password" in
  let '(control_sockfd, w) := create_control_socket env Control server_ip 21 w in
  match control_sockfd with
  | NoSocket => (Returns (-1), w)
  | _ =>
      let w := ftp_login control_sockfd username password w in
      let remote_file := "example.txt" in
      let local_file := "example_downloaded.txt" in
      match ftp_download_file env control_sockfd remote_file local_file w with
      | (Throws e, w) => (Throws e, w)
      | (Returns _, w) => (Returns 0, w)
      end
  end.

(** The end of a command line, carriage return and line feed. *)
Definition crlf : string := String "013" (String "010" "").

(** The six numbers of a PASV reply as the server writes them. *)
Definition comma_separated (h1 h2 h3 h4 p1 p2 : Z) : string :=
  to_string h1 +:+ "," +:+ to_string h2 +:+ "," +:+ to_string h3 +:+ ","
  +:+ to_string h4 +:+ "," +:+ to_string p1 +:+ "," +:+ to_string p2.

(** A reply to PASV as the protocol has it: the six numbers between
    parentheses, with any text before and after. *)
Definition pasv_reply (prefix suffix : string) (h1 h2 h3 h4 p1 p2 : Z) : string :=
  prefix +:+ "(" +:+ comma_separated h1 h2 h3 h4 p1 p2 +:+ ")" +:+ suffix.

(** The address h1.h2.h3.h4. *)
Definition dotted (h1 h2 h3 h4 : Z) : string :=
  to_string h1 +:+ "." +:+ to_string h2 +:+ "." +:+ to_string h3
  +:+ "." +:+ to_string h4.

(** What [enter_passive_mode] receives in answer to its PASV. *)
Definition pasv_response (w : world) : string :=
  (receive_ftp_response Control (send_ftp_command Control "PASV" w)).1.

(** Something that is not the start of a number: the end of the input or
    a byte that is no digit. *)
Definition no_digit_first (rest : string) : Prop :=
  match rest with
  | EmptyString => True
  | String c _ => digit_value c = None
  end.

(** *** Facts about the string functions *)

Lemma size_nonneg str : 0 <= size str.
Proof. unfold size. lia. Qed.

Lemma append_String c a b : String c a +:+ b = String c (a +:+ b).
Proof. reflexivity. Qed.

Lemma append_empty b : "" +:+ b = b.
Proof. reflexivity. Qed.

Lemma length_append a b :
  String.length (a +:+ b) = (String.length a + String.length b)%nat.
Proof. induction a as [|c a IH]; simpl; [done | by rewrite IH]. Qed.

Lemma size_append a b : size (a +:+ b) = size a + size b.
Proof. unfold size. rewrite length_append. lia. Qed.

Lemma substring_all str n :
  (String.length str <= n)%nat -> String.substring 0 n str = str.
Proof.
  revert n. induction str as [|c str IH]; intros n Hn; simpl.
  - by destruct n.
  - destruct n as [|n]; simpl in *; [lia|]. rewrite IH by lia. done.
Qed.

Lemma substring_prefix a b :
  String.substring 0 (String.length a) (a +:+ b) = a.
Proof.
  induction a as [|c a IH]; simpl.
  - by destruct b.
  - by rewrite IH.
Qed.

Lemma substring_after a c b n :
  (String.length b <= n)%nat ->
  String.substring (S (String.length a)) n (a +:+ String c b) = b.
Proof.
  intros Hn. induction a as [|c' a IH]; simpl.
  - by apply substring_all.
  - exact IH.
Qed.

Lemma substring_split str n :
  (n <= String.length str)%nat ->
  String.substring 0 n str
    +:+ String.substring n (String.length str - n) str = str.
Proof.
  revert n. induction str as [|c str IH]; intros n Hn; simpl in *.
  - by destruct n.
  - destruct n as [|n]; simpl.
    + by rewrite substring_all.
    + rewrite append_String. f_equal. apply IH. lia.
Qed.

Lemma substring_length str n m :
  (n + m <= String.length str)%nat ->
  String.length (String.substring n m str) = m.
Proof.
  revert n m. induction str as [|c str IH]; intros n m Hn; simpl in *.
  - destruct n, m; simpl in *; lia.
  - destruct n as [|n].
    + destruct m as [|m]; simpl; [done|]. rewrite IH by lia. done.
    + apply IH. lia.
Qed.

Lemma misses_String c c' rest :
  misses c (String c' rest) = negb (Ascii.eqb c' c) && misses c rest.
Proof. reflexivity. Qed.

Lemma misses_append c a b : misses c (a +:+ b) = misses c a && misses c b.
Proof.
  induction a as [|c' a IH]; simpl; [done|].
  change (String.append a b) with (a +:+ b).
  rewrite IH. by rewrite andb_assoc.
Qed.

Lemma find_from_bounds c str index :
  find_from c str index = npos
  \/ index <= find_from c str index < index + size str.
Proof.
  revert index. induction str as [|c' str IH]; intros index; simpl; [by left|].
  unfold size in *. simpl String.length.
  destruct (Ascii.eqb c' c); [right; lia|].
  destruct (IH (index + 1)) as [->|H]; [by left | right; lia].
Qed.

Lemma find_from_first c a b index :
  misses c a = true ->
  find_from c (a +:+ String c b) index = index + size a.
Proof.
  revert index. induction a as [|c' a IH]; intros index Hmiss; simpl in *.
  - rewrite Ascii.eqb_refl. unfold size. simpl. lia.
  - apply andb_prop in Hmiss as [Hc Hmiss].
    apply negb_true_iff in Hc. rewrite Hc.
    change (String.append a (String c b)) with (a +:+ String c b).
    rewrite IH by done. unfold size. simpl String.length. lia.
Qed.

(** The position after the first [c] is never past the end of a string
    of representable size. *)
Lemma after_find_in_range c str :
  size str < 2 ^ 64 ->
  0 <= size_t (find c str + 1) <= size str.
Proof.
  intros Hlt. pose proof (size_nonneg str) as Hsize. unfold find.
  destruct (find_from_bounds c str 0) as [->|H].
  - unfold size_t, npos. change ((2 ^ 64 - 1 + 1) mod 2 ^ 64) with 0. lia.
  - unfold size_t. rewrite Z.mod_small by lia. lia.
Qed.

Lemma c_string_length bytes :
  (String.length (c_string bytes) <= String.length bytes)%nat.
Proof.
  induction bytes as [|c bytes IH]; simpl; [done|].
  destruct (Ascii.eqb c "000"); simpl; lia.
Qed.

Lemma substring_length_le str n m :
  (String.length (String.substring n m str) <= m)%nat.
Proof.
  revert n m. induction str as [|c str IH]; intros n m; simpl.
  - destruct n, m; simpl; lia.
  - destruct n as [|n]; [|apply IH].
    destruct m as [|m]; simpl; [lia|]. specialize (IH 0%nat m). lia.
Qed.

(** *** Decimal printing and scanning agree *)

Lemma digit_value_char x :
  (x < 10)%N -> digit_value (pretty_N_char x) = Some (Z.of_N x).
Proof.
  intros Hx.
  assert (x = 0 \/ x = 1 \/ x = 2 \/ x = 3 \/ x = 4 \/ x = 5 \/ x = 6
          \/ x = 7 \/ x = 8 \/ x = 9)%N as Hcases by lia.
  repeat destruct Hcases as [->|Hcases]; try reflexivity.
  by subst.
Qed.

Lemma digit_not_space c d : digit_value c = Some d -> isspace c = false.
Proof.
  unfold digit_value, isspace. intros Hd.
  destruct ((48 <=? Z.of_nat (nat_of_ascii c))
            && (Z.of_nat (nat_of_ascii c) <=? 57)) eqn:Hrange; [|done].
  apply andb_prop in Hrange as [H1 H2].
  apply Z.leb_le in H1. apply Z.leb_le in H2.
  apply orb_false_iff. split.
  - apply Nat.eqb_neq. lia.
  - apply andb_false_iff. right. apply Nat.leb_gt. lia.
Qed.

Lemma digit_not_char c c' d :
  digit_value c = Some d -> digit_value c' = None -> Ascii.eqb c c' = false.
Proof.
  intros Hd Hn. destruct (Ascii.eqb_spec c c') as [->|]; [congruence | done].
Qed.

Lemma pretty_N_go_spec x : forall s, exists d : nat,
  Z.of_nat d <= Z.of_N x
  /\ ((0 < x)%N -> (0 < d)%nat)
  /\ (forall c, digit_value c = None ->
        misses c (pretty_N_go x s) = misses c s)
  /\ String.length (pretty_N_go x s) = (d + String.length s)%nat
  /\ (forall acc count,
        scan_digits (pretty_N_go x s) acc count
        = scan_digits s (acc * 10 ^ Z.of_nat d + Z.of_N x) (count + d))
  /\ ((0 < x)%N -> exists c rest d0, pretty_N_go x s = String c rest
                                    /\ digit_value c = Some d0).
Proof.
  induction (N.lt_wf_0 x) as [x _ IH]; intros s.
  destruct (decide (x = 0)%N) as [->|Hx].
  { exists 0%nat. rewrite pretty_N_go_0. repeat split; try done; try lia.
    intros acc count. f_equal; lia. }
  assert (Hpos : (0 < x)%N) by lia.
  rewrite pretty_N_go_step by done.
  assert (Hdiv : (x `div` 10 < x)%N) by (by apply N.div_lt).
  destruct (IH _ Hdiv (String (pretty_N_char (x `mod` 10)) s))
    as (d & Hd & Hdpos & Hmiss & Hlen & Hscan & Hfirst).
  assert (Hmod : (x `mod` 10 < 10)%N) by (by apply N.mod_lt).
  pose proof (digit_value_char _ Hmod) as Hdigit.
  exists (S d). split.
  { assert (Z.of_N (x `div` 10) + 1 <= Z.of_N x); [|lia].
    pose proof (N.div_mod x 10 ltac:(done)) as Hdm. lia. }
  split; [lia|]. split.
  { intros c Hc. rewrite Hmiss by done. simpl.
    by rewrite (digit_not_char _ c _ Hdigit Hc). }
  split; [rewrite Hlen; simpl; lia|].
  split.
  2:{ intros _. destruct (decide (x `div` 10 = 0)%N) as [Hq|Hq].
      - rewrite Hq, pretty_N_go_0. by eexists _, _, _.
      - apply Hfirst. lia. }
  intros acc count. rewrite Hscan. simpl. rewrite Hdigit.
  assert (Hval : 10 * (acc * 10 ^ Z.of_nat d + Z.of_N (x `div` 10))
                 + Z.of_N (x `mod` 10)
                 = acc * 10 ^ Z.of_nat (S d) + Z.of_N x).
  { rewrite Nat2Z.inj_succ, Z.pow_succ_r by lia.
    rewrite N2Z.inj_div, N2Z.inj_mod. change (Z.of_N 10) with 10.
    pose proof (Z.div_mod (Z.of_N x) 10 ltac:(lia)). lia. }
  rewrite Hval. f_equal. lia.
Qed.

Lemma wrap_int_range z : in_int_range (wrap_int z).
Proof.
  unfold in_int_range, wrap_int.
  pose proof (Z.mod_pos_bound (z + 2 ^ 31) (2 ^ 32) ltac:(lia)). lia.
Qed.

Lemma to_string_cases v :
  (v = 0 /\ to_string v = "0")
  \/ (0 < v /\ to_string v = pretty_N_go (Z.to_N v) "")
  \/ (v < 0 /\ to_string v = String "-" (pretty_N_go (Z.to_N (- v)) "")).
Proof.
  destruct v as [|p|p].
  - by left.
  - right. left. split; [lia|]. reflexivity.
  - right. right. split; [lia|]. reflexivity.
Qed.

Lemma to_string_misses c v :
  digit_value c = None -> c <> "-"%char -> misses c (to_string v) = true.
Proof.
  intros Hc Hdash.
  destruct (to_string_cases v) as [[_ ->]|[[_ ->]|[_ ->]]].
  - rewrite misses_String. cbn [misses]. rewrite andb_true_r.
    apply negb_true_iff. by apply (digit_not_char "0" c 0).
  - destruct (pretty_N_go_spec (Z.to_N v) "") as (_ & _ & _ & Hmiss & _).
    by rewrite Hmiss.
  - destruct (pretty_N_go_spec (Z.to_N (- v)) "") as (_ & _ & _ & Hmiss & _).
    rewrite misses_String, Hmiss by done. cbn [misses]. rewrite andb_true_r.
    apply negb_true_iff. destruct (Ascii.eqb_spec "-" c); [congruence | done].
Qed.

Lemma to_string_size v : size (to_string v) <= Z.abs v + 2.
Proof.
  unfold size.
  destruct (to_string_cases v) as [[-> ->]|[[Hv ->]|[Hv ->]]].
  - simpl. lia.
  - destruct (pretty_N_go_spec (Z.to_N v) "") as (d & Hd & _ & _ & Hlen & _).
    rewrite Hlen. simpl. lia.
  - destruct (pretty_N_go_spec (Z.to_N (- v)) "") as (d & Hd & _ & _ & Hlen & _).
    simpl String.length. rewrite Hlen. simpl. lia.
Qed.

Lemma scan_integer_digits x :
  (0 < x)%N ->
  scan_integer (pretty_N_go x "") = Some (Z.of_N x, "")
  /\ scan_integer (String "-" (pretty_N_go x "")) = Some (- Z.of_N x, "").
Proof.
  intros Hx.
  destruct (pretty_N_go_spec x "") as (d & _ & Hd & _ & _ & Hscan & Hfirst).
  destruct (Hfirst Hx) as (c & rest & d0 & Hshape & Hdigit).
  assert (Hdigits : scan_digits (pretty_N_go x "") 0 0 = (Z.of_N x, d, "")).
  { rewrite Hscan. cbn [scan_digits]. repeat f_equal; lia. }
  specialize (Hd Hx).
  split.
  - unfold scan_integer. rewrite Hshape. simpl skip_space.
    rewrite (digit_not_space c d0 Hdigit).
    rewrite (digit_not_char c "-" d0 Hdigit eq_refl).
    rewrite (digit_not_char c "+" d0 Hdigit eq_refl).
    rewrite <- Hshape, Hdigits. by destruct d; [lia|].
  - unfold scan_integer. simpl skip_space. simpl.
    rewrite Hdigits. by destruct d; [lia|].
Qed.

Lemma stoi_to_string v : in_int_range v -> stoi (to_string v) = Returns v.
Proof.
  unfold in_int_range. intros Hv. unfold stoi.
  destruct (to_string_cases v) as [[-> ->]|[[Hpos ->]|[Hneg ->]]].
  - reflexivity.
  - destruct (scan_integer_digits (Z.to_N v) ltac:(lia)) as [-> _].
    rewrite Z2N.id by lia.
    destruct (Z.leb_spec (- 2 ^ 31) v); [|lia].
    destruct (Z.ltb_spec v (2 ^ 31)); [done | lia].
  - destruct (scan_integer_digits (Z.to_N (- v)) ltac:(lia)) as [_ ->].
    rewrite Z2N.id by lia. replace (- - v) with v by lia.
    destruct (Z.leb_spec (- 2 ^ 31) v); [|lia].
    destruct (Z.ltb_spec v (2 ^ 31)); [done | lia].
Qed.

(** Taking an address [ip:port] apart again, as [ftp_download_file]
    does. *)
Lemma split_address ip port_text :
  misses ":" ip = true ->
  size ip + 1 + size port_text < 2 ^ 64 ->
  substr (ip +:+ ":" +:+ port_text) 0 (find ":" (ip +:+ ":" +:+ port_text))
  = Returns ip
  /\ substr (ip +:+ ":" +:+ port_text)
            (size_t (find ":" (ip +:+ ":" +:+ port_text) + 1)) npos
     = Returns port_text.
Proof.
  intros Hmiss Hsize.
  pose proof (size_nonneg ip) as Hip.
  pose proof (size_nonneg port_text) as Hport.
  assert (Hfind : find ":" (ip +:+ ":" +:+ port_text) = size ip).
  { unfold find. change (":" +:+ port_text) with (String ":" port_text).
    rewrite find_from_first by done. lia. }
  assert (Htotal : size (ip +:+ ":" +:+ port_text) = size ip + 1 + size port_text).
  { rewrite !size_append. unfold size. simpl. lia. }
  rewrite Hfind. unfold substr. rewrite Htotal. split.
  - destruct (Z.ltb_spec (size ip + 1 + size port_text) 0); [lia|].
    rewrite Z.min_l by lia. unfold size. rewrite Nat2Z.id.
    change (Z.to_nat 0) with 0%nat. by rewrite substring_prefix.
  - unfold size_t. rewrite Z.mod_small by lia.
    destruct (Z.ltb_spec (size ip + 1 + size port_text) (size ip + 1)); [lia|].
    rewrite Z.min_r by (unfold npos; lia).
    replace (Z.to_nat (size ip + 1)) with (S (String.length ip))
      by (unfold size; lia).
    change (":" +:+ port_text) with (String ":" port_text).
    rewrite substring_after; [done|]. unfold size. lia.
Qed.

(** *** The client's functions *)

Lemma append_assoc (a b c : string) : (a +:+ b) +:+ c = a +:+ (b +:+ c).
Proof.
  induction a as [|x a IH]; [done|].
  rewrite !append_String. by rewrite IH.
Qed.

Lemma recv_buffer_length sockfd len w :
  (String.length (recv sockfd len w).1.2 <= len)%nat.
Proof.
  unfold recv.
  destruct sockfd; simpl; try lia;
    match goal with
    | |- context [match ?l with _ => _ end] => destruct l as [|[bytes|] rest]
    end; simpl; try lia;
    destruct (Nat.leb_spec (String.length bytes) len); simpl;
    try lia; apply substring_length_le.
Qed.

Lemma receive_ftp_response_size sockfd w :
  size (receive_ftp_response sockfd w).1 <= 4095.
Proof.
  unfold receive_ftp_response.
  pose proof (recv_buffer_length sockfd 4095 w) as Hlen.
  destruct (recv sockfd 4095 w) as [[n buffer] w']. simpl in Hlen.
  destruct (n <? 0); simpl; [unfold size; simpl; lia|].
  pose proof (c_string_length buffer). unfold size. lia.
Qed.

Lemma sscanf_ints_range n : forall input,
  Forall in_int_range (sscanf_ints n input).
Proof.
  induction n as [|n IH]; intros input; simpl; [constructor|].
  destruct (scan_integer input) as [[value rest]|]; [|constructor].
  constructor; [apply wrap_int_range|].
  destruct n as [|n']; [constructor|].
  destruct rest as [|c rest]; [constructor|].
  destruct (Ascii.eqb c ","); [apply IH | constructor].
Qed.

Lemma sscanf_ints_length n : forall input,
  (length (sscanf_ints n input) <= n)%nat.
Proof.
  induction n as [|n IH]; intros input; [simpl; lia|].
  cbn [sscanf_ints].
  destruct (scan_integer input) as [[value rest]|]; cbn [length]; [|lia].
  destruct n as [|n']; [simpl; lia|].
  destruct rest as [|c rest]; [simpl; lia|].
  destruct (Ascii.eqb c ","); [|simpl; lia].
  specialize (IH rest). lia.
Qed.

Lemma scanned_range env assigned k :
  Forall in_int_range assigned -> in_int_range (scanned env assigned k).
Proof.
  intros Hall. unfold scanned.
  destruct (assigned !! k) as [value|] eqn:Hk; [|apply wrap_int_range].
  eapply Forall_lookup_1; eauto.
Qed.

Lemma data_ip_misses n : misses ":" (data_ip_of n) = true.
Proof.
  unfold data_ip_of. rewrite !misses_append.
  rewrite !to_string_misses by done. reflexivity.
Qed.

Lemma data_ip_size n :
  (forall k, in_int_range (n k)) -> size (data_ip_of n) <= 2 ^ 34.
Proof.
  intros Hn. unfold data_ip_of. rewrite !size_append.
  pose proof (to_string_size (n 0%nat)). pose proof (Hn 0%nat).
  pose proof (to_string_size (n 1%nat)). pose proof (Hn 1%nat).
  pose proof (to_string_size (n 2%nat)). pose proof (Hn 2%nat).
  pose proof (to_string_size (n 3%nat)). pose proof (Hn 3%nat).
  unfold in_int_range in *. change (size ".") with 1. lia.
Qed.

(** [enter_passive_mode] returns an address whatever the reply is. *)
Lemma enter_passive_mode_returns env sockfd w :
  exists assigned,
    Forall in_int_range assigned
    /\ (length assigned <= 6)%nat
    /\ (enter_passive_mode env sockfd w).1
       = Returns (data_ip_of (scanned env assigned) +:+ ":"
                  +:+ to_string (data_port_of (scanned env assigned))).
Proof.
  unfold enter_passive_mode.
  pose proof (receive_ftp_response_size sockfd (send_ftp_command sockfd "PASV" w))
    as Hsize.
  destruct (receive_ftp_response sockfd (send_ftp_command sockfd "PASV" w))
    as [response w']. simpl in Hsize.
  pose proof (after_find_in_range "(" response ltac:(lia)) as Hstart.
  unfold substr.
  destruct (Z.ltb_spec (size response) (size_t (find "(" response + 1))); [lia|].
  eexists. split; [apply sscanf_ints_range|].
  split; [apply sscanf_ints_length|]. reflexivity.
Qed.

Lemma same_transfer_refl w : same_transfer w w.
Proof. by split. Qed.

Lemma same_transfer_trans w1 w2 w3 :
  same_transfer w1 w2 -> same_transfer w2 w3 -> same_transfer w1 w3.
Proof. unfold same_transfer. intros [-> ->] [-> ->]. done. Qed.

Lemma write_cout_same text w : same_transfer w (write_cout text w).
Proof. by split. Qed.

Lemma write_cerr_same text w : same_transfer w (write_cerr text w).
Proof. by split. Qed.

Lemma send_ftp_command_same sockfd command w :
  same_transfer w (send_ftp_command sockfd command w).
Proof.
  unfold send_ftp_command, send.
  destruct (send_results w) as [|ok results]; destruct sockfd;
    repeat match goal with
           | |- context [if ?b then _ else _] => destruct b
           end; by split.
Qed.

Lemma receive_ftp_response_control_same w :
  same_transfer w (receive_ftp_response Control w).2.
Proof.
  unfold receive_ftp_response, recv. simpl.
  destruct (control_in w) as [|[bytes|] rest]; simpl; try by split.
  destruct (String.length bytes <=? 4095)%nat; simpl.
  - unfold size. destruct (Z.ltb_spec (Z.of_nat (String.length bytes)) 0);
      [lia | by split].
  - by split.
Qed.

Lemma enter_passive_mode_same env w :
  same_transfer w (enter_passive_mode env Control w).2.
Proof.
  unfold enter_passive_mode.
  pose proof (send_ftp_command_same Control "PASV" w) as H1.
  pose proof (receive_ftp_response_control_same (send_ftp_command Control "PASV" w))
    as H2.
  destruct (receive_ftp_response Control (send_ftp_command Control "PASV" w))
    as [response w']. simpl in H2.
  assert (H3 : same_transfer w w') by (by eapply same_transfer_trans).
  destruct (substr response _ _); simpl; exact H3.
Qed.

Lemma create_control_socket_same env fresh ip port w :
  same_transfer w (create_control_socket env fresh ip port w).2.
Proof.
  unfold create_control_socket. by destruct (connect_to env ip port); split.
Qed.

Lemma receive_loop_no_socket fuel w : receive_loop fuel NoSocket w = w.
Proof. by destruct fuel. Qed.

(** The loop writes the chunks that arrive before the first result that
    is not positive, takes that one result, and stops. *)
Lemma receive_loop_data fuel : forall chunks tail w,
  data_in w = map RecvData chunks ++ tail ->
  Forall (fun chunk => chunk <> "") chunks ->
  (tail = [] \/ exists stop later, tail = stop :: later /\ ends_transfer stop) ->
  (pending_size (data_in w) < fuel)%nat ->
  data_in (receive_loop fuel Data w) = drop 1 tail
  /\ file (receive_loop fuel Data w)
     = (fun contents => contents +:+ join chunks) <$> file w
  /\ cout (receive_loop fuel Data w) = cout w
  /\ cerr (receive_loop fuel Data w) = cerr w
  /\ control_in (receive_loop fuel Data w) = control_in w
  /\ sent (receive_loop fuel Data w) = sent w.
Proof.
  induction fuel as [|fuel IH]; intros chunks tail w Hdata Hchunks Htail Hfuel;
    [lia|].
  destruct chunks as [|chunk chunks].
  - simpl in Hdata. simpl. unfold recv. simpl. rewrite Hdata.
    assert (Hid : forall o : option string,
              (fun contents => contents +:+ "") <$> o = o).
    { intros [contents|]; simpl; [|done]. f_equal.
      induction contents as [|x contents IHc]; [done|].
      rewrite append_String. by rewrite IHc. }
    destruct Htail as [->|(stop & later & -> & [->| ->])]; simpl;
      by rewrite Hid.
  - simpl in Hdata. apply Forall_cons in Hchunks as [Hne Hchunks].
    cbn [receive_loop]. unfold recv. cbn [pending]. rewrite Hdata.
    rewrite Hdata in Hfuel. cbn [pending_size] in Hfuel.
    assert (Hlen : (0 < String.length chunk)%nat).
    { destruct chunk; [done | simpl; lia]. }
    destruct (Nat.leb_spec (String.length chunk) 1024) as [Hshort|Hlong].
    + destruct (Z.ltb_spec 0 (size chunk)) as [_|Hz]; [|unfold size in Hz; lia].
      destruct (IH chunks tail
                  (fwrite chunk (set_pending Data (map RecvData chunks ++ tail) w)))
        as (H1 & H2 & H3 & H4 & H5 & H6); try done.
      { simpl. lia. }
      rewrite H1, H2, H3, H4, H5, H6. simpl.
      repeat split; try done.
      destruct (file w) as [contents|]; simpl; [|done].
      by rewrite append_assoc.
    + destruct (Z.ltb_spec 0 (Z.of_nat 1024)) as [_|Hz]; [|lia].
      set (suffix := String.substring 1024 (String.length chunk - 1024) chunk).
      assert (Hsuffix : String.length suffix = (String.length chunk - 1024)%nat).
      { apply substring_length. lia. }
      destruct (IH (suffix :: chunks) tail
                  (fwrite (String.substring 0 1024 chunk)
                     (set_pending Data
                        (RecvData suffix :: map RecvData chunks ++ tail) w)))
        as (H1 & H2 & H3 & H4 & H5 & H6); try done.
      { constructor; [|done]. intros Hempty. rewrite Hempty in Hsuffix.
        simpl in Hsuffix. lia. }
      { simpl. lia. }
      rewrite H1, H2, H3, H4, H5, H6. simpl.
      repeat split; try done.
      destruct (file w) as [contents|]; simpl; [|done].
      rewrite append_assoc. f_equal. f_equal.
      rewrite <- append_assoc. f_equal.
      apply (substring_split chunk 1024). lia.
Qed.

(** With the local file open, [ftp_download_file] always gets to the
    receive loop and to the success line after it. *)
Lemma ftp_download_file_runs env remote_file local_file w :
  fopen_succeeds env = true ->
  exists data_sockfd w0,
    ftp_download_file env Control remote_file local_file w
    = (Returns (),
       write_cout success_line
         (receive_loop (S (pending_size (data_in w0))) data_sockfd w0))
    /\ data_in w0 = data_in w
    /\ file w0 = Some ""
    /\ (data_sockfd = Data \/ data_sockfd = NoSocket)
    /\ ((forall ip port, connect_to env ip port = Connected) -> data_sockfd = Data)
    /\ ((forall ip port, connect_to env ip port <> Connected) ->
          data_sockfd = NoSocket).
Proof.
  intros Hfopen. unfold ftp_download_file.
  destruct (enter_passive_mode_returns env Control w)
    as (assigned & Hrange & _ & Haddress).
  pose proof (enter_passive_mode_same env w) as Hsame1.
  destruct (enter_passive_mode env Control w) as [r w1].
  simpl in Haddress, Hsame1. subst r.
  set (n := scanned env assigned).
  assert (Hn : forall k, in_int_range (n k)) by (intros k; by apply scanned_range).
  assert (Hport : in_int_range (data_port_of n)) by apply wrap_int_range.
  destruct (split_address (data_ip_of n) (to_string (data_port_of n)))
    as [Hip Htext].
  { apply data_ip_misses. }
  { pose proof (data_ip_size n Hn). pose proof (to_string_size (data_port_of n)).
    unfold in_int_range in Hport. lia. }
  rewrite Hip, Htext, (stoi_to_string _ Hport).
  pose proof (create_control_socket_same env Data (data_ip_of n) (data_port_of n) w1)
    as Hsame2.
  assert (Hsock :
    ((create_control_socket env Data (data_ip_of n) (data_port_of n) w1).1 = Data
     \/ (create_control_socket env Data (data_ip_of n) (data_port_of n) w1).1
        = NoSocket)
    /\ ((forall ip port, connect_to env ip port = Connected) ->
       (create_control_socket env Data (data_ip_of n) (data_port_of n) w1).1 = Data)
    /\ ((forall ip port, connect_to env ip port <> Connected) ->
          (create_control_socket env Data (data_ip_of n) (data_port_of n) w1).1
          = NoSocket)).
  { unfold create_control_socket. split; [|split; intros Hall].
    - destruct (connect_to env (data_ip_of n) (data_port_of n)); simpl; tauto.
    - by rewrite Hall.
    - specialize (Hall (data_ip_of n) (data_port_of n)).
      by destruct (connect_to env (data_ip_of n) (data_port_of n)). }
  destruct (create_control_socket env Data (data_ip_of n) (data_port_of n) w1)
    as [data_sockfd w2]. simpl in Hsame2, Hsock.
  pose proof (send_ftp_command_same Control ("RETR " +:+ remote_file) w2) as Hsame3.
  pose proof (receive_ftp_response_control_same
                (send_ftp_command Control ("RETR " +:+ remote_file) w2)) as Hsame4.
  destruct (receive_ftp_response Control
              (send_ftp_command Control ("RETR " +:+ remote_file) w2))
    as [response w3]. simpl in Hsame4.
  rewrite Hfopen.
  exists data_sockfd, (fopen_wb (write_cout ("Response: " +:+ response +:+ endl) w3)).
  split; [reflexivity|].
  split.
  { simpl. destruct Hsame1 as [H1 _], Hsame2 as [H2 _], Hsame3 as [H3 _],
      Hsame4 as [H4 _]. congruence. }
  split; [reflexivity|]. exact Hsock.
Qed.

Lemma write_cout_ends text w :
  exists before, cout (write_cout text w) = before +:+ text.
Proof. by exists (cout w). Qed.

Lemma c_string_id bytes : misses "000" bytes = true -> c_string bytes = bytes.
Proof.
  induction bytes as [|c bytes IH]; [done|].
  rewrite misses_String. intros H. apply andb_prop in H as [Hc Hrest].
  apply negb_true_iff in Hc. cbn [c_string]. rewrite Hc. by rewrite IH.
Qed.

Lemma c_string_misses bytes : misses "000" (c_string bytes) = true.
Proof.
  induction bytes as [|c bytes IH]; [done|]. cbn [c_string].
  destruct (Ascii.eqb c "000") eqn:Hc; [done|].
  rewrite misses_String, Hc, IH. done.
Qed.

Lemma misses_substring c str : forall n m,
  misses c str = true -> misses c (String.substring n m str) = true.
Proof.
  induction str as [|x str IH]; intros n m Hmiss.
  - by destruct n, m.
  - rewrite misses_String in Hmiss. apply andb_prop in Hmiss as [Hx Hrest].
    destruct n as [|n]; simpl.
    + destruct m as [|m]; [done|]. rewrite misses_String, Hx. by apply IH.
    + by apply IH.
Qed.

Lemma receive_ftp_response_misses sockfd w :
  misses "000" (receive_ftp_response sockfd w).1 = true.
Proof.
  unfold receive_ftp_response.
  destruct (recv sockfd 4095 w) as [[n buffer] w'].
  destruct (n <? 0); simpl; [done | apply c_string_misses].
Qed.

(** X18: what [receive_ftp_response] returns never has more than
    4095 bytes and never holds a NUL.  Of a reply longer than that the
    call returns the first 4095 bytes only; the remainder is not lost
    but stays first in line, so that it is what the next call to
    [recv] on the control connection gets. *)
Theorem receive_ftp_response_bounded_and_split :
  (forall sockfd w,
     size (receive_ftp_response sockfd w).1 <= 4095
     /\ misses "000" (receive_ftp_response sockfd w).1 = true)
  /\ (forall w reply rest,
        control_in w = RecvData reply :: rest ->
        (4095 < String.length reply)%nat ->
        misses "000" reply = true ->
        exists remainder,
          (receive_ftp_response Control w).1 = String.substring 0 4095 reply
          /\ control_in (receive_ftp_response Control w).2
             = RecvData remainder :: rest
          /\ (receive_ftp_response Control w).1 +:+ remainder = reply
          /\ remainder <> "").
Proof.
  split.
  { intros sockfd w. split; [apply receive_ftp_response_size|].
    apply receive_ftp_response_misses. }
  intros w reply rest Hin Hlong Hnul.
  exists (String.substring 4095 (String.length reply - 4095) reply).
  unfold receive_ftp_response, recv. cbn [pending]. rewrite Hin.
  destruct (Nat.leb_spec (String.length reply) 4095) as [|_]; [lia|].
  destruct (Z.ltb_spec (Z.of_nat 4095) 0) as [|_]; [lia|].
  cbn [fst snd set_pending control_in].
  rewrite c_string_id by (by apply misses_substring).
  split; [done|]. split; [done|].
  split; [apply substring_split; lia|].
  intros Hempty.
  pose proof (substring_length reply 4095 (String.length reply - 4095)
                ltac:(lia)) as Hlen.
  rewrite Hempty in Hlen. simpl in Hlen. lia.
Qed.

Lemma receive_ftp_response_split_witness :
  exists remainder,
    (receive_ftp_response Control
       {| control_in := [RecvData (string_of_list_ascii (repeat "a"%char 5000))];
          data_in := []; send_results := []; sent := []; file := None;
          cout := ""; cerr := "" |}).1 +:+ remainder
    = string_of_list_ascii (repeat "a"%char 5000).
Proof.
  destruct (proj2 receive_ftp_response_bounded_and_split
              {| control_in := [RecvData (string_of_list_ascii (repeat "a"%char 5000))];
                 data_in := []; send_results := []; sent := []; file := None;
                 cout := ""; cerr := "" |}
              (string_of_list_ascii (repeat "a"%char 5000)) [])
    as (remainder & _ & _ & Hjoin & _).
  - reflexivity.
  - vm_compute. lia.
  - vm_compute. reflexivity.
  - by exists remainder.
Defined.

Lemma append_nil_r (a : string) : a +:+ "" = a.
Proof. induction a as [|x a IH]; [done|]. rewrite append_String. by rewrite IH. Qed.

Lemma pretty_N_go_append x : forall s t,
  pretty_N_go x s +:+ t = pretty_N_go x (s +:+ t).
Proof.
  induction (N.lt_wf_0 x) as [x _ IH]; intros s t.
  destruct (decide (x = 0)%N) as [->|Hx]; [by rewrite !pretty_N_go_0|].
  rewrite (pretty_N_go_step x s), (pretty_N_go_step x (s +:+ t)) by lia.
  rewrite IH by (apply N.div_lt; lia). by rewrite append_String.
Qed.

Lemma scan_digits_stop rest acc count :
  no_digit_first rest -> scan_digits rest acc count = (acc, count, rest).
Proof. destruct rest as [|c rest]; simpl; [done|]. by intros ->. Qed.

Lemma scan_integer_to_string v rest :
  no_digit_first rest ->
  scan_integer (to_string v +:+ rest) = Some (v, rest).
Proof.
  intros Hrest.
  assert (Hdigits : forall x, (0 < x)%N ->
            scan_integer (pretty_N_go x rest) = Some (Z.of_N x, rest)
            /\ scan_integer (String "-" (pretty_N_go x rest))
               = Some (- Z.of_N x, rest)).
  { intros x Hx.
    destruct (pretty_N_go_spec x rest) as (d & _ & Hd & _ & _ & Hscan & Hfirst).
    destruct (Hfirst Hx) as (c & tail & d0 & Hshape & Hdigit).
    assert (Hds : scan_digits (pretty_N_go x rest) 0 0 = (Z.of_N x, d, rest)).
    { rewrite Hscan, scan_digits_stop by done. repeat f_equal; lia. }
    specialize (Hd Hx). split.
    - unfold scan_integer. rewrite Hshape. simpl skip_space.
      rewrite (digit_not_space c d0 Hdigit).
      rewrite (digit_not_char c "-" d0 Hdigit eq_refl).
      rewrite (digit_not_char c "+" d0 Hdigit eq_refl).
      rewrite <- Hshape, Hds. by destruct d; [lia|].
    - unfold scan_integer. simpl skip_space. simpl.
      rewrite Hds. by destruct d; [lia|]. }
  destruct (to_string_cases v) as [[-> ->]|[[Hpos ->]|[Hneg ->]]].
  - change ("0" +:+ rest) with (String "0" rest).
    unfold scan_integer. simpl. by rewrite scan_digits_stop.
  - rewrite pretty_N_go_append, append_empty.
    destruct (Hdigits (Z.to_N v) ltac:(lia)) as [-> _].
    by rewrite Z2N.id by lia.
  - rewrite append_String, pretty_N_go_append, append_empty.
    destruct (Hdigits (Z.to_N (- v)) ltac:(lia)) as [_ ->].
    rewrite Z2N.id by lia. by replace (- - v) with v by lia.
Qed.

Lemma saturate_long_id v : in_int_range v -> saturate_long v = v.
Proof. unfold in_int_range, saturate_long. lia. Qed.

Lemma sscanf_ints_more n v rest :
  in_int_range v ->
  sscanf_ints (S (S n)) (to_string v +:+ "," +:+ rest)
  = v :: sscanf_ints (S n) rest.
Proof.
  intros Hv. change ("," +:+ rest) with (String "," rest).
  cbn [sscanf_ints]. rewrite scan_integer_to_string by done.
  by rewrite saturate_long_id, wrap_int_id, Ascii.eqb_refl.
Qed.

Lemma sscanf_ints_last v :
  in_int_range v -> sscanf_ints 1 (to_string v) = [v].
Proof.
  intros Hv. rewrite <- (append_nil_r (to_string v)).
  cbn [sscanf_ints]. rewrite scan_integer_to_string by done.
  by rewrite saturate_long_id, wrap_int_id.
Qed.

Lemma substring_middle a c b rest :
  String.substring (S (String.length a)) (String.length b)
                   (a +:+ String c (b +:+ rest)) = b.
Proof.
  induction a as [|x a IH]; [|exact IH].
  rewrite append_empty. simpl. apply substring_prefix.
Qed.

Lemma wrap_int_add_l a b : wrap_int (wrap_int a + b) = wrap_int (a + b).
Proof.
  unfold wrap_int. f_equal.
  replace ((a + 2 ^ 31) mod 2 ^ 32 - 2 ^ 31 + b + 2 ^ 31)
    with ((a + 2 ^ 31) mod 2 ^ 32 + b) by lia.
  rewrite Z.add_mod_idemp_l by lia. f_equal. lia.
Qed.

Lemma send_ftp_command_control_in sockfd command w :
  control_in (send_ftp_command sockfd command w) = control_in w.
Proof.
  unfold send_ftp_command, send.
  destruct (send_results w) as [|ok results]; destruct sockfd;
    repeat match goal with
           | |- context [if ?b then _ else _] => destruct b
           end; reflexivity.
Qed.

Lemma comma_separated_misses c h1 h2 h3 h4 p1 p2 :
  digit_value c = None -> c <> "-"%char -> c <> ","%char ->
  misses c (comma_separated h1 h2 h3 h4 p1 p2) = true.
Proof.
  intros Hd Hdash Hcomma. unfold comma_separated.
  rewrite !misses_append, !to_string_misses by done.
  assert (Hc : misses c "," = true).
  { rewrite misses_String. cbn [misses]. rewrite andb_true_r.
    apply negb_true_iff. destruct (Ascii.eqb_spec "," c); [congruence | done]. }
  by rewrite Hc.
Qed.

(** A well-formed reply to PASV under the client's parsing: the reply
    is received whole, the text between the first parentheses is cut
    out, and [sscanf] assigns the six numbers. *)
Lemma pasv_reply_parsed (w : world) (prefix suffix : string)
    (rest : list recv_result) (h1 h2 h3 h4 p1 p2 : Z) :
  let reply := pasv_reply prefix suffix h1 h2 h3 h4 p1 p2 in
  Forall in_int_range [h1; h2; h3; h4; p1; p2] ->
  misses "(" prefix = true ->
  misses ")" prefix = true ->
  misses "000" reply = true ->
  (String.length reply <= 4095)%nat ->
  control_in w = RecvData reply :: rest ->
  pasv_response w = reply
  /\ substr reply (size_t (find "(" reply + 1))
            (size_t (find ")" reply - size_t (find "(" reply + 1)))
     = Returns (comma_separated h1 h2 h3 h4 p1 p2)
  /\ sscanf_ints 6 (comma_separated h1 h2 h3 h4 p1 p2) = [h1; h2; h3; h4; p1; p2].
Proof.
  intros reply Hrange Hopen Hclose Hnul Hlen Hin.
  set (numbers := comma_separated h1 h2 h3 h4 p1 p2) in *.
  assert (Hreply : reply = prefix +:+ "(" +:+ numbers +:+ ")" +:+ suffix)
    by reflexivity.
  split.
  { unfold pasv_response, receive_ftp_response, recv. cbn [pending].
    rewrite send_ftp_command_control_in, Hin.
    destruct (Nat.leb_spec (String.length reply) 4095) as [_|]; [|lia].
    unfold size. destruct (Z.ltb_spec (Z.of_nat (String.length reply)) 0); [lia|].
    simpl. by apply c_string_id. }
  split.
  { assert (Hstart : find "(" reply = size prefix).
    { unfold find. rewrite Hreply. change ("(" +:+ numbers +:+ ")" +:+ suffix)
        with (String "(" (numbers +:+ ")" +:+ suffix)).
      rewrite find_from_first by done. lia. }
    assert (Hend : find ")" reply = size prefix + 1 + size numbers).
    { unfold find. rewrite Hreply.
      replace (prefix +:+ "(" +:+ numbers +:+ ")" +:+ suffix)
        with ((prefix +:+ "(" +:+ numbers) +:+ String ")" suffix)
        by (by rewrite !append_assoc).
      rewrite find_from_first.
      - rewrite !size_append. change (size "(") with 1. lia.
      - rewrite !misses_append, Hclose. unfold numbers.
        by rewrite comma_separated_misses. }
    pose proof (size_nonneg prefix) as Hp. pose proof (size_nonneg numbers) as Hn.
    assert (Hsize : size reply = size prefix + 1 + size numbers + 1 + size suffix).
    { rewrite Hreply, !size_append.
      change (size "(") with 1. change (size ")") with 1. lia. }
    pose proof (size_nonneg suffix) as Hs.
    assert (Hbound : size reply <= 4095) by (unfold size; lia).
    rewrite Hstart, Hend. unfold size_t.
    rewrite (Z.mod_small (size prefix + 1)) by lia.
    replace (size prefix + 1 + size numbers - (size prefix + 1)) with (size numbers)
      by lia.
    rewrite (Z.mod_small (size numbers)) by lia.
    unfold substr.
    destruct (Z.ltb_spec (size reply) (size prefix + 1)) as [|_]; [lia|].
    rewrite Z.min_l by lia.
    replace (Z.to_nat (size prefix + 1)) with (S (String.length prefix))
      by (unfold size; lia).
    replace (Z.to_nat (size numbers)) with (String.length numbers)
      by (unfold size; lia).
    rewrite Hreply. change ("(" +:+ numbers +:+ ")" +:+ suffix)
      with (String "(" (numbers +:+ ")" +:+ suffix)).
    by rewrite substring_middle. }
  inversion Hrange as [|? ? R1 Hr1]; subst.
  inversion Hr1 as [|? ? R2 Hr2]; subst.
  inversion Hr2 as [|? ? R3 Hr3]; subst.
  inversion Hr3 as [|? ? R4 Hr4]; subst.
  inversion Hr4 as [|? ? R5 Hr5]; subst.
  inversion Hr5 as [|? ? R6 _]; subst.
  unfold numbers, comma_separated.
  rewrite !sscanf_ints_more by done. by rewrite sscanf_ints_last.
Qed.

(** [enter_passive_mode] on any reply whatever: the text between the
    positions [find] gives is cut out, never a position out of range,
    and the address is built from what [sscanf] assigned. *)
Lemma enter_passive_mode_parses env w :
  exists passive_info,
    substr (pasv_response w) (size_t (find "(" (pasv_response w) + 1))
           (size_t (find ")" (pasv_response w)
                    - size_t (find "(" (pasv_response w) + 1)))
    = Returns passive_info
    /\ (enter_passive_mode env Control w).1
       = Returns (data_ip_of (scanned env (sscanf_ints 6 passive_info)) +:+ ":"
                  +:+ to_string (data_port_of (scanned env (sscanf_ints 6 passive_info)))).
Proof.
  unfold enter_passive_mode, pasv_response.
  pose proof (receive_ftp_response_size Control (send_ftp_command Control "PASV" w))
    as Hsize.
  destruct (receive_ftp_response Control (send_ftp_command Control "PASV" w))
    as [response w']. simpl in Hsize. cbn [fst].
  pose proof (after_find_in_range "(" response ltac:(lia)) as Hstart.
  unfold substr.
  destruct (Z.ltb_spec (size response) (size_t (find "(" response + 1))); [lia|].
  eexists. split; reflexivity.
Qed.

(** The six numbers as [enter_passive_mode] puts them together. *)
Lemma scanned_six env (h1 h2 h3 h4 p1 p2 : Z) :
  in_int_range (p1 * 256 + p2) ->
  data_ip_of (scanned env [h1; h2; h3; h4; p1; p2]) = dotted h1 h2 h3 h4
  /\ data_port_of (scanned env [h1; h2; h3; h4; p1; p2]) = p1 * 256 + p2.
Proof.
  intros Hport. split; [reflexivity|].
  unfold data_port_of, scanned. cbn [lookup list_lookup].
  by rewrite wrap_int_add_l, wrap_int_id.
Qed.

(** [ftp_download_file] connects to the address [enter_passive_mode]
    has returned: the text before the colon, and the number after it. *)
Lemma ftp_download_file_connects env remote_file local_file w ip port :
  (enter_passive_mode env Control w).1 = Returns (ip +:+ ":" +:+ to_string port) ->
  misses ":" ip = true ->
  size ip + 1 + size (to_string port) < 2 ^ 64 ->
  in_int_range port ->
  fopen_succeeds env = true ->
  exists w0,
    ftp_download_file env Control remote_file local_file w
    = (Returns (),
       write_cout success_line
         (receive_loop (S (pending_size (data_in w0)))
            (match connect_to env ip port with
             | Connected => Data
             | _ => NoSocket
             end) w0))
    /\ data_in w0 = data_in w
    /\ file w0 = Some "".
Proof.
  intros Haddress Hip Hsize Hport Hfopen. unfold ftp_download_file.
  pose proof (enter_passive_mode_same env w) as Hsame1.
  destruct (enter_passive_mode env Control w) as [r w1].
  simpl in Haddress, Hsame1. subst r.
  destruct (split_address ip (to_string port) Hip Hsize) as [-> ->].
  rewrite (stoi_to_string _ Hport).
  pose proof (create_control_socket_same env Data ip port w1) as Hsame2.
  assert (Hsock : (create_control_socket env Data ip port w1).1
                  = match connect_to env ip port with
                    | Connected => Data
                    | _ => NoSocket
                    end).
  { unfold create_control_socket. by destruct (connect_to env ip port). }
  destruct (create_control_socket env Data ip port w1) as [data_sockfd w2].
  simpl in Hsame2, Hsock. subst data_sockfd.
  pose proof (send_ftp_command_same Control ("RETR " +:+ remote_file) w2) as Hsame3.
  pose proof (receive_ftp_response_control_same
                (send_ftp_command Control ("RETR " +:+ remote_file) w2)) as Hsame4.
  destruct (receive_ftp_response Control
              (send_ftp_command Control ("RETR " +:+ remote_file) w2))
    as [response w3]. simpl in Hsame4.
  rewrite Hfopen.
  exists (fopen_wb (write_cout ("Response: " +:+ response +:+ endl) w3)).
  split; [reflexivity|]. split; [|reflexivity].
  simpl. destruct Hsame1 as [H1 _], Hsame2 as [H2 _], Hsame3 as [H3 _],
    Hsame4 as [H4 _]. congruence.
Qed.

(** The receive loop on a transfer of [chunks] that ends with [tail]:
    with a data connection the chunks are written and the result that
    ends the transfer is taken; without one, nothing is read. *)
Lemma receive_loop_outcome chunks tail w w0 data_sockfd :
  data_in w = map RecvData chunks ++ tail ->
  Forall (fun chunk => chunk <> "") chunks ->
  (tail = [] \/ exists stop later, tail = stop :: later /\ ends_transfer stop) ->
  data_in w0 = data_in w ->
  file w0 = Some "" ->
  (data_sockfd = Data ->
     file (write_cout success_line
             (receive_loop (S (pending_size (data_in w0))) data_sockfd w0))
     = Some (join chunks)
     /\ data_in (write_cout success_line
                   (receive_loop (S (pending_size (data_in w0))) data_sockfd w0))
        = drop 1 tail)
  /\ (data_sockfd = NoSocket ->
        file (write_cout success_line
                (receive_loop (S (pending_size (data_in w0))) data_sockfd w0))
        = Some ""
        /\ data_in (write_cout success_line
                      (receive_loop (S (pending_size (data_in w0))) data_sockfd w0))
           = data_in w).
Proof.
  intros Hdata Hchunks Htail Hdata0 Hfile0. split.
  - intros ->.
    destruct (receive_loop_data (S (pending_size (data_in w0))) chunks tail w0)
      as (H1 & H2 & _); try done; [congruence | lia |].
    destruct (write_cout_same success_line
                (receive_loop (S (pending_size (data_in w0))) Data w0))
      as [-> ->].
    rewrite H1, H2, Hfile0. done.
  - intros ->. rewrite receive_loop_no_socket.
    destruct (write_cout_same success_line w0) as [-> ->].
    by rewrite Hfile0, Hdata0.
Qed.

(** C4: the client handles neither failed receptions nor malformed
    replies nor interrupted transfers.  [receive_ftp_response] does one
    [recv] and hands its caller an empty string after a failure, the
    same as when the server has sent nothing.  [enter_passive_mode]
    parses whatever it received: it cuts out the text between the
    positions [find] gives for the parentheses, lets [sscanf] assign
    what it can, and returns an address for every reply, the [int]s
    that were not assigned standing in with what they held; a
    well-formed reply with the numbers h1,h2,h3,h4,p1,p2 gives
    h1.h2.h3.h4 and the port p1 * 256 + p2, and it is to this address
    and port that [ftp_download_file] connects.  [ftp_download_file],
    once the local file is open, stops at the first [recv] result that
    is not positive, reads nothing after it and prints "File downloaded
    successfully.", also when there was no data connection at all. *)
Theorem ftp_client_handles_no_failure :
  (forall w rest, control_in w = RecvError :: rest ->
     receive_ftp_response Control w
     = ("", write_cerr ("Failed to receive response!" +:+ endl)
                       (set_pending Control rest w)))
  /\ (forall w, control_in w = [] -> receive_ftp_response Control w = ("", w))
  /\ (forall sockfd w,
        pending sockfd (receive_ftp_response sockfd w).2
        = pending sockfd (recv sockfd 4095 w).2)
  /\ (forall env w, exists passive_info,
        substr (pasv_response w) (size_t (find "(" (pasv_response w) + 1))
               (size_t (find ")" (pasv_response w)
                        - size_t (find "(" (pasv_response w) + 1)))
        = Returns passive_info
        /\ (length (sscanf_ints 6 passive_info) <= 6)%nat
        /\ (enter_passive_mode env Control w).1
           = Returns (data_ip_of (scanned env (sscanf_ints 6 passive_info)) +:+ ":"
                      +:+ to_string
                            (data_port_of (scanned env (sscanf_ints 6 passive_info)))))
  /\ (forall env w rest, control_in w = RecvError :: rest ->
        (enter_passive_mode env Control w).1
        = Returns (data_ip_of (fun k => wrap_int (indeterminate env k)) +:+ ":"
                   +:+ to_string
                         (data_port_of (fun k => wrap_int (indeterminate env k)))))
  /\ (forall env remote_file local_file w chunks tail,
        fopen_succeeds env = true ->
        data_in w = map RecvData chunks ++ tail ->
        Forall (fun chunk => chunk <> "") chunks ->
        (tail = [] \/ exists stop later, tail = stop :: later /\ ends_transfer stop) ->
        exists w',
          ftp_download_file env Control remote_file local_file w = (Returns (), w')
          /\ (exists before, cout w' = before +:+ success_line)
          /\ ((file w' = Some (join chunks) /\ data_in w' = drop 1 tail)
              \/ (file w' = Some "" /\ data_in w' = data_in w))
          /\ ((forall ip port, connect_to env ip port = Connected) ->
                file w' = Some (join chunks) /\ data_in w' = drop 1 tail)
          /\ ((forall ip port, connect_to env ip port <> Connected) ->
                file w' = Some "" /\ data_in w' = data_in w))
  /\ (forall env w prefix suffix rest h1 h2 h3 h4 p1 p2,
        Forall in_int_range [h1; h2; h3; h4; p1; p2] ->
        in_int_range (p1 * 256 + p2) ->
        misses "(" prefix = true ->
        misses ")" prefix = true ->
        misses "000" (pasv_reply prefix suffix h1 h2 h3 h4 p1 p2) = true ->
        (String.length (pasv_reply prefix suffix h1 h2 h3 h4 p1 p2) <= 4095)%nat ->
        control_in w = RecvData (pasv_reply prefix suffix h1 h2 h3 h4 p1 p2) :: rest ->
        (enter_passive_mode env Control w).1
        = Returns (dotted h1 h2 h3 h4 +:+ ":" +:+ to_string (p1 * 256 + p2)))
  /\ (forall env remote_file local_file w prefix suffix rest h1 h2 h3 h4 p1 p2
             chunks tail,
        Forall in_int_range [h1; h2; h3; h4; p1; p2] ->
        in_int_range (p1 * 256 + p2) ->
        misses "(" prefix = true ->
        misses ")" prefix = true ->
        misses "000" (pasv_reply prefix suffix h1 h2 h3 h4 p1 p2) = true ->
        (String.length (pasv_reply prefix suffix h1 h2 h3 h4 p1 p2) <= 4095)%nat ->
        control_in w = RecvData (pasv_reply prefix suffix h1 h2 h3 h4 p1 p2) :: rest ->
        fopen_succeeds env = true ->
        data_in w = map RecvData chunks ++ tail ->
        Forall (fun chunk => chunk <> "") chunks ->
        (tail = [] \/ exists stop later, tail = stop :: later /\ ends_transfer stop) ->
        exists w',
          ftp_download_file env Control remote_file local_file w = (Returns (), w')
          /\ (connect_to env (dotted h1 h2 h3 h4) (p1 * 256 + p2) = Connected ->
                file w' = Some (join chunks) /\ data_in w' = drop 1 tail)
          /\ (connect_to env (dotted h1 h2 h3 h4) (p1 * 256 + p2) <> Connected ->
                file w' = Some "" /\ data_in w' = data_in w)).
Proof.
  assert (Hdecodes : forall env w prefix suffix rest h1 h2 h3 h4 p1 p2,
    Forall in_int_range [h1; h2; h3; h4; p1; p2] ->
    in_int_range (p1 * 256 + p2) ->
    misses "(" prefix = true ->
    misses ")" prefix = true ->
    misses "000" (pasv_reply prefix suffix h1 h2 h3 h4 p1 p2) = true ->
    (String.length (pasv_reply prefix suffix h1 h2 h3 h4 p1 p2) <= 4095)%nat ->
    control_in w = RecvData (pasv_reply prefix suffix h1 h2 h3 h4 p1 p2) :: rest ->
    (enter_passive_mode env Control w).1
    = Returns (dotted h1 h2 h3 h4 +:+ ":" +:+ to_string (p1 * 256 + p2))).
  { intros env w prefix suffix rest h1 h2 h3 h4 p1 p2
      Hrange Hport Hopen Hclose Hnul Hlen Hin.
    destruct (pasv_reply_parsed w prefix suffix rest h1 h2 h3 h4 p1 p2
                Hrange Hopen Hclose Hnul Hlen Hin) as (Hresponse & Hinfo & Hscan).
    destruct (enter_passive_mode_parses env w) as (passive_info & Hcut & Haddress).
    rewrite Hresponse, Hinfo in Hcut. injection Hcut as <-.
    rewrite Hscan in Haddress.
    destruct (scanned_six env h1 h2 h3 h4 p1 p2 Hport) as [Hip Hnumber].
    by rewrite Hip, Hnumber in Haddress. }
  split.
  { intros w rest Hin. unfold receive_ftp_response, recv. simpl. by rewrite Hin. }
  split.
  { intros w Hin. unfold receive_ftp_response, recv. simpl. by rewrite Hin. }
  split.
  { intros sockfd w. unfold receive_ftp_response.
    destruct (recv sockfd 4095 w) as [[n buffer] w']. simpl.
    destruct (n <? 0); [|done]. by destruct sockfd. }
  split.
  { intros env w.
    destruct (enter_passive_mode_parses env w) as (passive_info & Hcut & Haddress).
    exists passive_info. split; [done|]. split; [apply sscanf_ints_length|done]. }
  split.
  { intros env w rest Hin. unfold enter_passive_mode, receive_ftp_response, recv.
    assert (Hctl : control_in (send_ftp_command Control "PASV" w) = RecvError :: rest).
    { rewrite <- Hin. unfold send_ftp_command, send.
      destruct (send_results w) as [|[|] results]; reflexivity. }
    cbn [pending]. rewrite Hctl. reflexivity. }
  split.
  { intros env remote_file local_file w chunks tail Hfopen Hdata Hchunks Htail.
    destruct (ftp_download_file_runs env remote_file local_file w Hfopen)
      as (data_sockfd & w0 & Hrun & Hdata0 & Hfile0 & Hsock & Hyes & Hno).
    destruct (receive_loop_outcome chunks tail w w0 data_sockfd
                Hdata Hchunks Htail Hdata0 Hfile0) as [Hconnected Hnone].
    eexists. split; [exact Hrun|].
    split; [apply write_cout_ends|].
    split.
    { destruct Hsock as [Hsock|Hsock]; [left; by apply Hconnected|].
      right. by apply Hnone. }
    split.
    - intros Hall. apply Hconnected. by apply Hyes.
    - intros Hall. apply Hnone. by apply Hno. }
  split; [exact Hdecodes|].
  intros env remote_file local_file w prefix suffix rest h1 h2 h3 h4 p1 p2
    chunks tail Hrange Hport Hopen Hclose Hnul Hlen Hin Hfopen Hdata Hchunks Htail.
  pose proof (Hdecodes env w prefix suffix rest h1 h2 h3 h4 p1 p2
                Hrange Hport Hopen Hclose Hnul Hlen Hin) as Haddress.
  assert (Hmisses : misses ":" (dotted h1 h2 h3 h4) = true).
  { exact (data_ip_misses (fun k => nth k [h1; h2; h3; h4] 0)). }
  assert (Hfits : size (dotted h1 h2 h3 h4) + 1 + size (to_string (p1 * 256 + p2))
                  < 2 ^ 64).
  { pose proof (data_ip_size (fun k => nth k [h1; h2; h3; h4] 0)) as Hsize.
    change (data_ip_of (fun k => nth k [h1; h2; h3; h4] 0))
      with (dotted h1 h2 h3 h4) in Hsize.
    pose proof (to_string_size (p1 * 256 + p2)) as Hdigits.
    assert (Hip : size (dotted h1 h2 h3 h4) <= 2 ^ 34).
    { apply Hsize. intros k.
      inversion Hrange as [|? ? R1 Hr1]; subst.
      inversion Hr1 as [|? ? R2 Hr2]; subst.
      inversion Hr2 as [|? ? R3 Hr3]; subst.
      inversion Hr3 as [|? ? R4 _]; subst.
      destruct k as [|[|[|[|k]]]]; simpl; try assumption.
      destruct k; unfold in_int_range; lia. }
    unfold in_int_range in Hport. lia. }
  destruct (ftp_download_file_connects env remote_file local_file w
              (dotted h1 h2 h3 h4) (p1 * 256 + p2) Haddress Hmisses Hfits Hport
              Hfopen)
    as (w0 & Hrun & Hdata0 & Hfile0).
  destruct (receive_loop_outcome chunks tail w w0
              (match connect_to env (dotted h1 h2 h3 h4) (p1 * 256 + p2) with
               | Connected => Data
               | _ => NoSocket
               end) Hdata Hchunks Htail Hdata0 Hfile0) as [Hconnected Hnone].
  eexists. split; [exact Hrun|]. split.
  - intros Hyes. apply Hconnected. by rewrite Hyes.
  - intros Hno. apply Hnone.
    by destruct (connect_to env (dotted h1 h2 h3 h4) (p1 * 256 + p2)).
Qed.

Example enter_passive_mode_tutorial_reply :
  (enter_passive_mode example_environment Control example_world).1
  = Returns "192.168.1.1:5064".
Proof. vm_compute. reflexivity. Qed.

(** A reply that is no 227 reply is scanned all the same: "500" becomes
    the first number, the other five are whatever the [int]s held. *)
Example enter_passive_mode_error_reply :
  (enter_passive_mode example_environment Control
     {| control_in := [RecvData "500 Unknown command."]; data_in := [];
        send_results := []; sent := []; file := None; cout := ""; cerr := "" |}).1
  = Returns "500.8.9.10:2828".
Proof. vm_compute. reflexivity. Qed.

(** C4 read on the broken-off transfer: the two chunks are written, the
    error ends the loop, what the server sends afterwards is never
    read, and the download is reported as successful. *)
Lemma ftp_client_witness :
  exists w',
    ftp_download_file example_environment Control "a.txt" "b.txt" example_world
    = (Returns (), w')
    /\ (exists before, cout w' = before +:+ success_line)
    /\ file w' = Some "hello world"
    /\ data_in w' = [RecvData "!"].
Proof.
  destruct ftp_client_handles_no_failure as (_ & _ & _ & _ & _ & Hdownload & _).
  destruct (Hdownload example_environment "a.txt" "b.txt" example_world
              ["hello "; "world"] [RecvError; RecvData "!"])
    as (w' & Hrun & Hout & _ & Hconnected & _).
  - reflexivity.
  - reflexivity.
  - repeat constructor; discriminate.
  - right. exists RecvError, [RecvData "!"]. split; [reflexivity | by left].
  - exists w'. split; [exact Hrun|]. split; [exact Hout|].
    apply Hconnected. reflexivity.
Defined.

(** X19: a well-formed reply to PASV is decoded as the protocol
    means it.  For a reply of at most 4095 bytes that has the six
    numbers h1,h2,h3,h4,p1,p2 between its first parentheses,
    [enter_passive_mode] returns the address h1.h2.h3.h4 with the port
    p1 * 256 + p2, whatever text stands before and after. *)
Theorem enter_passive_mode_decodes_reply
    (env : environment) (w : world) (prefix suffix : string)
    (rest : list recv_result) (h1 h2 h3 h4 p1 p2 : Z) :
  Forall in_int_range [h1; h2; h3; h4; p1; p2] ->
  in_int_range (p1 * 256 + p2) ->
  misses "(" prefix = true ->
  misses ")" prefix = true ->
  misses "000" (prefix +:+ "(" +:+ comma_separated h1 h2 h3 h4 p1 p2
                +:+ ")" +:+ suffix) = true ->
  (String.length (prefix +:+ "(" +:+ comma_separated h1 h2 h3 h4 p1 p2
                  +:+ ")" +:+ suffix) <= 4095)%nat ->
  control_in w
  = RecvData (prefix +:+ "(" +:+ comma_separated h1 h2 h3 h4 p1 p2
              +:+ ")" +:+ suffix) :: rest ->
  (enter_passive_mode env Control w).1
  = Returns (to_string h1 +:+ "." +:+ to_string h2 +:+ "." +:+ to_string h3
             +:+ "." +:+ to_string h4 +:+ ":" +:+ to_string (p1 * 256 + p2)).
Proof.
  intros Hrange Hport Hopen Hclose Hnul Hlen Hin.
  destruct (pasv_reply_parsed w prefix suffix rest h1 h2 h3 h4 p1 p2
              Hrange Hopen Hclose Hnul Hlen Hin) as (Hresponse & Hinfo & Hscan).
  unfold pasv_response in Hresponse. unfold enter_passive_mode.
  destruct (receive_ftp_response Control (send_ftp_command Control "PASV" w))
    as [response w']. simpl in Hresponse. subst response.
  cbn zeta. rewrite Hinfo. cbn zeta. rewrite Hscan. cbn [fst].
  unfold data_ip_of, data_port_of, scanned. cbn [lookup list_lookup].
  rewrite wrap_int_add_l, (wrap_int_id (p1 * 256 + p2)) by done.
  by rewrite !append_assoc.
Qed.

Lemma enter_passive_mode_decodes_witness :
  (enter_passive_mode example_environment Control example_world).1
  = Returns (to_string 192 +:+ "." +:+ to_string 168 +:+ "." +:+ to_string 1
             +:+ "." +:+ to_string 1 +:+ ":" +:+ to_string (19 * 256 + 200)).
Proof.
  apply (enter_passive_mode_decodes_reply example_environment example_world
           "227 Entering Passive Mode " ""
           [RecvData "150 Opening data connection."] 192 168 1 1 19 200).
  - repeat constructor; unfold in_int_range; lia.
  - unfold in_int_range; lia.
  - reflexivity.
  - reflexivity.
  - vm_compute. reflexivity.
  - vm_compute. lia.
  - vm_compute. reflexivity.
Defined.

(** With every [send] succeeding, a command goes out with its line end
    appended. *)
Lemma send_ftp_command_sent sockfd command w :
  sockfd <> NoSocket -> send_results w = [] ->
  sent (send_ftp_command sockfd command w) = sent w ++ [command +:+ crlf]
  /\ send_results (send_ftp_command sockfd command w) = [].
Proof.
  intros Hsock Hsend. unfold send_ftp_command, send, crlf. rewrite Hsend.
  pose proof (size_nonneg (command +:+ String "013" (String "010" ""))) as Hsize.
  destruct sockfd; [| |done]; cbn [fst snd];
    (destruct (Z.ltb_spec (size (command +:+ String "013" (String "010" ""))) 0);
     [lia | done]).
Qed.

Lemma receive_ftp_response_sent sockfd w :
  sent (receive_ftp_response sockfd w).2 = sent w
  /\ send_results (receive_ftp_response sockfd w).2 = send_results w
  /\ cout (receive_ftp_response sockfd w).2 = cout w.
Proof.
  unfold receive_ftp_response, recv.
  destruct sockfd; simpl; try done;
    match goal with
    | |- context [match ?l with _ => _ end] => destruct l as [|[bytes|] rest]
    end; simpl; try done;
    destruct (String.length bytes <=? 4095)%nat; simpl; try done;
    unfold size;
    destruct (Z.ltb_spec (Z.of_nat (String.length bytes)) 0); try lia; done.
Qed.



Lemma create_control_socket_sent env fresh_fd ip port w :
  sent (create_control_socket env fresh_fd ip port w).2 = sent w
  /\ send_results (create_control_socket env fresh_fd ip port w).2 = send_results w.
Proof. unfold create_control_socket. by destruct (connect_to env ip port). Qed.

Lemma enter_passive_mode_sent env w :
  send_results w = [] ->
  sent (enter_passive_mode env Control w).2 = sent w ++ ["PASV" +:+ crlf]
  /\ send_results (enter_passive_mode env Control w).2 = [].
Proof.
  intros Hsend. unfold enter_passive_mode.
  destruct (send_ftp_command_sent Control "PASV" w) as [Hs1 Hr1]; [done..|].
  destruct (receive_ftp_response_sent Control (send_ftp_command Control "PASV" w))
    as (Hs2 & Hr2 & _).
  destruct (receive_ftp_response Control (send_ftp_command Control "PASV" w))
    as [response w2]. simpl in Hs2, Hr2.
  destruct (substr response _ _); simpl; split; congruence.
Qed.

(** [ftp_download_file] up to the point where the local file is opened:
    passive mode is entered, the data connection attempted, RETR sent and
    its reply printed, whatever the outcome of each step. *)
Lemma ftp_download_file_steps env remote_file local_file w :
  exists data_sockfd w3 response,
    same_transfer w w3
    /\ (send_results w = [] ->
        sent w3 = sent w ++ ["PASV" +:+ crlf; ("RETR " +:+ remote_file) +:+ crlf]
        /\ send_results w3 = [])
    /\ ftp_download_file env Control remote_file local_file w
       = (Returns (),
          if fopen_succeeds env
          then write_cout success_line
                 (receive_loop (S (pending_size (data_in w3))) data_sockfd
                    (fopen_wb (write_cout ("Response: " +:+ response +:+ endl) w3)))
          else write_cerr ("Failed to open file!" +:+ endl)
                 (write_cout ("Response: " +:+ response +:+ endl) w3)).
Proof.
  unfold ftp_download_file.
  destruct (enter_passive_mode_returns env Control w)
    as (assigned & Hrange & _ & Haddress).
  pose proof (enter_passive_mode_same env w) as Hsame1.
  pose proof (enter_passive_mode_sent env w) as Hsent1.
  destruct (enter_passive_mode env Control w) as [r w1].
  simpl in Haddress, Hsame1, Hsent1. subst r.
  set (n := scanned env assigned).
  assert (Hn : forall k, in_int_range (n k)) by (intros k; by apply scanned_range).
  assert (Hport : in_int_range (data_port_of n)) by apply wrap_int_range.
  destruct (split_address (data_ip_of n) (to_string (data_port_of n)))
    as [Hip Htext].
  { apply data_ip_misses. }
  { pose proof (data_ip_size n Hn). pose proof (to_string_size (data_port_of n)).
    unfold in_int_range in Hport. lia. }
  rewrite Hip, Htext, (stoi_to_string _ Hport).
  pose proof (create_control_socket_same env Data (data_ip_of n) (data_port_of n) w1)
    as Hsame2.
  destruct (create_control_socket_sent env Data (data_ip_of n) (data_port_of n) w1)
    as [Hsent2 Hres2].
  destruct (create_control_socket env Data (data_ip_of n) (data_port_of n) w1)
    as [data_sockfd w2]. simpl in Hsame2, Hsent2, Hres2.
  pose proof (send_ftp_command_same Control ("RETR " +:+ remote_file) w2) as Hsame3.
  pose proof (send_ftp_command_sent Control ("RETR " +:+ remote_file) w2) as Hsent3.
  pose proof (receive_ftp_response_control_same
                (send_ftp_command Control ("RETR " +:+ remote_file) w2)) as Hsame4.
  destruct (receive_ftp_response_sent Control
              (send_ftp_command Control ("RETR " +:+ remote_file) w2))
    as (Hsent4 & Hres4 & _).
  destruct (receive_ftp_response Control
              (send_ftp_command Control ("RETR " +:+ remote_file) w2))
    as [response w3]. simpl in Hsame4, Hsent4, Hres4.
  exists data_sockfd, w3, response.
  split.
  { eapply same_transfer_trans; [exact Hsame1|].
    eapply same_transfer_trans; [exact Hsame2|].
    eapply same_transfer_trans; [exact Hsame3|exact Hsame4]. }
  split.
  { intros Hsend. destruct (Hsent1 Hsend) as [Hs1 Hr1].
    destruct Hsent3 as [Hs3 Hr3]; [done | congruence |].
    split; [|congruence].
    rewrite Hsent4, Hs3, Hsent2, Hs1, <- app_assoc. reflexivity. }
  by destruct (fopen_succeeds env).
Qed.

(** X21: when the local file cannot be opened, [ftp_download_file]
    has by then entered passive mode and asked for the remote file: with
    every [send] succeeding the commands PASV and RETR have gone out.  It
    reports the failure on the error stream and returns normally;
    nothing is read from the data connection, no file is written, and
    the last line on the standard output is the reply to RETR. *)
Theorem ftp_download_file_without_local_file
    (env : environment) (remote_file local_file : string) (w : world) :
  fopen_succeeds env = false ->
  send_results w = [] ->
  exists w',
    ftp_download_file env Control remote_file local_file w = (Returns (), w')
    /\ sent w' = sent w ++ ["PASV" +:+ crlf; ("RETR " +:+ remote_file) +:+ crlf]
    /\ data_in w' = data_in w
    /\ file w' = file w
    /\ (exists before, cerr w' = before +:+ "Failed to open file!" +:+ endl)
    /\ (exists before response,
          cout w' = before +:+ "Response: " +:+ response +:+ endl).
Proof.
  intros Hfopen Hsend.
  destruct (ftp_download_file_steps env remote_file local_file w)
    as (data_sockfd & w3 & response & [Hdata Hfile] & Hsent & Hrun).
  rewrite Hfopen in Hrun. destruct (Hsent Hsend) as [Hs _].
  eexists. split; [exact Hrun|]. simpl.
  repeat split; try done.
  - by exists (cerr w3).
  - by exists (cout w3), response.
Qed.

Lemma ftp_download_file_without_local_file_witness :
  exists w',
    ftp_download_file
      {| connect_to := fun _ _ => Connected; fopen_succeeds := false;
         indeterminate := fun _ => 0 |}
      Control "example.txt" "example_downloaded.txt" example_world
    = (Returns (), w')
    /\ sent w' = sent example_world
                 ++ ["PASV" +:+ crlf; ("RETR " +:+ "example.txt") +:+ crlf]
    /\ data_in w' = data_in example_world
    /\ file w' = file example_world
    /\ (exists before, cerr w' = before +:+ "Failed to open file!" +:+ endl)
    /\ (exists before response,
          cout w' = before +:+ "Response: " +:+ response +:+ endl).
Proof.
  apply (ftp_download_file_without_local_file
           {| connect_to := fun _ _ => Connected; fopen_succeeds := false;
              indeterminate := fun _ => 0 |}
           "example.txt" "example_downloaded.txt" example_world);
    reflexivity.
Defined.

(** X22: without a control connection [main] returns -1 at once:
    it sends nothing, reads nothing, opens no file and prints nothing on
    the standard output, only the reason on the error stream. *)
Theorem ftp_main_stops_without_connection (env : environment) (w : world) :
  connect_to env "ftp.example.com" 21 <> Connected ->
  exists reason,
    main env w = (Returns (-1), write_cerr (reason +:+ endl) w)
    /\ (reason = "Socket creation failed!" \/ reason = "Connection failed!").
Proof.
  intros Hconnect. unfold main, create_control_socket.
  destruct (connect_to env "ftp.example.com" 21); [done| |].
  - exists "Socket creation failed!". by split; [|left].
  - exists "Connection failed!". by split; [|right].
Qed.

Lemma ftp_main_stops_witness :
  exists reason,
    main {| connect_to := fun _ _ => ConnectFailed; fopen_succeeds := true;
            indeterminate := fun _ => 0 |} example_world
    = (Returns (-1), write_cerr (reason +:+ endl) example_world)
    /\ (reason = "Socket creation failed!" \/ reason = "Connection failed!").
Proof.
  apply (ftp_main_stops_without_connection
           {| connect_to := fun _ _ => ConnectFailed; fopen_succeeds := true;
              indeterminate := fun _ => 0 |} example_world).
  simpl. discriminate.
Defined.

End Ftp.

(** ** unnamed/part_007: unique elements of a vector, search in a set *)

Module UniqueElements.

(** [std::set<int>]: the elements in ascending order, each once. *)
Definition int_set : Type := list Z.

(** [std::set::insert]: an element that is present already is not
    inserted again. *)
Fixpoint set_insert (x : Z) (s : int_set) : int_set :=
  match s with
  | [] => [x]
  | y :: rest =>
      if x <? y then x :: s
      else if x =? y then s
      else y :: set_insert x rest
  end.

(** The range constructor [std::set<int>(first, last)] and the
    initializer-list constructor insert the elements in turn. *)
Definition set_of_range (vec : list Z) : int_set :=
  fold_left (fun s x => set_insert x s) vec [].

(** [for (int ele : unique_elements) std::cout << ele << " ";] *)
Fixpoint print_loop (unique_elements : int_set) (out : string) : string :=
  match unique_elements with
  | [] => out
  | ele :: rest => print_loop rest (out +:+ show_int ele +:+ " ")
  end.

(** The program for a vector [vec]. *)
Definition run (vec : list Z) : string :=
  let unique_elements := set_of_range vec in
  let out := "Unique elements: " in
  let out := print_loop unique_elements out in
  out +:+ endl.

Definition vec : list Z := [10; 20; 10; 30; 40; 20; 50].

Definition main : string := run vec.

(** [std::set::lower_bound]: the elements from the first one that is
    not less than [x] on. *)
Fixpoint lower_bound (x : Z) (s : int_set) : int_set :=
  match s with
  | [] => []
  | y :: rest => if y <? x then lower_bound x rest else s
  end.

(** [s.find(x)]: the element found, [None] for [s.end()].  The search
    descends by comparisons to the first element not less than [x] and
    reports it when [x] is not less than it either. *)
Definition find (x : Z) (s : int_set) : option Z :=
  match lower_bound x s with
  | [] => None
  | y :: _ => if x <? y then None else Some y
  end.

(** One [if]/[else] of the search program. *)
Definition search (s : int_set) (search_element : Z) (out : string) : string :=
  match find search_element s with
  | Some _ => out +:+ show_int search_element +:+ " is in the set." +:+ endl
  | None => out +:+ show_int search_element +:+ " is not in the set." +:+ endl
  end.

Definition main_search : string :=
  let s := set_of_range [10; 20; 30; 40; 50] in
  let out := search s 30 "" in
  search s 60 out.

Lemma set_insert_elem x y s : y ∈ set_insert x s <-> y = x \/ y ∈ s.
Proof.
  induction s as [|z s IH]; simpl.
  - rewrite list_elem_of_singleton, elem_of_nil. tauto.
  - destruct (Z.ltb_spec x z); [rewrite !elem_of_cons; tauto|].
    destruct (Z.eqb_spec x z) as [->|Hne]; [rewrite !elem_of_cons; tauto|].
    rewrite !elem_of_cons, IH. tauto.
Qed.

Lemma set_insert_sorted x s :
  StronglySorted Z.lt s -> StronglySorted Z.lt (set_insert x s).
Proof.
  induction 1 as [|z s Hsorted IH Hall]; simpl.
  - repeat constructor.
  - destruct (Z.ltb_spec x z) as [Hlt|Hge].
    + constructor; [by constructor|]. constructor; [done|].
      eapply Forall_impl; [exact Hall|]. simpl. lia.
    + destruct (Z.eqb_spec x z) as [->|Hne]; [by constructor|].
      constructor; [exact IH|].
      apply Forall_forall. intros y Hy. apply set_insert_elem in Hy.
      destruct Hy as [->|Hy]; [lia|].
      rewrite Forall_forall in Hall. by apply Hall.
Qed.

Lemma set_of_range_from vec : forall s,
  StronglySorted Z.lt s ->
  StronglySorted Z.lt (fold_left (fun s x => set_insert x s) vec s)
  /\ forall x, x ∈ fold_left (fun s x => set_insert x s) vec s <-> x ∈ vec \/ x ∈ s.
Proof.
  induction vec as [|y vec IH]; intros s Hsorted; simpl.
  - split; [done|]. intros x. rewrite elem_of_nil. tauto.
  - destruct (IH (set_insert y s)) as [Hs Helem]; [by apply set_insert_sorted|].
    split; [done|]. intros x.
    rewrite Helem, set_insert_elem, elem_of_cons. tauto.
Qed.

Lemma set_sorted_NoDup s : StronglySorted Z.lt s -> NoDup s.
Proof.
  induction 1 as [|z s Hsorted IH Hall]; constructor; [|done].
  intros Hin. rewrite Forall_forall in Hall. specialize (Hall z Hin). lia.
Qed.

Lemma lower_bound_spec x s :
  StronglySorted Z.lt s ->
  Forall (fun y => x <= y) (lower_bound x s)
  /\ (x ∈ s <-> x ∈ lower_bound x s)
  /\ StronglySorted Z.lt (lower_bound x s).
Proof.
  induction 1 as [|z s Hsorted IH Hall]; simpl.
  - split; [constructor|]. split; [tauto|constructor].
  - destruct (Z.ltb_spec z x) as [Hlt|Hge].
    + destruct IH as (Hfrom & Hiff & Hs). split; [done|]. split; [|done].
      rewrite elem_of_cons, <- Hiff. split; [intros [->|]; [lia|done] | tauto].
    + split; [|split; [done|by constructor]].
      constructor; [done|]. eapply Forall_impl; [exact Hall|]. simpl. lia.
Qed.

Lemma find_spec x s :
  StronglySorted Z.lt s -> find x s = if decide (x ∈ s) then Some x else None.
Proof.
  intros Hsorted. unfold find.
  destruct (lower_bound_spec x s Hsorted) as (Hfrom & Hiff & Hs).
  destruct (lower_bound x s) as [|y rest].
  - destruct (decide (x ∈ s)) as [Hin|]; [|done].
    apply Hiff in Hin. by apply elem_of_nil in Hin.
  - apply Forall_cons in Hfrom as [Hxy Hrest].
    destruct (Z.ltb_spec x y) as [Hlt|Hge].
    + destruct (decide (x ∈ s)) as [Hin|]; [|done].
      apply Hiff, elem_of_cons in Hin as [->|Hin]; [lia|].
      apply StronglySorted_inv in Hs as [_ Hall].
      rewrite Forall_forall in Hall. specialize (Hall x Hin). lia.
    + assert (x = y) as <- by lia.
      destruct (decide (x ∈ s)) as [|Hout]; [done|].
      exfalso. apply Hout, Hiff. by left.
Qed.

(** X24: the set built from a vector holds the vector's elements
    in strictly ascending order, each once, whatever their order and
    their number of occurrences in the vector: two vectors with the same
    elements give the same set and the same output. *)
Theorem unique_elements_sorted_without_repetition (vec vec' : list Z) :
  StronglySorted Z.lt (set_of_range vec)
  /\ NoDup (set_of_range vec)
  /\ (forall x, x ∈ set_of_range vec <-> x ∈ vec)
  /\ ((forall x, x ∈ vec <-> x ∈ vec') -> run vec = run vec').
Proof.
  destruct (set_of_range_from vec []) as [Hs Helem]; [constructor|].
  destruct (set_of_range_from vec' []) as [Hs' Helem']; [constructor|].
  fold (set_of_range vec) in Hs, Helem. fold (set_of_range vec') in Hs', Helem'.
  split; [done|]. split; [by apply set_sorted_NoDup|].
  split.
  { intros x. rewrite Helem, elem_of_nil. tauto. }
  intros Hsame. unfold run.
  assert (set_of_range vec = set_of_range vec') as ->; [|done].
  apply (StronglySorted_unique_strong Z.lt); [intros; lia|done..|].
  apply NoDup_Permutation; [by apply set_sorted_NoDup..|].
  intros x. rewrite Helem, Helem', !elem_of_nil. specialize (Hsame x). tauto.
Qed.

(** X25: the search program reports an element as being in the
    set exactly when it is among the elements the set was built from. *)
Theorem set_search_reports_membership (init : list Z) (search_element : Z)
    (out : string) :
  search (set_of_range init) search_element out
  = out +:+ show_int search_element
    +:+ (if decide (search_element ∈ init)
         then " is in the set." else " is not in the set.")
    +:+ endl.
Proof.
  destruct (set_of_range_from init []) as [Hs Helem]; [constructor|].
  fold (set_of_range init) in Hs, Helem.
  assert (Hiff : search_element ∈ set_of_range init <-> search_element ∈ init).
  { rewrite Helem, elem_of_nil. tauto. }
  unfold search. rewrite (find_spec _ _ Hs).
  repeat case_decide; reflexivity || tauto.
Qed.

(** The two programs on the values of the tutorial. *)
Lemma unique_elements_main_output :
  main = "Unique elements: 10 20 30 40 50 " +:+ endl
  /\ main_search = "30 is in the set." +:+ endl +:+ "60 is not in the set." +:+ endl.
Proof. split; vm_compute; reflexivity. Qed.

End UniqueElements.

(** ** unnamed/part_007 and unnamed/part_004: counting the words of a text *)

Module WordCount.

(** [std::map<std::string, int>]: the entries in ascending key order,
    one entry per key.  [std::less<std::string>] compares byte by byte,
    a proper prefix coming first. *)
Definition word_map : Type := list (string * Z).

(** [wordCount[word]++]: [operator[]] inserts the word with the count 0
    when it is absent; the count is then incremented. *)
Fixpoint increment (word : string) (wordCount : word_map) : word_map :=
  match wordCount with
  | [] => [(word, wrap_int (0 + 1))]
  | (key, count) :: rest =>
      match String.compare word key with
      | Lt => (word, wrap_int (0 + 1)) :: wordCount
      | Eq => (key, wrap_int (count + 1)) :: rest
      | Gt => (key, count) :: increment word rest
      end
  end.

(** The characters [operator>>] stores in [word], up to the next
    whitespace or the end of the stream, and what stays in the stream. *)
Fixpoint read_word (ss : string) : string * string :=
  match ss with
  | EmptyString => ("", "")
  | String c rest =>
      if Ftp.isspace c then ("", ss)
      else let '(word, ss') := read_word rest in (String c word, ss')
  end.

(** [ss >> word]: leading whitespace is skipped; the extraction fails
    when no character is left for the word. *)
Definition extract (ss : string) : option string * string :=
  let '(word, ss') := read_word (Ftp.skip_space ss) in
  match word with
  | EmptyString => (None, ss')
  | _ => (Some word, ss')
  end.

(** [while (ss >> word) wordCount[word]++;] with [fuel] bounding the
    number of extractions; [None] when the bound is reached. *)
Fixpoint count_loop (fuel : nat) (ss : string) (wordCount : word_map)
  : option word_map :=
  match fuel with
  | O => None
  | S fuel' =>
      match extract ss with
      | (Some word, ss') => count_loop fuel' ss' (increment word wordCount)
      | (None, _) => Some wordCount
      end
  end.

(** [for (const auto& entry : wordCount)
       std::cout << entry.first << separator << entry.second << std::endl;]
    with [":"] between word and count in the one program and [": "] in
    the other. *)
Fixpoint print_loop (separator : string) (wordCount : word_map) (out : string)
  : string :=
  match wordCount with
  | [] => out
  | (first, second) :: rest =>
      print_loop separator rest
        (out +:+ first +:+ separator +:+ show_int second +:+ endl)
  end.

(** The program for a text: every extraction takes at least one
    character, so there are no more of them than the text is long. *)
Definition run (separator text : string) : option string :=
  wordCount ← count_loop (S (String.length text)) text [];
  Some (print_loop separator wordCount "").

(** part_007. *)
Definition main : option string := run ":" "hello world hello you are a man.".

(** part_004, and the block under "Output:" there. *)
Definition main_map_tutorial : option string :=
  run ": " "hello world hello map world map map".

Definition documented_output : string :=
  "hello: 2" +:+ endl +:+ "map: 3" +:+ endl +:+ "world: 2" +:+ endl.

(** *** Texts as words and the gaps between them *)

(** Only whitespace. *)
Fixpoint blank (gap : string) : bool :=
  match gap with
  | EmptyString => true
  | String c rest => Ftp.isspace c && blank rest
  end.

(** No whitespace. *)
Fixpoint spaceless (word : string) : bool :=
  match word with
  | EmptyString => true
  | String c rest => negb (Ftp.isspace c) && spaceless rest
  end.

(** Words, each followed by a gap: the words are not empty and hold no
    whitespace, the gaps are whitespace, and only the gap after the
    last word may be empty. *)
Fixpoint separated (words : list (string * string)) : Prop :=
  match words with
  | [] => True
  | (word, gap) :: rest =>
      word <> "" /\ spaceless word = true /\ blank gap = true
      /\ (rest = [] \/ gap <> "") /\ separated rest
  end.

Fixpoint body (words : list (string * string)) : string :=
  match words with
  | [] => ""
  | (word, gap) :: rest => word +:+ gap +:+ body rest
  end.

(** The text made of leading whitespace and the words with their gaps. *)
Definition text_of (lead : string) (words : list (string * string)) : string :=
  lead +:+ body words.

(** How often [word] is among [words]. *)
Fixpoint occurrences (word : string) (words : list string) : nat :=
  match words with
  | [] => O
  | first :: rest =>
      if String.eqb word first then S (occurrences word rest)
      else occurrences word rest
  end.

(** The count [wordCount] holds for [word], 0 when it has no entry. *)
Fixpoint count_of (word : string) (wordCount : word_map) : Z :=
  match wordCount with
  | [] => 0
  | (key, count) :: rest =>
      if String.eqb word key then count else count_of word rest
  end.

(** The keys grow strictly from each entry to the next. *)
Fixpoint ascending (wordCount : word_map) : Prop :=
  match wordCount with
  | [] => True
  | (key, _) :: rest =>
      Forall (fun entry => String.compare key entry.1 = Lt) rest /\ ascending rest
  end.

(** Where reading a word stops: at the end or before whitespace. *)
Definition stops (rest : string) : Prop :=
  match rest with
  | EmptyString => True
  | String c _ => Ftp.isspace c = true
  end.

Lemma word_compare_refl word : String.compare word word = Eq.
Proof.
  pose proof (String.compare_antisym word word) as H.
  by destruct (String.compare word word).
Qed.

Lemma word_compare_trans a b c :
  String.compare a b = Lt -> String.compare b c = Lt -> String.compare a c = Lt.
Proof.
  intros Hab Hbc.
  exact (StrictOrder_Transitive (R := OrdersEx.String_as_OT.lt) a b c Hab Hbc).
Qed.

Lemma word_compare_Gt a b : String.compare a b = Gt -> String.compare b a = Lt.
Proof. intros H. rewrite String.compare_antisym, H. reflexivity. Qed.

Lemma word_compare_Lt_ne a b : String.compare a b = Lt -> String.eqb a b = false.
Proof.
  intros H. apply String.eqb_neq. intros ->.
  by rewrite word_compare_refl in H.
Qed.

Lemma increment_keys word wordCount entry :
  entry ∈ increment word wordCount ->
  entry.1 = word \/ exists entry', entry' ∈ wordCount /\ entry'.1 = entry.1.
Proof.
  induction wordCount as [|[key count] rest IH]; simpl.
  - rewrite list_elem_of_singleton. intros ->. by left.
  - destruct (String.compare word key) eqn:Hcmp; rewrite elem_of_cons.
    + intros [->|Hin]; right.
      * exists (key, count). split; [by left|done].
      * exists entry. split; [by right|done].
    + intros [->|Hin]; [by left|]. right. by exists entry.
    + intros [->|Hin].
      * right. exists (key, count). split; [by left|done].
      * destruct (IH Hin) as [?|(entry' & Hin' & Hkey)]; [by left|].
        right. exists entry'. split; [by right|done].
Qed.

Lemma increment_ascending word wordCount :
  ascending wordCount -> ascending (increment word wordCount).
Proof.
  induction wordCount as [|[key count] rest IH]; simpl.
  - intros _. by split.
  - intros [Hall Hrest]. destruct (String.compare word key) eqn:Hcmp; simpl.
    + by split.
    + split; [|by split]. constructor; [exact Hcmp|].
      eapply Forall_impl; [exact Hall|]. simpl. intros entry Hlt.
      by eapply word_compare_trans.
    + split; [|by apply IH].
      apply Forall_forall. intros entry Hin.
      destruct (increment_keys _ _ _ Hin) as [->|(entry' & Hin' & <-)].
      * by apply word_compare_Gt.
      * rewrite Forall_forall in Hall. by apply Hall.
Qed.

Lemma count_of_absent word wordCount :
  Forall (fun entry => String.compare word entry.1 = Lt) wordCount ->
  count_of word wordCount = 0.
Proof.
  induction 1 as [|[key count] rest Hlt Hall IH]; simpl; [done|].
  simpl in Hlt. by rewrite (word_compare_Lt_ne _ _ Hlt).
Qed.

Lemma count_of_increment word word' wordCount :
  ascending wordCount ->
  count_of word' (increment word wordCount)
  = if String.eqb word' word then wrap_int (count_of word' wordCount + 1)
    else count_of word' wordCount.
Proof.
  induction wordCount as [|[key count] rest IH]; simpl.
  - intros _. by destruct (String.eqb word' word).
  - intros [Hall Hrest]. destruct (String.compare word key) eqn:Hcmp; simpl.
    + apply String.compare_eq_iff in Hcmp as ->.
      by destruct (String.eqb word' key).
    + destruct (String.eqb_spec word' word) as [Heq|Hne]; [subst word'|done].
      rewrite (word_compare_Lt_ne _ _ Hcmp).
      rewrite (count_of_absent word rest); [done|].
      eapply Forall_impl; [exact Hall|]. simpl. intros entry Hlt.
      by eapply word_compare_trans.
    + destruct (String.eqb_spec word' key) as [->|Hne].
      * apply word_compare_Gt, word_compare_Lt_ne in Hcmp. by rewrite Hcmp.
      * by apply IH.
Qed.

(** The counts after the words of a list have been counted in turn,
    as long as no count leaves the range of [int]. *)
Lemma count_of_fold words : forall wordCount word,
  ascending wordCount ->
  in_int_range (count_of word wordCount + Z.of_nat (occurrences word words)) ->
  0 <= count_of word wordCount ->
  ascending (fold_left (fun m w => increment w m) words wordCount)
  /\ count_of word (fold_left (fun m w => increment w m) words wordCount)
     = count_of word wordCount + Z.of_nat (occurrences word words).
Proof.
  induction words as [|first words IH]; intros wordCount word Hasc Hrange Hpos;
    simpl.
  - split; [done|lia].
  - simpl in Hrange.
    pose proof (count_of_increment first word wordCount Hasc) as Hstep.
    destruct (String.eqb word first).
    + assert (Hone : wrap_int (count_of word wordCount + 1)
                     = count_of word wordCount + 1).
      { apply wrap_int_id. unfold in_int_range in *. lia. }
      destruct (IH (increment first wordCount) word) as [Ha Hc].
      { by apply increment_ascending. }
      { rewrite Hstep, Hone. unfold in_int_range in *. lia. }
      { rewrite Hstep, Hone. lia. }
      split; [done|]. rewrite Hc, Hstep, Hone. lia.
    + destruct (IH (increment first wordCount) word) as [Ha Hc].
      { by apply increment_ascending. }
      { by rewrite Hstep. }
      { by rewrite Hstep. }
      split; [done|]. by rewrite Hc, Hstep.
Qed.

Lemma skip_space_blank lead rest :
  blank lead = true -> Ftp.skip_space (lead +:+ rest) = Ftp.skip_space rest.
Proof.
  induction lead as [|c lead IH]; simpl; [done|].
  intros [Hc Hlead]%andb_prop. rewrite ?Ftp.append_String. simpl.
  rewrite Hc. by apply IH.
Qed.

Lemma read_word_spaceless word rest :
  spaceless word = true -> stops rest -> read_word (word +:+ rest) = (word, rest).
Proof.
  intros Hword Hrest. induction word as [|c word IH]; simpl.
  - destruct rest as [|c rest]; [done|]. simpl in Hrest. simpl. by rewrite Hrest.
  - simpl in Hword. apply andb_prop in Hword as [Hc Hword].
    rewrite ?Ftp.append_String. simpl.
    destruct (Ftp.isspace c); [done|]. by rewrite (IH Hword).
Qed.

Lemma blank_stops gap rest :
  blank gap = true -> (gap <> "" \/ rest = "") -> stops (gap +:+ rest).
Proof.
  destruct gap as [|c gap]; simpl.
  - intros _ [?| ->]; done.
  - intros [Hc _]%andb_prop _. exact Hc.
Qed.

Lemma extract_word lead word rest :
  blank lead = true -> word <> "" -> spaceless word = true -> stops rest ->
  extract (lead +:+ word +:+ rest) = (Some word, rest).
Proof.
  intros Hlead Hne Hword Hrest. unfold extract.
  rewrite (skip_space_blank _ _ Hlead).
  assert (Hskip : Ftp.skip_space (word +:+ rest) = word +:+ rest).
  { destruct word as [|c word]; [done|]. simpl in Hword.
    apply andb_prop in Hword as [Hc _]. rewrite ?Ftp.append_String. simpl.
    by destruct (Ftp.isspace c). }
  rewrite Hskip, (read_word_spaceless _ _ Hword Hrest).
  by destruct word.
Qed.

Lemma extract_blank lead : blank lead = true -> (extract lead).1 = None.
Proof.
  intros Hlead. unfold extract.
  rewrite <- (Ftp.append_nil_r lead).
  by rewrite (skip_space_blank _ _ Hlead).
Qed.

(** The loop counts the words of a text one after the other and ends
    when only whitespace is left. *)
Lemma count_loop_words words : forall fuel lead wordCount,
  blank lead = true -> separated words -> (length words < fuel)%nat ->
  count_loop fuel (text_of lead words) wordCount
  = Some (fold_left (fun m w => increment w m) words.*1 wordCount).
Proof.
  unfold text_of.
  induction words as [|[word gap] words IH]; intros fuel lead wordCount Hlead Hsep Hfuel;
    simpl in *.
  - destruct fuel as [|fuel]; [lia|]. simpl.
    rewrite Ftp.append_nil_r. pose proof (extract_blank lead Hlead) as Hnone.
    by destruct (extract lead) as [[word|] ss'].
  - destruct Hsep as (Hne & Hword & Hgap & Hlast & Hsep).
    destruct fuel as [|fuel]; [lia|]. simpl.
    rewrite (extract_word lead word (gap +:+ body words) Hlead Hne Hword).
    + apply IH; [done..|lia].
    + apply blank_stops; [done|]. destruct Hlast as [->|?]; [by right|by left].
Qed.

Lemma body_length words :
  separated words -> (length words <= String.length (body words))%nat.
Proof.
  induction words as [|[word gap] words IH]; simpl; [done|].
  intros (Hne & _ & _ & _ & Hsep). specialize (IH Hsep).
  rewrite !Ftp.length_append. destruct word; [done|]. simpl. lia.
Qed.

Lemma ascending_NoDup wordCount : ascending wordCount -> NoDup wordCount.*1.
Proof.
  induction wordCount as [|[key count] rest IH]; simpl; [constructor|].
  intros [Hall Hrest]. constructor; [|by apply IH].
  intros (entry & Hkey & Hin)%list_elem_of_fmap.
  rewrite Forall_forall in Hall. specialize (Hall entry Hin).
  simpl in Hkey. rewrite <- Hkey, word_compare_refl in Hall. discriminate.
Qed.

Lemma count_of_entry wordCount word count :
  ascending wordCount -> (word, count) ∈ wordCount ->
  count_of word wordCount = count.
Proof.
  induction wordCount as [|[key count'] rest IH]; simpl.
  - intros _ Hin. by apply elem_of_nil in Hin.
  - intros [Hall Hrest] Hin. apply elem_of_cons in Hin as [Heq|Hin].
    + injection Heq as -> ->. by rewrite String.eqb_refl.
    + rewrite Forall_forall in Hall. specialize (Hall _ Hin). simpl in Hall.
      apply word_compare_Lt_ne in Hall. rewrite String.eqb_sym in Hall.
      rewrite Hall. by apply IH.
Qed.

Lemma occurrences_le word words : (occurrences word words <= length words)%nat.
Proof.
  induction words as [|first words IH]; simpl; [done|].
  destruct (String.eqb word first); lia.
Qed.

Lemma occurrences_elem word words :
  (0 < occurrences word words)%nat <-> word ∈ words.
Proof.
  induction words as [|first words IH]; simpl.
  - rewrite elem_of_nil. lia.
  - rewrite elem_of_cons.
    destruct (String.eqb_spec word first) as [->|Hne]; [intuition lia|].
    rewrite IH. tauto.
Qed.

(** Every entry of the map stands for a word that was counted. *)
Lemma fold_increment_keys words : forall wordCount entry,
  entry ∈ fold_left (fun m w => increment w m) words wordCount ->
  entry.1 ∈ words \/ exists entry', entry' ∈ wordCount /\ entry'.1 = entry.1.
Proof.
  induction words as [|first words IH]; intros wordCount entry; simpl.
  - intros Hin. right. by exists entry.
  - intros Hin. destruct (IH _ _ Hin) as [Hw|(entry' & Hin' & Hkey)].
    + left. apply elem_of_cons. by right.
    + destruct (increment_keys _ _ _ Hin') as [Hfirst|(entry'' & Hin'' & Hkey')].
      * left. apply elem_of_cons. left. congruence.
      * right. exists entry''. split; [done|congruence].
Qed.

Lemma count_of_nonzero wordCount word :
  count_of word wordCount <> 0 -> (word, count_of word wordCount) ∈ wordCount.
Proof.
  induction wordCount as [|[key count] rest IH]; simpl; [done|].
  destruct (String.eqb_spec word key) as [->|Hne]; intros Hpos.
  - by left.
  - right. by apply IH.
Qed.

Lemma skip_space_length ss :
  (String.length (Ftp.skip_space ss) <= String.length ss)%nat.
Proof.
  induction ss as [|c ss IH]; simpl; [done|].
  destruct (Ftp.isspace c); simpl; lia.
Qed.

Lemma read_word_length ss :
  spaceless (read_word ss).1 = true
  /\ String.length ss
     = (String.length (read_word ss).1 + String.length (read_word ss).2)%nat.
Proof.
  induction ss as [|c ss [IHword IHlength]]; simpl; [done|].
  destruct (Ftp.isspace c) eqn:Hc; simpl; [done|].
  destruct (read_word ss) as [word ss']. simpl in *. rewrite Hc. split; [done|lia].
Qed.

(** An extraction that succeeds stores a word without whitespace and
    takes at least one character from the stream. *)
Lemma extract_some ss word ss' :
  extract ss = (Some word, ss') ->
  word <> "" /\ spaceless word = true
  /\ (String.length ss' < String.length ss)%nat.
Proof.
  unfold extract. pose proof (skip_space_length ss) as Hskip.
  destruct (read_word_length (Ftp.skip_space ss)) as [Hword Hlength].
  destruct (read_word (Ftp.skip_space ss)) as [word' rest]. simpl in *.
  destruct word' as [|c word']; [done|].
  intros [= <- <-]. split; [done|]. split; [done|]. simpl in Hlength. lia.
Qed.

Lemma count_loop_enough fuel : forall fuel' ss wordCount,
  (String.length ss < fuel)%nat -> (String.length ss < fuel')%nat ->
  exists wordCount',
    count_loop fuel ss wordCount = Some wordCount'
    /\ count_loop fuel' ss wordCount = Some wordCount'
    /\ (ascending wordCount -> ascending wordCount')
    /\ (Forall (fun entry => entry.1 <> "" /\ spaceless entry.1 = true) wordCount ->
        Forall (fun entry => entry.1 <> "" /\ spaceless entry.1 = true) wordCount').
Proof.
  induction fuel as [|fuel IH]; intros fuel' ss wordCount Hfuel Hfuel'; [lia|].
  destruct fuel' as [|fuel']; [lia|]. simpl.
  destruct (extract ss) as [[word|] ss'] eqn:Hextract.
  - destruct (extract_some _ _ _ Hextract) as (Hne & Hword & Hshorter).
    destruct (IH fuel' ss' (increment word wordCount)) as (m & H1 & H2 & Hasc & Hkeys);
      [lia..|].
    exists m. split; [done|]. split; [done|]. split.
    + intros Ha. by apply Hasc, increment_ascending.
    + intros Hk. apply Hkeys, Forall_forall. intros entry Hin.
      destruct (increment_keys _ _ _ Hin) as [->|(entry' & Hin' & <-)]; [done|].
      rewrite Forall_forall in Hk. by apply Hk.
  - by exists wordCount.
Qed.

(** X26: for every text the counting loop comes to an end: no
    more extractions succeed than the text has characters, and a larger
    bound changes nothing.  The map then holds its words in strictly
    ascending order, and no word in it is empty or holds whitespace. *)
Theorem word_count_loop_ends (text : string) :
  exists wordCount,
    (forall fuel, (String.length text < fuel)%nat ->
       count_loop fuel text [] = Some wordCount)
    /\ (forall separator,
          run separator text = Some (print_loop separator wordCount ""))
    /\ ascending wordCount
    /\ NoDup wordCount.*1
    /\ Forall (fun entry => entry.1 <> "" /\ spaceless entry.1 = true) wordCount.
Proof.
  destruct (count_loop_enough (S (String.length text)) (S (String.length text))
              text []) as (wordCount & Hrun & _ & Hasc & Hkeys); [lia..|].
  exists wordCount. split.
  { intros fuel Hfuel.
    destruct (count_loop_enough (S (String.length text)) fuel text [])
      as (m & H1 & H2 & _); [lia..|]. congruence. }
  split.
  { intros separator. unfold run. by rewrite Hrun. }
  split; [by apply Hasc|]. split; [by apply ascending_NoDup, Hasc|].
  apply Hkeys. constructor.
Qed.

(** X27: a text made of words with whitespace between them is
    counted word by word: as long as the number of words fits an [int],
    the map holds an entry for exactly the words of the text, each with
    the number of its occurrences, in ascending order of the words. *)
Theorem word_count_counts_each_word
    (separator lead : string) (words : list (string * string)) :
  blank lead = true ->
  separated words ->
  Z.of_nat (length words) < 2 ^ 31 ->
  exists wordCount,
    run separator (text_of lead words) = Some (print_loop separator wordCount "")
    /\ ascending wordCount
    /\ forall word count,
         (word, count) ∈ wordCount
         <-> 0 < count /\ count = Z.of_nat (occurrences word words.*1).
Proof.
  intros Hlead Hsep Hfits.
  pose proof (count_loop_words words (S (String.length (text_of lead words)))
                lead [] Hlead Hsep) as Hrun.
  set (wordCount := fold_left (fun m w => increment w m) words.*1 []) in *.
  assert (Hcounts : forall word,
    ascending wordCount
    /\ count_of word wordCount = Z.of_nat (occurrences word words.*1)).
  { intros word.
    pose proof (occurrences_le word words.*1) as Hle.
    rewrite length_fmap in Hle.
    destruct (count_of_fold words.*1 [] word) as [Hasc Hcount]; simpl; try done.
    unfold in_int_range. lia. }
  exists wordCount. split.
  { unfold run. rewrite Hrun; [done|].
    pose proof (body_length words Hsep) as Hbody. unfold text_of.
    rewrite Ftp.length_append. lia. }
  split; [apply (Hcounts ""%string)|].
  intros word count. destruct (Hcounts word) as [Hasc Hcount]. split.
  - intros Hin. rewrite <- Hcount, (count_of_entry _ _ _ Hasc Hin).
    split; [|done].
    rewrite <- (count_of_entry _ _ _ Hasc Hin), Hcount.
    destruct (fold_increment_keys _ _ _ Hin) as [Hword|(entry & Hnil & _)].
    + apply occurrences_elem in Hword. simpl in Hword. lia.
    + by apply elem_of_nil in Hnil.
  - intros [Hpos ->]. rewrite <- Hcount. apply count_of_nonzero. lia.
Qed.

Lemma word_count_witness :
  exists wordCount,
    run ": " (text_of "" [("hello", " "); ("world", " "); ("hello", " ");
                          ("map", " "); ("world", " "); ("map", " "); ("map", "")])
    = Some (print_loop ": " wordCount "")
    /\ ascending wordCount
    /\ forall word count,
         (word, count) ∈ wordCount
         <-> 0 < count
             /\ count = Z.of_nat (occurrences word
                  [("hello", " "); ("world", " "); ("hello", " ");
                   ("map", " "); ("world", " "); ("map", " "); ("map", "")].*1).
Proof.
  apply (word_count_counts_each_word ": " ""
           [("hello", " "); ("world", " "); ("hello", " ");
            ("map", " "); ("world", " "); ("map", " "); ("map", "")]).
  - reflexivity.
  - simpl. repeat split; (done || (by right) || (by left)).
  - simpl. lia.
Defined.

(** The two programs on the texts of the tutorial. *)
Lemma word_count_main_output :
  main = Some ("a:1" +:+ endl +:+ "are:1" +:+ endl +:+ "hello:2" +:+ endl
               +:+ "man.:1" +:+ endl +:+ "world:1" +:+ endl +:+ "you:1" +:+ endl)
  /\ main_map_tutorial = Some documented_output.
Proof. split; vm_compute; reflexivity. Qed.

End WordCount.

(** ** unnamed/part_004: the operations of [std::map<int, std::string>] *)

Module MapUsage.

(** [std::map<int, std::string>]: the entries in ascending key order,
    one entry per key. *)
Definition string_map : Type := list (Z * string).

(** [m.insert({k, v})]: an entry whose key is present already is left
    as it is. *)
Fixpoint insert (k : Z) (v : string) (m : string_map) : string_map :=
  match m with
  | [] => [(k, v)]
  | (k', v') :: rest =>
      if k <? k' then (k, v) :: m
      else if k =? k' then m
      else (k', v') :: insert k v rest
  end.

(** [m[k] = v]: the entry is created when the key is absent, and
    overwritten when it is present. *)
Fixpoint assign (k : Z) (v : string) (m : string_map) : string_map :=
  match m with
  | [] => [(k, v)]
  | (k', v') :: rest =>
      if k <? k' then (k, v) :: m
      else if k =? k' then (k', v) :: rest
      else (k', v') :: assign k v rest
  end.

(** [m.find(k)]: the value found, [None] for [m.end()].  The search
    passes the smaller keys and stops at the first key that is not
    smaller. *)
Fixpoint find (k : Z) (m : string_map) : option string :=
  match m with
  | [] => None
  | (k', v') :: rest =>
      if k' <? k then find k rest
      else if k =? k' then Some v'
      else None
  end.

(** [m[k]] read: an absent key gets an entry with the empty string. *)
Definition subscript (k : Z) (m : string_map) : string * string_map :=
  match find k m with
  | Some v => (v, m)
  | None => ("", assign k "" m)
  end.

(** [m.erase(k)]. *)
Fixpoint erase (k : Z) (m : string_map) : string_map :=
  match m with
  | [] => []
  | (k', v') :: rest =>
      if k' <? k then (k', v') :: erase k rest
      else if k =? k' then rest
      else m
  end.

(** [for (const auto& pair : m)
       std::cout << prefix << pair.first << ": " << pair.second << std::endl;]
    with the prefix ["Priority "] in the task scheduler and none in the
    first example. *)
Fixpoint print_loop (prefix : string) (m : string_map) (out : string) : string :=
  match m with
  | [] => out
  | (first, second) :: rest =>
      print_loop prefix rest
        (out +:+ prefix +:+ show_int first +:+ ": " +:+ second +:+ endl)
  end.

(** [main] of "Example Usage". *)
Definition main : string :=
  let m := [] in
  let m := insert 1 "One" m in
  let m := insert 2 "Two" m in
  let m := assign 3 "Three" m in
  let '(value, m) := subscript 2 m in
  let out := "Key 2: " +:+ value +:+ endl in
  let '(out, m) :=
    match find 3 m with
    | Some _ =>
        let '(value, m) := subscript 3 m in
        (out +:+ "Key 3 found with value: " +:+ value +:+ endl, m)
    | None => (out, m)
    end in
  let m := erase 1 m in
  print_loop "" m out.

(** The assignments of the task scheduler, in turn. *)
Definition assign_all (tasks : list (Z * string)) (m : string_map) : string_map :=
  fold_left (fun m task => assign task.1 task.2 m) tasks m.

(** The task scheduler for a list of tasks. *)
Definition run (tasks : list (Z * string)) : string :=
  let taskScheduler := assign_all tasks [] in
  print_loop "Priority " taskScheduler "".

Definition main_task_scheduler : string :=
  run [(1, "Complete project report"); (3, "Attend team meeting");
       (2, "Reply to emails")].

(** The block under "Output:" of the task scheduler. *)
Definition documented_output : string :=
  "Priority 1: Complete project report" +:+ endl
  +:+ "Priority 2: Reply to emails" +:+ endl
  +:+ "Priority 3: Attend team meeting" +:+ endl.

(** The map of "Example Usage" before the [erase]. *)
Definition example_map : string_map := [(1, "One"); (2, "Two"); (3, "Three")].

(** The keys grow strictly from each entry to the next. *)
Fixpoint ascending (m : string_map) : Prop :=
  match m with
  | [] => True
  | (k, _) :: rest => Forall (fun entry => k < entry.1) rest /\ ascending rest
  end.

(** The description given last to the priority [k]. *)
Fixpoint last_value (k : Z) (tasks : list (Z * string)) : option string :=
  match tasks with
  | [] => None
  | (k', v') :: rest =>
      match last_value k rest with
      | Some v => Some v
      | None => if k =? k' then Some v' else None
      end
  end.

Lemma usage_find_below k m :
  Forall (fun entry => k < entry.1) m -> find k m = None.
Proof.
  destruct 1 as [|[k' v'] rest Hlt _]; simpl; [done|]. simpl in Hlt.
  destruct (Z.ltb_spec k' k); [lia|]. destruct (Z.eqb_spec k k'); [lia|done].
Qed.

Lemma usage_assign_keys k v m entry :
  entry ∈ assign k v m -> entry.1 = k \/ exists v', (entry.1, v') ∈ m.
Proof.
  induction m as [|[k' v'] rest IH]; simpl.
  - rewrite list_elem_of_singleton. intros ->. by left.
  - destruct (Z.ltb_spec k k').
    { rewrite elem_of_cons. intros [->|Hin]; [by left|].
      right. exists entry.2. by destruct entry. }
    destruct (Z.eqb_spec k k') as [->|Hne]; rewrite elem_of_cons.
    + intros [->|Hin]; [by left|]. right. exists entry.2.
      destruct entry. by right.
    + intros [->|Hin]; [right; exists v'; by left|].
      destruct (IH Hin) as [?|[v'' Hin']]; [by left|].
      right. exists v''. by right.
Qed.

Lemma usage_assign_ascending k v m : ascending m -> ascending (assign k v m).
Proof.
  induction m as [|[k' v'] rest IH]; simpl.
  - intros _. by split.
  - intros [Hall Hrest]. destruct (Z.ltb_spec k k') as [Hlt|Hge]; simpl.
    + split; [|by split]. constructor; [done|].
      eapply Forall_impl; [exact Hall|]. simpl. lia.
    + destruct (Z.eqb_spec k k') as [->|Hne]; simpl; [by split|].
      split; [|by apply IH].
      apply Forall_forall. intros entry Hin.
      destruct (usage_assign_keys _ _ _ _ Hin) as [->|[v'' Hin']]; [lia|].
      rewrite Forall_forall in Hall. by apply (Hall _ Hin').
Qed.

Lemma usage_find_assign k k' v m :
  ascending m ->
  find k' (assign k v m) = if k' =? k then Some v else find k' m.
Proof.
  induction m as [|[k0 v0] rest IH]; simpl.
  - intros _. destruct (Z.ltb_spec k k'), (Z.eqb_spec k' k); (done || lia).
  - intros [Hall Hrest]. destruct (Z.ltb_spec k k0) as [Hlt|Hge]; simpl.
    + destruct (Z.ltb_spec k k'), (Z.eqb_spec k' k); try lia; try done.
      destruct (Z.ltb_spec k0 k'); [lia|]. by destruct (Z.eqb_spec k' k0); [lia|].
    + destruct (Z.eqb_spec k k0) as [->|Hne]; simpl.
      * destruct (Z.ltb_spec k0 k'), (Z.eqb_spec k' k0); try lia; done.
      * destruct (Z.ltb_spec k0 k').
        { by apply IH. }
        destruct (Z.eqb_spec k' k0), (Z.eqb_spec k' k); try lia; done.
Qed.

Lemma assign_all_spec tasks : forall m k,
  ascending m ->
  ascending (assign_all tasks m)
  /\ find k (assign_all tasks m)
     = match last_value k tasks with
       | Some v => Some v
       | None => find k m
       end.
Proof.
  unfold assign_all.
  induction tasks as [|[k' v'] tasks IH]; intros m k Hasc; simpl; [done|].
  destruct (IH (assign k' v' m) k) as [Ha Hfind]; [by apply usage_assign_ascending|].
  split; [done|]. rewrite Hfind.
  destruct (last_value k tasks); [done|].
  rewrite (usage_find_assign _ _ _ _ Hasc). by destruct (k =? k').
Qed.

Lemma usage_erase_subset k m entry : entry ∈ erase k m -> entry ∈ m.
Proof.
  induction m as [|[k' v'] rest IH]; simpl; [done|].
  destruct (k' <? k).
  - rewrite !elem_of_cons. intros [->|Hin]; [by left|]. right. by apply IH.
  - destruct (k =? k'); [|done]. intros Hin. by right.
Qed.

(** X28: erasing a key from a map removes the entry of that key
    and no other: afterwards the key is not found, every other key is
    found with the value it had, and the entries are still in ascending
    order. *)
Theorem map_erase_removes_one_key (k : Z) (m : string_map) :
  ascending m ->
  ascending (erase k m)
  /\ find k (erase k m) = None
  /\ (forall k', k' <> k -> find k' (erase k m) = find k' m)
  /\ length (erase k m)
     = (length m - (if find k m is Some _ then 1 else 0))%nat.
Proof.
  induction m as [|[k0 v0] rest IH]; simpl; [done|].
  intros [Hall Hrest]. destruct (IH Hrest) as (Ha & Hgone & Hothers & Hlen).
  destruct (Z.ltb_spec k0 k) as [Hlt|Hge]; simpl.
  - split.
    { split; [|done]. apply Forall_forall. intros entry Hin.
      rewrite Forall_forall in Hall. by apply Hall, (usage_erase_subset k). }
    destruct (Z.ltb_spec k0 k); [|lia]. split; [done|]. split.
    + intros k' Hne. destruct (k0 <? k'); [by apply Hothers|done].
    + rewrite Hlen. destruct (find k rest) eqn:Hfind; [|lia].
      destruct rest; [done|simpl; lia].
  - destruct (Z.eqb_spec k k0) as [->|Hne].
    + split; [done|]. split; [by apply usage_find_below|]. split; [|lia].
      intros k' Hne. destruct (Z.ltb_spec k0 k'); [done|].
      destruct (Z.eqb_spec k' k0); [lia|]. apply usage_find_below.
      eapply Forall_impl; [exact Hall|]. simpl. lia.
    + simpl. split; [done|].
      destruct (Z.ltb_spec k0 k); [lia|]. destruct (Z.eqb_spec k k0); [lia|].
      split; [done|]. split; [done|lia].
Qed.

Lemma map_erase_witness :
  ascending (erase 1 example_map)
  /\ find 1 (erase 1 example_map) = None
  /\ (forall k', k' <> 1 -> find k' (erase 1 example_map) = find k' example_map)
  /\ length (erase 1 example_map)
     = (length example_map - (if find 1 example_map is Some _ then 1 else 0))%nat.
Proof.
  apply (map_erase_removes_one_key 1 example_map).
  unfold example_map. simpl. repeat split; repeat constructor; simpl; lia.
Defined.

(** X29: the task scheduler holds its tasks in ascending order
    of priority whatever the order in which they were assigned, and for
    each priority the description assigned last; a priority never
    assigned is not found. *)
Theorem task_scheduler_ascending_last_wins (tasks : list (Z * string)) (k : Z) :
  ascending (assign_all tasks [])
  /\ find k (assign_all tasks []) = last_value k tasks
  /\ (forall entry, entry ∈ assign_all tasks [] ->
        last_value entry.1 tasks = Some entry.2).
Proof.
  destruct (assign_all_spec tasks [] k) as [Hasc Hfind]; [done|].
  split; [done|]. split.
  { rewrite Hfind. by destruct (last_value k tasks). }
  intros [k' v'] Hin. simpl.
  destruct (assign_all_spec tasks [] k') as [_ Hfind']; [done|].
  assert (Hfound : find k' (assign_all tasks []) = Some v').
  { clear -Hasc Hin. induction (assign_all tasks []) as [|[k0 v0] rest IH];
      simpl in *; [by apply elem_of_nil in Hin|].
    destruct Hasc as [Hall Hrest]. apply elem_of_cons in Hin as [[= -> ->]|Hin].
    - destruct (Z.ltb_spec k0 k0); [lia|]. by destruct (Z.eqb_spec k0 k0).
    - rewrite Forall_forall in Hall. specialize (Hall _ Hin). simpl in Hall.
      destruct (Z.ltb_spec k0 k'); [|lia]. by apply IH. }
  rewrite Hfound in Hfind'. by destruct (last_value k' tasks).
Qed.

(** The two programs on the values of the tutorial. *)
Lemma map_usage_main_output :
  main = "Key 2: Two" +:+ endl +:+ "Key 3 found with value: Three" +:+ endl
         +:+ "2: Two" +:+ endl +:+ "3: Three" +:+ endl
  /\ main_task_scheduler = documented_output.
Proof. split; vm_compute; reflexivity. Qed.

End MapUsage.
